(** * Symbolic weighted abstractions: encoder and transition-relation builder

    A shallow embedding of
      - src/symbolic_graphs/symbolic_abstraction_add.py
          (SymbolicWeightedTransitionSystem,
           SymbolicWeightedFrankaTransitionSystem),
      - src/symbolic_graphs/graph_search_scripts/frankaworld_main.py
          (FrankaWorld._create_symbolic_lbl_vars, _create_weight_dict,
           build_weighted_add_abstraction),
      - src/explicit_graphs/transition_system.py
          (FiniteTransitionSystem._get_box_location,
           _get_multiple_box_location).

    Python exceptions are modelled by a sum type: a method that can raise
    returns [result A]; [inl e] is the raised exception. *)

From Stdlib Require Import ZArith Lia Ascii String.
From stdpp Require Import gmap strings list fin_maps sorting pretty.

(** ** Exceptions and the error monad *)

Inductive exn : Type :=
  | IndexError
  | KeyError
  | AssertionError
  | TypeError
  | ValueError
  | AttributeError
  | UnboundLocalError.

Definition result (A : Type) : Type := exn + A.

Definition raise {A} (e : exn) : result A := inl e.
Definition ret {A} (a : A) : result A := inr a.

Definition bind {A B} (m : result A) (k : A → result B) : result B :=
  match m with
  | inl e => inl e
  | inr a => k a
  end.

Notation "x ←r m ; k" := (bind m (λ x, k))
  (at level 20, m at level 100, k at level 200, only parsing, right associativity).
Notation "' p ←r m ; k" := (bind m (λ x, match x with p => k end))
  (at level 20, p pattern, m at level 100, k at level 200, only parsing,
   right associativity).

Definition raised {A} (m : result A) : Prop := ∃ e, m = inl e.

(** [d[k]] on a Python dict. *)
Definition getitem `{Countable K} {V} (d : gmap K V) (k : K) : result V :=
  match d !! k with
  | Some v => ret v
  | None => raise KeyError
  end.

(** [l[i]] on a Python list, non-negative index. *)
Definition list_getitem {A} (l : list A) (i : nat) : result A :=
  match l !! i with
  | Some v => ret v
  | None => raise IndexError
  end.

(** [functools.reduce(f, l)] without initial value. *)
Definition reduce {A} (f : A → A → A) (l : list A) : result A :=
  match l with
  | [] => raise TypeError
  | x :: xs => ret (fold_left f xs x)
  end.

(** Monadic traversal of a list, left to right. *)
Fixpoint mapM_r {A B} (f : A → result B) (l : list A) : result (list B) :=
  match l with
  | [] => ret []
  | x :: xs => y ←r f x; ys ←r mapM_r f xs; ret (y :: ys)
  end.

(** ** The decision-diagram substrate *)

Module Cudd.

(** Modelled from the spec: the decision-diagram substrate (the external
    [cudd] binding). A diagram is the function it denotes, from
    assignments of the manager's variables to a terminal; 0-1 diagrams
    are the Boolean ones. Canonicity (equal functions, same node) is
    [dd_eqb]: equality on every assignment of the manager's variables. *)

Abbreviation assignment := (list bool).
Definition ADD : Type := assignment → Z.

Definition addZero : ADD := λ _, 0%Z.
Definition bddZero : ADD := λ _, 0%Z.
Definition bddOne : ADD := λ _, 1%Z.
Definition addConst (w : Z) : ADD := λ _, w.
Definition addVar (i : nat) : ADD := λ ρ, if nth i ρ false then 1%Z else 0%Z.

(** [a & b], [a | b], [~a]. *)
Definition dd_and (a b : ADD) : ADD := λ ρ, (a ρ * b ρ)%Z.
Definition dd_or (a b : ADD) : ADD := λ ρ, Z.max (a ρ) (b ρ).
Definition dd_not (a : ADD) : ADD := λ ρ, if (a ρ =? 0)%Z then 1%Z else 0%Z.

(** [itertools.product([1, 0], repeat=n)], 1 as [true]. *)
Fixpoint product_10 (n : nat) : list (list bool) :=
  match n with
  | 0 => [[]]
  | S k => ((λ t, true :: t) <$> product_10 k) ++ ((λ t, false :: t) <$> product_10 k)
  end.

(** All assignments of a manager with [size] variables. *)
Definition assignments (size : nat) : list assignment := product_10 size.

Definition isZero (size : nat) (a : ADD) : bool :=
  forallb (λ ρ, (a ρ =? 0)%Z) (assignments size).

Definition dd_eqb (size : nat) (a b : ADD) : bool :=
  forallb (λ ρ, (a ρ =? b ρ)%Z) (assignments size).

(** Equality of diagrams of a manager with [size] variables. *)
Definition dd_eq (size : nat) (a b : ADD) : Prop :=
  ∀ ρ, length ρ = size → a ρ = b ρ.

End Cudd.

Import Cudd.

(** ** Python built-ins used by the builders *)

Module Py.

(** The tuples of interned predicate ids. *)
Abbreviation State := (list nat).

(** [sub in s] on strings. *)
Fixpoint contains (sub s : string) : bool :=
  if String.prefix sub s then true
  else match s with
       | EmptyString => false
       | String _ r => contains sub r
       end.

(** Whitespace of [str.split()], ASCII range. *)
Definition is_space (c : ascii) : bool :=
  let n := nat_of_ascii c in
  ((9 <=? n) && (n <=? 13)) || ((28 <=? n) && (n <=? 32)).

Fixpoint skip_spaces (s : string) : string :=
  match s with
  | EmptyString => EmptyString
  | String c r => if is_space c then skip_spaces r else s
  end.

Fixpoint take_word (s : string) : string :=
  match s with
  | EmptyString => EmptyString
  | String c r => if is_space c then EmptyString else String c (take_word r)
  end.

(** [s.split()[0]] *)
Definition split_first (s : string) : result string :=
  match skip_spaces s with
  | EmptyString => raise IndexError
  | w => ret (take_word w)
  end.

(** [s[1:]] *)
Definition drop_first (s : string) : string :=
  match s with
  | EmptyString => EmptyString
  | String _ r => r
  end.

(** [sorted(l)] on integers. *)
Definition sorted (l : list nat) : list nat := merge_sort (≤) l.

(** [list(set(l))]: the elements once each; the order a set gives them
    in is erased by the [sorted] that follows every use. *)
Definition set_of (l : list nat) : list nat := remove_dups l.

(** [l.remove(x)]: removes the first occurrence, ValueError if absent. *)
Fixpoint list_remove (x : string) (l : list string) : result (list string) :=
  match l with
  | [] => raise ValueError
  | y :: r => if decide (x = y) then ret r
              else r' ←r list_remove x r; ret (y :: r')
  end.

(** A Python [dict] read in insertion order: keys once each. *)
Definition dict_get {V} (d : list (string * V)) (k : string) : result V :=
  match List.find (λ kv, bool_decide (kv.1 = k)) d with
  | Some kv => ret kv.2
  | None => raise KeyError
  end.

(** [d[k] = v]: in place for an existing key, appended otherwise. *)
Fixpoint dict_set {V} (d : list (string * V)) (k : string) (v : V) : list (string * V) :=
  match d with
  | [] => [(k, v)]
  | kv :: r => if decide (kv.1 = k) then (k, v) :: r else kv :: dict_set r k v
  end.

Definition dict_keys {V} (d : list (string * V)) : list string := d.*1.

(** [{state: boolean_str[index] for index, state in enumerate(states)}] *)
Fixpoint dict_of_enumerate `{Countable K} {V} (boolean_str : list V) (index : nat)
    (states : list K) (acc : gmap K V) : result (gmap K V) :=
  match states with
  | [] => ret acc
  | state :: rest =>
      v ←r list_getitem boolean_str index;
      dict_of_enumerate boolean_str (S index) rest (<[state := v]> acc)
  end.

(** A loop over the items of a dict whose body can raise. *)
Definition map_mapM `{Countable K} {A B} (f : A → result B) (m : gmap K A)
    : result (gmap K B) :=
  l ←r mapM_r (λ kv, b ←r f kv.2; ret (kv.1, b)) (map_to_list m);
  ret (list_to_map l).

(** [bidict.inv[v]] *)
Definition bidict_inv `{Countable K} {V} (eqb : V → V → bool) (m : gmap K V) (v : V)
    : result K :=
  match List.find (λ kv, eqb kv.2 v) (map_to_list m) with
  | Some kv => ret kv.1
  | None => raise KeyError
  end.

(** A [for] loop whose body can raise. *)
Fixpoint foldM_r {S A} (body : S → A → result S) (s : S) (l : list A) : result S :=
  match l with
  | [] => ret s
  | x :: xs => s' ←r body s x; foldM_r body s' xs
  end.

End Py.

Import Py.

(** ** The grounded task (pyperplan) *)

Module Pddl.

Record operator : Type := Operator {
  name : string;
  preconditions : list string;
  add_effects : list string;
  del_effects : list string
}.

Record task : Type := Task {
  initial_state : list string;
  goals : list string;
  facts : list string;
  operators : list operator
}.

End Pddl.

(** ** transition_system.py: FiniteTransitionSystem *)

Module FiniteTransitionSystem.

Definition is_digit (c : ascii) : bool :=
  let n := nat_of_ascii c in (48 <=? n) && (n <=? 57).

Fixpoint take_digits (s : string) : string :=
  match s with
  | EmptyString => EmptyString
  | String c r => if is_digit c then String c (take_digits r) else EmptyString
  end.

(** The character class [[l|L]] or [[b|B]]: the letter in either case,
    and the bar. *)
Definition loc_class (c : ascii) : bool :=
  bool_decide (c = "l"%char) || bool_decide (c = "|"%char) || bool_decide (c = "L"%char).
Definition box_class (c : ascii) : bool :=
  bool_decide (c = "b"%char) || bool_decide (c = "|"%char) || bool_decide (c = "B"%char).

(** [re.search(cls [\d]+, s)]: the leftmost match, digits taken greedily. *)
Fixpoint re_search (cls : ascii → bool) (s : string) : option string :=
  match s with
  | EmptyString => None
  | String c r =>
      match take_digits r with
      | EmptyString => re_search cls r
      | ds => if cls c then Some (String c ds) else re_search cls r
      end
  end.

(** [re.findall(cls [\d]+, s)]: a match never starts inside the digits
    of the one before, so every position is tried in turn. *)
Fixpoint re_findall (cls : ascii → bool) (s : string) : list string :=
  match s with
  | EmptyString => []
  | String c r =>
      match take_digits r with
      | EmptyString => re_findall cls r
      | ds => if cls c then String c ds :: re_findall cls r else re_findall cls r
      end
  end.

(** [re.search("\d+", s)] *)
Fixpoint re_search_digits (s : string) : option string :=
  match s with
  | EmptyString => None
  | String c r => if is_digit c then Some (String c (take_digits r)) else re_search_digits r
  end.

(** [int(s)] on a string of digits. *)
Definition int_of_digits (s : string) : nat :=
  fold_left (λ acc c, 10 * acc + (nat_of_ascii c - 48)) (list_ascii_of_string s) 0.

Definition _get_box_location (box_location_state_str : string) : result (nat * string) :=
  let _loc_state := default EmptyString (re_search loc_class box_location_state_str) in
  let _box_state := default EmptyString (re_search box_class box_location_state_str) in
  match re_search_digits _box_state with
  | None => raise AttributeError
  | Some ds => ret (int_of_digits ds, _loc_state)
  end.

Definition _get_multiple_box_location (multiple_box_location_str : string)
    : result (nat * list string) :=
  let _loc_states := re_findall loc_class multiple_box_location_str in
  match re_search box_class multiple_box_location_str with
  | None => raise UnboundLocalError
  | Some _box_state =>
      match re_search_digits _box_state with
      | None => raise AttributeError
      | Some ds => ret (int_of_digits ds, _loc_states)
      end
  end.

(** [l[-1]], [l[i] = x] and [l[-1] = x] on a Python list. *)
Definition list_last {A} (l : list A) : result A :=
  match last l with
  | Some x => ret x
  | None => raise IndexError
  end.

Definition list_setitem {A} (l : list A) (i : nat) (x : A) : result (list A) :=
  if bool_decide (i < length l) then ret (<[i := x]> l) else raise IndexError.

Definition list_set_last {A} (l : list A) (x : A) : result (list A) :=
  if bool_decide (0 < length l) then ret (<[length l - 1 := x]> l) else raise IndexError.

Definition _check_transit_action_validity (current_node_list_lbl : list string)
    (action : string) : result bool :=
  bl ←r _get_multiple_box_location action;
  cur ←r list_getitem current_node_list_lbl bl.1;
  dest ←r list_last bl.2;
  ret (bool_decide (cur = dest)).

Definition _check_grasp_action_validity (current_node_list_lbl : list string)
    (action : string) : result bool :=
  bl ←r _get_box_location action;
  cur ←r list_getitem current_node_list_lbl bl.1;
  if bool_decide (cur = bl.2) then
    g ←r list_last current_node_list_lbl;
    ret (bool_decide (g = "free"))
  else ret false.

Definition _check_transfer_action_validity (current_node_list_lbl : list string)
    (action : string) : result bool :=
  bl ←r _get_multiple_box_location action;
  cur ←r list_getitem current_node_list_lbl bl.1;
  if bool_decide (cur = "gripper") then
    g ←r list_last current_node_list_lbl;
    if bool_decide (g = "b" +:+ pretty bl.1) then
      dest ←r list_last bl.2;
      ret (negb (bool_decide (dest ∈ current_node_list_lbl)))
    else ret false
  else ret false.

Definition _check_release_action_validity (current_node_list_lbl : list string)
    (action : string) : result bool :=
  bl ←r _get_box_location action;
  cur ←r list_getitem current_node_list_lbl bl.1;
  ret (bool_decide (cur = "gripper")
       && negb (bool_decide (bl.2 ∈ take (length current_node_list_lbl - 1)
                                          current_node_list_lbl))).

(** The label of the successor in [_add_transition_to_transition_system],
    by the type of the action; a transit keeps the label. *)
Definition transfer_label (_curr_node_list_lbl : list string) (_edge_action : string)
    : result (list string) :=
  bl ←r _get_multiple_box_location _edge_action;
  dest ←r list_last bl.2;
  list_set_last _curr_node_list_lbl dest.

Definition grasp_label (_curr_node_list_lbl : list string) (_edge_action : string)
    : result (list string) :=
  bl ←r _get_box_location _edge_action;
  l ←r list_setitem _curr_node_list_lbl bl.1 "gripper";
  list_set_last l ("b" +:+ pretty bl.1).

Definition release_label (_curr_node_list_lbl : list string) (_edge_action : string)
    : result (list string) :=
  bl ←r _get_box_location _edge_action;
  l ←r list_setitem _curr_node_list_lbl bl.1 bl.2;
  list_set_last l "free".

End FiniteTransitionSystem.

(** ** The state encoder shared by the two classes *)

Module Encoder.

(** The literals of one bit pattern: variable [vars[_idx]] where the
    pattern has 1, its complement where it has 0. *)
Fixpoint val_list (vars : list nat) (_idx : nat) (_value : list bool) : result (list ADD) :=
  match _value with
  | [] => ret []
  | _ele :: rest =>
      v ←r list_getitem vars _idx;
      l ←r val_list vars (S _idx) rest;
      ret ((if _ele : bool then addVar v else dd_not (addVar v)) :: l)
  end.

(** [reduce(lambda a, b: a & b, _val_list)] *)
Definition cube (vars : list nat) (_value : list bool) : result ADD :=
  l ←r val_list vars 0 _value;
  reduce dd_and l.

(** The body of [_create_sym_var_map], for either key type. The maps
    of BDD patterns built alongside mirror the ADD ones and are not
    modelled. *)
Definition create_sym_var_map `{Countable K} (curr next : list nat) (states : list K)
    : result (gmap K ADD * gmap K ADD) :=
  let boolean_str := product_10 (length curr) in
  _node_int_map_curr ←r dict_of_enumerate boolean_str 0 states ∅;
  if negb (size _node_int_map_curr <=? length boolean_str) then raise AssertionError
  else
    c ←r map_mapM (cube curr) _node_int_map_curr;
    n ←r map_mapM (cube next) _node_int_map_curr;
    ret (c, n).

(** [action_idx_map[_action] = _idx for _idx, _action in enumerate(_actions)] *)
Fixpoint action_idx_map (_idx : nat) (_actions : list string) (acc : gmap string nat)
    : gmap string nat :=
  match _actions with
  | [] => acc
  | a :: r => action_idx_map (S _idx) r (<[a := _idx]> acc)
  end.

End Encoder.

(** ** symbolic_abstraction_add.py: SymbolicWeightedTransitionSystem *)

Module SymbolicWeightedTransitionSystem.
Import Pddl.

Record t : Type := Self {
  sym_add_vars_curr : list nat;
  sym_add_vars_next : list nat;
  manager_size : nat;
  task : Pddl.task;
  weight_dict : list (string * ADD);
  tr_action_idx_map : gmap string nat;
  sym_add_init_states : option ADD;
  sym_add_goal_states : option ADD;
  sym_tr_actions : list ADD;
  predicate_add_sym_map_curr : gmap string ADD;
  predicate_add_sym_map_nxt : gmap string ADD
}.

(** [a & b] and [a | b] where an operand may be [None] (a failed
    [dict.get]). *)
Definition opt_op (op : ADD → ADD → ADD) (a b : option ADD) : result (option ADD) :=
  match a, b with
  | Some x, Some y => ret (Some (op x y))
  | _, _ => raise TypeError
  end.

Definition reduce_opt (op : ADD → ADD → ADD) (l : list (option ADD)) : result (option ADD) :=
  match l with
  | [] => raise TypeError
  | x :: xs => foldM_r (opt_op op) x xs
  end.

Definition _create_sym_var_map (curr next : list nat) (facts : list string)
    : result (gmap string ADD * gmap string ADD) :=
  Encoder.create_sym_var_map curr next facts.

Definition _initialize_adds_for_actions (weight_dict : list (string * ADD))
    : gmap string nat * list ADD :=
  (Encoder.action_idx_map 0 (dict_keys weight_dict) ∅,
   replicate (length weight_dict) addZero).

Definition _initialize_sym_init_goal_states (curr_map : gmap string ADD) (tk : Pddl.task)
    : result (option ADD * option ADD) :=
  let _init_list := (λ s, curr_map !! s) <$> initial_state tk in
  let _goal_list := (λ s, curr_map !! s) <$> goals tk in
  i ←r reduce_opt dd_or _init_list;
  g ←r reduce_opt dd_or _goal_list;
  ret (i, g).

Definition __init__ (curr_states next_states : list nat) (tk : Pddl.task)
    (weight_dict : list (string * ADD)) (manager_size : nat) : result t :=
  maps ←r _create_sym_var_map curr_states next_states (facts tk);
  let acts := _initialize_adds_for_actions weight_dict in
  ig ←r _initialize_sym_init_goal_states maps.1 tk;
  ret {| sym_add_vars_curr := curr_states;
         sym_add_vars_next := next_states;
         manager_size := manager_size;
         task := tk;
         weight_dict := weight_dict;
         tr_action_idx_map := acts.1;
         sym_add_init_states := ig.1;
         sym_add_goal_states := ig.2;
         sym_tr_actions := acts.2;
         predicate_add_sym_map_curr := maps.1;
         predicate_add_sym_map_nxt := maps.2 |}.

Definition set_sym_tr_actions (self : t) (l : list ADD) : t :=
  {| sym_add_vars_curr := sym_add_vars_curr self;
     sym_add_vars_next := sym_add_vars_next self;
     manager_size := manager_size self;
     task := task self;
     weight_dict := weight_dict self;
     tr_action_idx_map := tr_action_idx_map self;
     sym_add_init_states := sym_add_init_states self;
     sym_add_goal_states := sym_add_goal_states self;
     sym_tr_actions := l;
     predicate_add_sym_map_curr := predicate_add_sym_map_curr self;
     predicate_add_sym_map_nxt := predicate_add_sym_map_nxt self |}.

Section Builder.

(** [ADD.negate()] of the binding; the source does not show what it
    computes, so the builder is modelled for any. *)
Variable negate : ADD → ADD.

(** [pre_sym], [add_sym]: the conjunction of the looked-up cubes, the
    one diagram for none. *)
Definition conj_sym (l : list (option ADD)) : result (option ADD) :=
  if negb (length l =? 0) then reduce_opt dd_and l else ret (Some bddOne).

(** [del_sym]: the conjunction of the looked-up cubes, the zero
    diagram for none. *)
Definition del_sym_of (l : list (option ADD)) : result (option ADD) :=
  if negb (length l =? 0) then reduce_opt dd_and l else ret (Some bddZero).

(** [if x.isZero(): x = x.negate()] *)
Definition negate_if_zero (size : nat) (x : option ADD) : result ADD :=
  match x with
  | None => raise AttributeError
  | Some d => ret (if isZero size d then negate d else d)
  end.

(** The right-hand side of the [|=] in [build_actions_tr_func_weighted]. *)
Definition disjoined (pre_sym add_sym del_sym w : ADD) : ADD :=
  dd_and (dd_and (dd_and pre_sym add_sym) (dd_not del_sym)) w.

Definition build_actions_tr_func_weighted (self : t) (curr_edge_action : operator)
    : result (t * string) :=
  let _actions := dict_keys (weight_dict self) in
  let pre_conds := preconditions curr_edge_action in
  let add_effects := add_effects curr_edge_action in
  let del_effects := del_effects curr_edge_action in
  let pre_list := (λ p, predicate_add_sym_map_curr self !! p) <$> pre_conds in
  let add_list := (λ p, predicate_add_sym_map_nxt self !! p) <$> add_effects in
  let del_list := (λ p, predicate_add_sym_map_nxt self !! p) <$> del_effects in
  pre_sym ←r conj_sym pre_list;
  add_sym ←r conj_sym add_list;
  del_sym ←r del_sym_of del_list;
  _action ←r split_first (name curr_edge_action);
  let _action := drop_first _action in
  if negb (bool_decide (_action ∈ _actions)) then raise AssertionError
  else
    pre_sym ←r negate_if_zero (manager_size self) pre_sym;
    add_sym ←r negate_if_zero (manager_size self) add_sym;
    match tr_action_idx_map self !! _action with
    | None => raise TypeError
    | Some _idx =>
        old ←r list_getitem (sym_tr_actions self) _idx;
        del_sym ←r (match del_sym with Some d => ret d | None => raise TypeError end);
        w ←r dict_get (weight_dict self) _action;
        ret (set_sym_tr_actions self
               (<[_idx := dd_or old (disjoined pre_sym add_sym del_sym w)]>
                  (sym_tr_actions self)),
             _action)
    end.

(** The [for] loop of [create_weighted_transition_system]; the weights
    are ADDs by their type. *)
Definition create_weighted_transition_system (self : t) : result t :=
  foldM_r (λ s a, r ←r build_actions_tr_func_weighted s a; ret r.1)
          self (operators (task self)).

End Builder.

End SymbolicWeightedTransitionSystem.

(** ** symbolic_abstraction_add.py: SymbolicWeightedFrankaTransitionSystem *)

Module SymbolicWeightedFrankaTransitionSystem.
Import Pddl.

(** During the incremental construction every diagram over the current
    variables is a disjunction of state cubes, and every relation a
    disjunction of pairs of state cubes carrying a terminal. They are
    modelled by what they contain: a set of states for the first, a
    finite map from the pairs to the non-zero terminal there for the
    second. The encoder makes cube and state determine each other, and
    gives a state the same bit pattern on the next variables as on the
    current ones, so that the cube [swapVariables] makes of the next
    cube of a state is the current cube of that state. The [verbose]
    and [plot] branches only print and are left out. *)

Record t : Type := Self {
  sym_add_vars_curr : list nat;
  sym_add_vars_next : list nat;
  manager_size : nat;
  ts_states : list State;
  pred_int_map : gmap string nat;
  task : Pddl.task;
  weight_dict : list (string * Z);
  tr_action_idx_map : gmap string nat;
  sym_add_init_states : option ADD;
  sym_add_goal_states : option ADD;
  sym_tr_actions : list (gmap (State * State) Z);
  predicate_add_sym_map_curr : gmap State ADD;
  predicate_add_sym_map_nxt : gmap State ADD
}.

Definition _initialize_adds_for_actions (weight_dict : list (string * Z))
    : gmap string nat * list (gmap (State * State) Z) :=
  (Encoder.action_idx_map 0 (dict_keys weight_dict) ∅,
   replicate (length weight_dict) ∅).

Definition _create_sym_var_map (curr next : list nat) (ts_states : list State)
    : result (gmap State ADD * gmap State ADD) :=
  Encoder.create_sym_var_map curr next ts_states.

Definition get_tuple_from_state (pim : gmap string nat) (preds : list string)
    : result State :=
  _int_tuple ←r mapM_r (getitem pim) preds;
  ret (sorted _int_tuple).

(** The branch taken for a tuple, the only kind of argument it is
    called with. *)
Definition get_state_from_tuple (pim : gmap string nat) (state_tuple : State)
    : result (list string) :=
  mapM_r (bidict_inv Nat.eqb pim) state_tuple.

Definition _initialize_sym_init_goal_states (pim : gmap string nat)
    (curr_map : gmap State ADD) (tk : Pddl.task) : result (option ADD * option ADD) :=
  init_tuple ←r get_tuple_from_state pim (initial_state tk);
  goal_tuple ←r get_tuple_from_state pim (goals tk);
  let init := curr_map !! init_tuple in
  match init with
  | None => raise AssertionError
  | Some _ => ret (init, None)
  end.

Definition __init__ (curr_states next_states : list nat) (tk : Pddl.task)
    (weight_dict : list (string * Z)) (ts_state_map : gmap string nat)
    (ts_states : list State) (manager_size : nat) : result t :=
  maps ←r _create_sym_var_map curr_states next_states ts_states;
  let acts := _initialize_adds_for_actions weight_dict in
  ig ←r _initialize_sym_init_goal_states ts_state_map maps.1 tk;
  ret {| sym_add_vars_curr := curr_states;
         sym_add_vars_next := next_states;
         manager_size := manager_size;
         ts_states := ts_states;
         pred_int_map := ts_state_map;
         task := tk;
         weight_dict := weight_dict;
         tr_action_idx_map := acts.1;
         sym_add_init_states := ig.1;
         sym_add_goal_states := ig.2;
         sym_tr_actions := acts.2;
         predicate_add_sym_map_curr := maps.1;
         predicate_add_sym_map_nxt := maps.2 |}.

(** Encoding and decoding of a state: the lookup in the map and in its
    inverse. *)
Definition encode (sym_map : gmap State ADD) (s : State) : result ADD :=
  getitem sym_map s.
Definition decode (size : nat) (sym_map : gmap State ADD) (c : ADD) : result State :=
  bidict_inv (dd_eqb size) sym_map c.

(** [box_id] and [dloc] as the two branches on the action name bind
    them. *)
Definition box_and_destination (action_name : string) : result (nat * string) :=
  if contains "transfer" action_name then
    bl ←r FiniteTransitionSystem._get_multiple_box_location action_name;
    dloc ←r list_getitem bl.2 1;
    ret (bl.1, dloc)
  else if contains "release" action_name then
    FiniteTransitionSystem._get_box_location action_name
  else raise UnboundLocalError.

(** [f'(on {bid} {dloc})'] *)
Definition on_pred (bid dloc : string) : string :=
  "(on " +:+ bid +:+ " " +:+ dloc +:+ ")".

Definition _check_exist_constraint (pim : gmap string nat) (boxes : list string)
    (curr_state_lbl : list nat) (action_name : string) : result bool :=
  bd ←r box_and_destination action_name;
  let box_id := bd.1 in
  let dloc := bd.2 in
  tmp_copy ←r list_remove ("b" +:+ pretty box_id) boxes;
  on_preds ←r mapM_r (λ bid, getitem pim (on_pred bid dloc)) tmp_copy;
  if existsb (λ p, bool_decide (p ∈ curr_state_lbl)) on_preds then ret false
  else ret true.

Definition is_world_pred (pred : string) : bool :=
  contains "on" pred || contains "gripper" pred.

Definition get_conds_from_state (pim : gmap string nat) (state_tuple : State)
    (only_world_conf only_robot_conf : bool) : result State :=
  preds ←r get_state_from_tuple pim state_tuple;
  _int_tuple ←r foldM_r (λ acc pred,
      if only_world_conf then
        if is_world_pred pred then i ←r getitem pim pred; ret (acc ++ [i])
        else ret acc
      else if only_robot_conf then
        if negb (is_world_pred pred) then i ←r getitem pim pred; ret (acc ++ [i])
        else ret acc
      else ret acc) [] preds;
  ret (sorted _int_tuple).

(** The value of a relation diagram on a pair of states. *)
Definition rel_val (r : gmap (State * State) Z) (p : State * State) : Z :=
  default 0%Z (r !! p).

(** [r | (cube(s) & cube'(s') & w)] *)
Definition rel_or_edge (r : gmap (State * State) Z) (s s' : State) (w : Z)
    : gmap (State * State) Z :=
  let v := Z.max (rel_val r (s, s')) w in
  if (v =? 0)%Z then delete (s, s') r else <[(s, s') := v]> r.

(** The parts of the object and the locals the construction updates;
    [expanded] logs the states taken by the [for state in sym_state]
    loop, in order. *)
Record loop_state (Lbl : Type) : Type := LoopState {
  open_list : gmap nat (gset State);
  closed : gset State;
  layer : nat;
  tr_actions : list (gmap (State * State) Z);
  sym_add_state_labels : list (State * Lbl);
  expanded : list State
}.
Arguments LoopState {Lbl}.
Arguments open_list {Lbl}.
Arguments closed {Lbl}.
Arguments layer {Lbl}.
Arguments tr_actions {Lbl}.
Arguments sym_add_state_labels {Lbl}.
Arguments expanded {Lbl}.

(** [open_list[l]] of the [defaultdict]. *)
Definition open_at {Lbl} (st : loop_state Lbl) (l : nat) : gset State :=
  default ∅ (open_list st !! l).

Section Construction.

(** The label diagrams depend on the names the binding prints for its
    variables; the construction is modelled for any outcome of the
    two label methods. *)
Variable Lbl : Type.
Variable _create_sym_state_label_map : result unit.
Variable get_sym_state_lbl_from_tuple : State → result Lbl.

(** [get_states_from_dd]: the states of a diagram, in the order the
    binding enumerates its cubes. *)
Variable get_states_from_dd : gset State → list State.

Variable self : t.
Variable boxes : list string.

Abbreviation pim := (pred_int_map self).
Abbreviation lstate := (loop_state Lbl).

Definition add_edge_to_action_tr (trs : list (gmap (State * State) Z))
    (action_name : string) (curr_state_tuple next_state_tuple : State)
    : result (list (gmap (State * State) Z)) :=
  _ ←r getitem (predicate_add_sym_map_curr self) curr_state_tuple;
  _ ←r getitem (predicate_add_sym_map_nxt self) next_state_tuple;
  match tr_action_idx_map self !! action_name with
  | None => raise TypeError
  | Some _idx =>
      old ←r list_getitem trs _idx;
      w ←r dict_get (weight_dict self) action_name;
      ret (<[_idx := rel_or_edge old curr_state_tuple next_state_tuple w]> trs)
  end.

(** [_valid_pre]: the world configuration of the state with the robot
    configuration the action requires. *)
Definition valid_pre (curr_state_tuple : State) (action : operator) : result State :=
  pre_tuple ←r get_tuple_from_state pim (preconditions action);
  _necc_robot_conf ←r get_conds_from_state pim pre_tuple false true;
  pre_robot_conf ←r get_conds_from_state pim curr_state_tuple false true;
  let pre_robot_conf :=
    filter (λ x, x ∈ _necc_robot_conf) (set_of pre_robot_conf) in
  pre_world_conf ←r get_conds_from_state pim curr_state_tuple true false;
  ret (sorted (pre_robot_conf ++ pre_world_conf)).

(** [next_tuple] *)
Definition next_tuple_of (_valid_pre : State) (action : operator) : result State :=
  add_tuple ←r get_tuple_from_state pim (add_effects action);
  del_tuple ←r get_tuple_from_state pim (del_effects action);
  let next_tuple := filter (λ x, x ∉ del_tuple) (set_of _valid_pre) in
  ret (sorted (set_of (next_tuple ++ add_tuple))).

(** The body of [for action in self.task.operators], on the
    construction state and the local [_valid_pre_list]. *)
Definition expand_action (add_exist_constr : bool) (curr_state_tuple : State)
    (acc : lstate * list State) (action : operator) : result (lstate * list State) :=
  let st := acc.1 in
  let _valid_pre_list := acc.2 in
  pre_tuple ←r get_tuple_from_state pim (preconditions action);
  _necc_robot_conf ←r get_conds_from_state pim pre_tuple false true;
  let _intersect := forallb (λ x, bool_decide (x ∈ curr_state_tuple)) pre_tuple in
  if negb _intersect then ret acc
  else
    _valid_pre ←r valid_pre curr_state_tuple action;
    explored ←r (if bool_decide (_valid_pre ≠ curr_state_tuple) then
                   _ ←r getitem (predicate_add_sym_map_curr self) _valid_pre;
                   ret (Some (bool_decide (_valid_pre ∈ closed st)))
                 else ret None);
    match explored with
    | Some true => ret acc
    | _ =>
        let _valid_pre_list :=
          match explored with
          | Some _ => _valid_pre_list ++ [_valid_pre]
          | None => _valid_pre_list
          end in
        action_feas ←r (if add_exist_constr &&
                             (contains "transfer" (name action) || contains "release" (name action))
                        then _check_exist_constraint pim boxes _valid_pre (name action)
                        else ret true);
        if negb action_feas then ret (st, _valid_pre_list)
        else
          next_tuple ←r next_tuple_of _valid_pre action;
          _ ←r getitem (predicate_add_sym_map_nxt self) next_tuple;
          trs ←r add_edge_to_action_tr (tr_actions st) (name action) _valid_pre next_tuple;
          next_tuple_lbl ←r get_conds_from_state pim next_tuple true false;
          next_lbl_sym ←r get_sym_state_lbl_from_tuple next_tuple_lbl;
          ret (LoopState
                 (<[S (layer st) := open_at st (S (layer st)) ∪ {[next_tuple]}]> (open_list st))
                 (closed st)
                 (layer st)
                 trs
                 (sym_add_state_labels st ++ [(next_tuple, next_lbl_sym)])
                 (expanded st),
               _valid_pre_list)
    end.

(** The loop over [_valid_pre_list] that follows the actions. *)
Definition close_valid_pre (st : lstate) (_val_pre : State) : result lstate :=
  _valid_pre_lbl ←r get_conds_from_state pim _val_pre true false;
  _valid_pre_lbl_sym ←r get_sym_state_lbl_from_tuple _valid_pre_lbl;
  ret (LoopState (open_list st) (closed st ∪ {[_val_pre]}) (layer st) (tr_actions st)
         (sym_add_state_labels st ++ [(_val_pre, _valid_pre_lbl_sym)])
         (expanded st)).

(** The body of [for state in sym_state]. *)
Definition expand_state (add_exist_constr : bool) (st : lstate) (state : State)
    : result lstate :=
  _ ←r getitem (predicate_add_sym_map_curr self) state;
  let st := LoopState (open_list st) (closed st) (layer st) (tr_actions st)
              (sym_add_state_labels st) (expanded st ++ [state]) in
  acc ←r foldM_r (expand_action add_exist_constr state) (st, []) (operators (task self));
  foldM_r close_valid_pre acc.1 acc.2.

(** One pass of the body of the [while]. *)
Definition layer_step (add_exist_constr : bool) (st : lstate) : result lstate :=
  let o := open_at st (layer st) ∖ closed st in
  let st := LoopState (<[layer st := o]> (open_list st)) (closed st) (layer st)
              (tr_actions st) (sym_add_state_labels st) (expanded st) in
  if bool_decide (o = ∅) then ret st
  else
    let st := LoopState (open_list st) (closed st ∪ o) (layer st)
                (tr_actions st) (sym_add_state_labels st) (expanded st) in
    st ←r foldM_r (expand_state add_exist_constr) st (get_states_from_dd o);
    ret (LoopState (open_list st) (closed st) (S (layer st))
           (tr_actions st) (sym_add_state_labels st) (expanded st)).

(** [while not open_list[layer].isZero()]; [None] when the passes
    allowed are used up before the loop ends. *)
Fixpoint while_loop (fuel : nat) (add_exist_constr : bool) (st : lstate)
    : option (result lstate) :=
  if bool_decide (open_at st (layer st) = ∅) then Some (ret st)
  else match fuel with
       | 0 => None
       | S fuel' =>
           match layer_step add_exist_constr st with
           | inl e => Some (inl e)
           | inr st' => while_loop fuel' add_exist_constr st'
           end
       end.

(** The state the loop starts from. *)
Definition initial_loop_state : result lstate :=
  _ ←r _create_sym_state_label_map;
  init_state_sym ←r (match sym_add_init_states self with
                     | Some c => ret c
                     | None => raise KeyError
                     end);
  init_tuple ←r decode (manager_size self) (predicate_add_sym_map_curr self) init_state_sym;
  state_lbl ←r get_conds_from_state pim init_tuple true false;
  init_lbl_sym ←r get_sym_state_lbl_from_tuple state_lbl;
  ret (LoopState {[0 := {[init_tuple]}]} ∅ 0 (sym_tr_actions self)
         [(init_tuple, init_lbl_sym)] []).

Definition create_weighted_transition_system_franka (fuel : nat) (add_exist_constr : bool)
    : option (result lstate) :=
  match initial_loop_state with
  | inl e => Some (inl e)
  | inr st =>
      let add_exist_constr :=
        if length boxes =? 1 then false else add_exist_constr in
      while_loop fuel add_exist_constr st
  end.

End Construction.

End SymbolicWeightedFrankaTransitionSystem.

(** ** frankaworld_main.py: FrankaWorld *)

Module FrankaWorld.

(** [math.ceil(math.log2(n))] for an integer [n]; [math.log2(0)] raises
    ValueError. The logarithm is taken exactly. *)
Definition ceil_log2 (n : nat) : result nat :=
  if n =? 0 then raise ValueError else ret (Nat.log2_up n).

(** The variables are returned as their indices in the manager. *)
Definition _create_symbolic_lbl_vars {A} (manager_size : nat) (state_lbls : list A)
    : result (list nat) :=
  num ←r ceil_log2 (length state_lbls);
  let num := if num =? 0 then num + 1 else num in
  ret ((λ num_var, num_var + manager_size) <$> seq 0 num).

(** [self.weight_dict]: the table from the generic action names to
    their weights, as given to the constructor. *)
Definition _create_weight_dict (weight_dict : list (string * Z)) (tk : Pddl.task)
    : result (list (string * Z)) :=
  foldM_r (λ new_weight_dict op,
      _generic_action ←r split_first (Pddl.name op);
      let _generic_action := drop_first _generic_action in
      weight ←r dict_get weight_dict _generic_action;
      ret (dict_set new_weight_dict (Pddl.name op) weight))
    [] (Pddl.operators tk).

(** [sorted(items, key=lambda item: item[1], reverse=True)]: by weight,
    largest first, equal weights in their former order. *)
Fixpoint insert_by_weight (x : string * Z) (l : list (string * Z)) : list (string * Z) :=
  match l with
  | [] => [x]
  | y :: r => if (y.2 <=? x.2)%Z then x :: l else y :: insert_by_weight x r
  end.

Definition sorted_by_weight (l : list (string * Z)) : list (string * Z) :=
  foldr insert_by_weight [] l.

(** An element of the lists of [robot_preds] and [on_preds]: one
    predicate, or a tuple of predicates. *)
Inductive combo : Type :=
| Pred (p : string)
| Preds (ps : list string).

(** The predicates the loop over an element looks up, by its
    [isinstance(pred, tuple)]. *)
Definition combo_preds (c : combo) : list string :=
  match c with
  | Pred p => [p]
  | Preds ps => ps
  end.

(** [compute_valid_franka_state_tuples] on the four lists the two
    dictionaries hold at "gfree", "gocc", "nb" and "b"; [list_prod] is
    [itertools.product] of two lists. *)
Definition compute_valid_franka_state_tuples (pred_int_map : gmap string nat)
    (gfree gocc nb b : list combo) : result (list State) :=
  let _valid_combos_free := list_prod gfree nb in
  let _valid_combos_occ := list_prod gocc b in
  let _valid_combos := _valid_combos_free ++ _valid_combos_occ in
  mapM_r (λ _exp_state : combo * combo,
            tmp1 ←r mapM_r (getitem pred_int_map) (combo_preds _exp_state.1);
            tmp2 ←r mapM_r (getitem pred_int_map) (combo_preds _exp_state.2);
            ret (sorted (tmp1 ++ tmp2)))
         _valid_combos.

(** [itertools.product] of the lists of [ls]: the last list varies
    fastest. *)
Fixpoint nproduct {A} (ls : list (list A)) : list (list A) :=
  match ls with
  | [] => [[]]
  | l :: r => x ← l; cons x <$> nproduct r
  end.

(** [itertools.combinations(l, r)] for [r >= 0], in its order. *)
Fixpoint combinations {A} (l : list A) (r : nat) : list (list A) :=
  match r with
  | 0 => [[]]
  | S r' =>
      match l with
      | [] => []
      | x :: t => (cons x <$> combinations t r') ++ combinations t r
      end
  end.

(** [_get_all_box_combos]: the lists at "nb" and "b" of the dictionary
    it returns. [combinations] raises ValueError for the negative size
    an empty [boxes_dict] gives. *)
Definition _get_all_box_combos (boxes_dict : list (string * list string))
    (gripper : list string) : result (list (list string) * list (list string)) :=
  let all_preds := boxes_dict.*2 ++ [gripper] in
  let all_combos := nproduct all_preds in
  let num_of_boxes := length boxes_dict in
  if (Z.of_nat num_of_boxes - 1 =? 1)%Z then ret (all_combos, [])
  else if num_of_boxes =? 0 then raise ValueError
  else
    b ←r foldM_r (λ acc combo,
                    box_loc_list ←r mapM_r (dict_get boxes_dict) combo;
                    ret (acc ++ nproduct box_loc_list))
                 [] (combinations (dict_keys boxes_dict) (num_of_boxes - 1));
    ret (all_combos, b).

(** What [create_symbolic_causal_graph] hands to the builder. *)
Record causal_graph : Type := CausalGraph {
  cg_task : Pddl.task;
  add_ts_curr_vars : list nat;
  add_ts_next_vars : list nat;
  ts_state_tuples : list State;
  cg_boxes : list string;
  cg_manager_size : nat
}.

Section Build.

Variable Lbl : Type.
Variable _create_sym_state_label_map : result unit.
Variable get_sym_state_lbl_from_tuple : State → result Lbl.
Variable get_states_from_dd : gset State → list State.

(** [build_weighted_add_abstraction], from the outcome of
    [create_symbolic_causal_graph] on; [None] when the construction
    loop is cut short. *)
Definition build_weighted_add_abstraction (weight_dict : list (string * Z))
    (pred_int_map : gmap string nat) (cg : causal_graph) (fuel : nat)
    : option (result (SymbolicWeightedFrankaTransitionSystem.t *
                      SymbolicWeightedFrankaTransitionSystem.loop_state Lbl)) :=
  match _create_weight_dict weight_dict (cg_task cg) with
  | inl e => Some (inl e)
  | inr new_weight_dict =>
      let weight_dict := sorted_by_weight new_weight_dict in
      match SymbolicWeightedFrankaTransitionSystem.__init__
              (add_ts_curr_vars cg) (add_ts_next_vars cg) (cg_task cg) weight_dict
              pred_int_map (ts_state_tuples cg) (cg_manager_size cg) with
      | inl e => Some (inl e)
      | inr sym_tr =>
          match SymbolicWeightedFrankaTransitionSystem.create_weighted_transition_system_franka
                  Lbl _create_sym_state_label_map get_sym_state_lbl_from_tuple
                  get_states_from_dd sym_tr (cg_boxes cg) fuel true with
          | None => None
          | Some (inl e) => Some (inl e)
          | Some (inr st) => Some (inr (sym_tr, st))
          end
      end
  end.

End Build.

End FrankaWorld.

(** ** What a cube denotes *)

Module CubeSem.

(** The assignment satisfies every literal of the pattern, read from
    position [idx] of the variables on. *)
Fixpoint lits_hold (vars : list nat) (idx : nat) (pat : list bool) (ρ : assignment) : bool :=
  match pat with
  | [] => true
  | b :: r =>
      match vars !! idx with
      | Some v => bool_decide (nth v ρ false = b)
      | None => false
      end && lits_hold vars (S idx) r ρ
  end.

(** The assignment of [size] variables that gives the variables of the
    pool the bits of the pattern and is false elsewhere. *)
Definition embed (vars : list nat) (pat : list bool) (size : nat) : assignment :=
  foldr (λ vb ρ, <[vb.1 := vb.2]> ρ) (replicate size false) (zip vars pat).

(** The conjunction and the disjunction of a list of diagrams. *)
Definition big_and (l : list ADD) : ADD :=
  match l with
  | [] => bddOne
  | x :: xs => fold_left dd_and xs x
  end.

Definition big_or (l : list ADD) : ADD :=
  match l with
  | [] => bddZero
  | x :: xs => fold_left dd_or xs x
  end.

End CubeSem.

(** ** The disjunct of the direct mode, in closed form *)

Module DirectSpec.
Import CubeSem.

(** [x.negate()] taken when [x.isZero()]. *)
Definition nz (negate : ADD → ADD) (size : nat) (d : ADD) : ADD :=
  if isZero size d then negate d else d.

(** [del_sym]: the conjunction of the cubes, the zero diagram for none. *)
Definition del_conj (l : list ADD) : ADD :=
  match l with
  | [] => bddZero
  | x :: xs => fold_left dd_and xs x
  end.

(** What the source computes from the cubes of the preconditions, of
    the add effects and of the delete effects. *)
Definition code_disjoined (negate : ADD → ADD) (size : nat)
    (pre add del : list ADD) (w : ADD) : ADD :=
  SymbolicWeightedTransitionSystem.disjoined
    (nz negate size (big_and pre)) (nz negate size (big_and add)) (del_conj del) w.




(** A task with four facts on two variables per pool and one operator
    with two delete effects. *)
Definition two_deletes : Pddl.operator :=
  Pddl.Operator "(move a b)" ["f0"] [] ["f1"; "f2"].

Definition four_facts : Pddl.task :=
  Pddl.Task ["f0"] ["f1"] ["f0"; "f1"; "f2"; "f3"] [two_deletes].

End DirectSpec.

(** ** What the incremental construction keeps *)

Module FrankaInv.
Import SymbolicWeightedFrankaTransitionSystem.

Section Inv.
Variable Lbl : Type.
Variable self : t.
Variable boxes : list string.
Variable flag : bool.

(** The states the two maps have cubes for. *)
Definition universe : gset State :=
  dom (predicate_add_sym_map_curr self) ∪ dom (predicate_add_sym_map_nxt self).

(** Every pair of a relation is a source with the successor one of
    the operators of that relation gives it. *)
Definition edges_ok (trs : list (gmap (State * State) Z)) : Prop :=
  ∀ i r x y, trs !! i = Some r → rel_val r (x, y) ≠ 0%Z →
    ∃ a, a ∈ Pddl.operators (task self)
         ∧ tr_action_idx_map self !! Pddl.name a = Some i
         ∧ next_tuple_of self x a = inr y.

Definition bounded (st : loop_state Lbl) : Prop :=
  closed st ⊆ universe
  ∧ ∀ l X, open_list st !! l = Some X → X ⊆ universe.

(** The relations only grow. *)
Definition rel_le (trs trs' : list (gmap (State * State) Z)) : Prop :=
  ∀ i r, trs !! i = Some r →
    ∃ r', trs' !! i = Some r' ∧ ∀ p, (rel_val r p ≤ rel_val r' p)%Z.

(** The action is applicable to the state as it stands and passes
    the mutual-exclusion check. *)
Definition accepted (s : State) (a : Pddl.operator) : Prop :=
  (∃ pre_tuple, get_tuple_from_state (pred_int_map self) (Pddl.preconditions a)
                = inr pre_tuple
                ∧ ∀ x, x ∈ pre_tuple → x ∈ s)
  ∧ valid_pre self s a = inr s
  ∧ ((flag && (contains "transfer" (Pddl.name a) || contains "release" (Pddl.name a)))
     = true →
     _check_exist_constraint (pred_int_map self) boxes s (Pddl.name a) = inr true).

(** The relation of the action has the edge from the state. *)
Definition edge_present (trs : list (gmap (State * State) Z)) (s : State)
    (a : Pddl.operator) : Prop :=
  ∃ nt i r w,
    next_tuple_of self s a = inr nt
    ∧ tr_action_idx_map self !! Pddl.name a = Some i
    ∧ dict_get (weight_dict self) (Pddl.name a) = inr w
    ∧ trs !! i = Some r
    ∧ (w ≤ rel_val r (s, nt))%Z.

Definition accepted_present (st : loop_state Lbl) : Prop :=
  ∀ s a, s ∈ expanded st → a ∈ Pddl.operators (task self) →
         accepted s a → edge_present (tr_actions st) s a.

Definition expanded_once (st : loop_state Lbl) : Prop :=
  NoDup (expanded st) ∧ ∀ s, s ∈ expanded st → s ∈ closed st.

End Inv.

End FrankaInv.

(** ** A small instance of the incremental construction *)

Module Demo.

(** One box, two locations: the predicates (ready l0), (on b0 l0) and
    (on b0 l1) are interned as 0, 1 and 2; the only operator moves the
    box and requires nothing of the robot. *)
Definition demo_pim : gmap string nat :=
  list_to_map [("(ready l0)", 0); ("(on b0 l0)", 1); ("(on b0 l1)", 2)].

Definition demo_op : Pddl.operator :=
  Pddl.Operator "(transit b0 l0 l1)" ["(on b0 l0)"] ["(on b0 l1)"] ["(on b0 l0)"].

Definition demo_task : Pddl.task :=
  Pddl.Task ["(ready l0)"; "(on b0 l0)"] ["(on b0 l1)"] [] [demo_op].

Definition demo_init : result SymbolicWeightedFrankaTransitionSystem.t :=
  SymbolicWeightedFrankaTransitionSystem.__init__ [0; 2] [1; 3] demo_task
    [("(transit b0 l0 l1)", 1%Z)] demo_pim [[0; 1]; [1]; [2]; [0; 2]] 4.

(** The construction with labels that are the world configuration
    itself and the states enumerated in the order of the set. *)
Definition demo_run (self : SymbolicWeightedFrankaTransitionSystem.t) (fuel : nat)
    : option (result (SymbolicWeightedFrankaTransitionSystem.loop_state State)) :=
  SymbolicWeightedFrankaTransitionSystem.create_weighted_transition_system_franka
    State (inr ()) (λ t, inr t) elements self ["b0"] fuel true.

End Demo.

(** The predicates [get_conds_from_state] keeps, by the two flags. *)
Definition kept_by (only_world_conf only_robot_conf : bool) (pred : string) : bool :=
  if only_world_conf then SymbolicWeightedFrankaTransitionSystem.is_world_pred pred
  else if only_robot_conf
       then negb (SymbolicWeightedFrankaTransitionSystem.is_world_pred pred)
       else false.

(** ** What a run of the construction keeps of labels and weights *)

Module FrankaRun.
Import SymbolicWeightedFrankaTransitionSystem.

Section Run.
Variable Lbl : Type.
Variable get_sym_state_lbl_from_tuple : State → result Lbl.
Variable self : t.

(** Every state closed or put in an open set has had a label
    disjoined for it. *)
Definition labelled (st : loop_state Lbl) : Prop :=
  (∀ s, s ∈ closed st → s ∈ (sym_add_state_labels st).*1)
  ∧ ∀ l X s, open_list st !! l = Some X → s ∈ X → s ∈ (sym_add_state_labels st).*1.

(** Every label disjoined is that of the world configuration of its
    state. *)
Definition labels_ok (st : loop_state Lbl) : Prop :=
  ∀ s lbl, (s, lbl) ∈ sym_add_state_labels st →
    ∃ t, get_conds_from_state (pred_int_map self) s true false = inr t
         ∧ get_sym_state_lbl_from_tuple t = inr lbl.

(** Every non-zero value of a relation is the weight of an action of
    that relation. *)
Definition weights_ok (trs : list (gmap (State * State) Z)) : Prop :=
  ∀ i r p, trs !! i = Some r → rel_val r p ≠ 0%Z →
    ∃ action_name,
      tr_action_idx_map self !! action_name = Some i
      ∧ dict_get (weight_dict self) action_name = inr (rel_val r p).

(** The states taken by the loop have a current cube. *)
Definition expanded_encoded (st : loop_state Lbl) : Prop :=
  ∀ s, s ∈ expanded st → is_Some (predicate_add_sym_map_curr self !! s).

End Run.

End FrankaRun.

(** ** What the patterns of the label parsers match *)

Module RegexSem.
Import FiniteTransitionSystem.

Fixpoint all_digits (s : string) : bool :=
  match s with
  | EmptyString => true
  | String c r => is_digit c && all_digits r
  end.

(** A match of a class followed by [[\d]+]: one character of the class
    and at least one digit, digits only. *)
Definition is_token (cls : ascii → bool) (s : string) : Prop :=
  ∃ c ds, s = String c ds ∧ cls c = true ∧ ds ≠ EmptyString ∧ all_digits ds = true.

End RegexSem.

(** * Properties *)

(** ** The error monad and the loops *)

Lemma bind_inr {A B} (m : result A) (k : A → result B) (b : B) :
  bind m k = inr b → ∃ a, m = inr a ∧ k a = inr b.
Proof. destruct m as [e|a]; simpl; [discriminate | eauto]. Qed.

Lemma bind_raised {A B} (m : result A) (k : A → result B) :
  raised m → raised (bind m k).
Proof. intros [e ->]. by exists e. Qed.

Lemma raised_inr {A} (a : A) : ¬ raised (inr a : result A).
Proof. intros [e He]. discriminate. Qed.

Lemma not_raised {A} (m : result A) : ¬ raised m → ∃ a, m = inr a.
Proof. destruct m as [e|a]; [intros []; by exists e | eauto]. Qed.

Ltac inv_bind H :=
  repeat match type of H with
  | bind _ _ = inr _ =>
      let x := fresh "x" in
      let Hx := fresh "Hx" in
      apply bind_inr in H as (x & Hx & H)
  end.

(** A [for] loop raises as soon as its body raises on one element
    whatever the state. *)
Lemma foldM_r_raised {S A} (body : S → A → result S) (l : list A) (x : A) (s : S) :
  x ∈ l → (∀ s', raised (body s' x)) → raised (foldM_r body s l).
Proof.
  intros Hx Hb. revert s. induction l as [|y l IH]; intros s.
  - by apply elem_of_nil in Hx.
  - simpl. apply elem_of_cons in Hx as [<-|Hx].
    + apply bind_raised, Hb.
    + destruct (body s y) as [e|s'] eqn:E; simpl; [by exists e | by apply IH].
Qed.

(** A [for] loop keeps what every pass of its body keeps. *)
Lemma foldM_r_inv {S A} (P : S → Prop) (body : S → A → result S) (l : list A) (s s' : S) :
  (∀ s1 x s2, x ∈ l → P s1 → body s1 x = inr s2 → P s2) →
  P s → foldM_r body s l = inr s' → P s'.
Proof.
  revert s. induction l as [|y l IH]; intros s Hb Hs H; simpl in H.
  - by injection H as <-.
  - inv_bind H. eapply IH; [ | | exact H].
    + intros s1 z s2 Hz. apply Hb. by right.
    + eapply Hb; [by left | exact Hs | exact Hx].
Qed.

Lemma mapM_r_inr {A B} (f : A → result B) (l : list A) (l' : list B) :
  mapM_r f l = inr l' ↔ Forall2 (λ a b, f a = inr b) l l'.
Proof.
  revert l'. induction l as [|a l IH]; intros l'; simpl.
  - split; [intros [= <-]; constructor | intros H%Forall2_nil_inv_l; by subst].
  - split.
    + intros H. inv_bind H. injection H as <-. constructor; [done | by apply IH].
    + intros H. apply Forall2_cons_inv_l in H as (b & k & Hb & Hk & ->).
      rewrite Hb. simpl. apply IH in Hk. rewrite Hk. done.
Qed.

Lemma mapM_r_total {A B} (f : A → result B) (l : list A) :
  Forall (λ a, ∃ b, f a = inr b) l → ∃ l', mapM_r f l = inr l'.
Proof.
  induction 1 as [|a l [b Hb] _ [l' IH]]; simpl; [by eexists |].
  rewrite Hb, IH. simpl. by eexists.
Qed.

(** ** C8: the width of a label pool *)

(** C8. For a non-empty candidate set of size n, [_create_symbolic_lbl_vars]
    returns max(1, ceil(log2 n)) variables: one when n = 1, and otherwise
    the least k with n <= 2^k. *)
Theorem lbl_vars_count {A} (manager_size : nat) (state_lbls : list A) :
  state_lbls ≠ [] →
  ∃ vars, FrankaWorld._create_symbolic_lbl_vars manager_size state_lbls = inr vars
    ∧ length vars = Nat.max 1 (Nat.log2_up (length state_lbls))
    ∧ (length state_lbls = 1 → length vars = 1)
    ∧ (2 ≤ length state_lbls →
         length vars = Nat.log2_up (length state_lbls)
         ∧ 2 ^ pred (length vars) < length state_lbls ≤ 2 ^ length vars).
Proof.
  intros Hne.
  assert (Hlen : length state_lbls ≠ 0) by (destruct state_lbls; simpl; [done | lia]).
  unfold FrankaWorld._create_symbolic_lbl_vars, FrankaWorld.ceil_log2.
  destruct (Nat.eqb_spec (length state_lbls) 0) as [|_]; [done |]. simpl.
  eexists. split; [reflexivity |].
  rewrite length_fmap, length_seq.
  set (n := length state_lbls) in *.
  destruct (decide (n = 1)) as [->|Hn1].
  - simpl. repeat split; lia.
  - assert (1 < n) as Hn by lia.
    pose proof (Nat.log2_up_spec n Hn) as Hspec.
    pose proof (Nat.log2_up_pos n Hn) as Hpos.
    destruct (Nat.eqb_spec (Nat.log2_up n) 0) as [E|_]; [lia |].
    repeat split; lia.
Qed.

Lemma lbl_vars_count_witness :
  ∃ vars, FrankaWorld._create_symbolic_lbl_vars 4 ["a"; "b"; "c"] = inr vars
    ∧ length vars = 2.
Proof.
  destruct (lbl_vars_count 4 ["a"; "b"; "c"]) as (vars & H & Hl & _); [done |].
  exists vars. split; [exact H | exact Hl].
Defined.

(** ** C7: more candidates than bit patterns *)

Lemma length_product_10 (n : nat) : length (product_10 n) = 2 ^ n.
Proof.
  induction n as [|n IH]; simpl; [done |].
  rewrite length_app, !length_fmap, IH. lia.
Qed.

Lemma dict_of_enumerate_overflow `{Countable K} {V} (bs : list V) (idx : nat)
    (states : list K) (acc : gmap K V) :
  idx ≤ length bs →
  length bs < idx + length states →
  dict_of_enumerate bs idx states acc = inl IndexError.
Proof.
  revert idx acc. induction states as [|s states IH]; intros idx acc Hle Hlt; simpl in *.
  - lia.
  - unfold list_getitem. destruct (bs !! idx) as [v|] eqn:E; simpl; [| done].
    apply lookup_lt_Some in E. apply IH; lia.
Qed.

Lemma create_sym_var_map_overflow `{Countable K} (curr next : list nat) (states : list K) :
  2 ^ length curr < length states →
  Encoder.create_sym_var_map curr next states = inl IndexError.
Proof.
  intros Hlt. unfold Encoder.create_sym_var_map.
  rewrite dict_of_enumerate_overflow; [done | lia |].
  rewrite length_product_10. lia.
Qed.

(** C7. When the candidate states outnumber the 2^n bit patterns of the n
    allocated variables, [_create_sym_var_map] raises (the lookup
    [boolean_str[index]] fails), so does the constructor, and
    [build_weighted_add_abstraction] ends with an exception for whatever
    length of the construction loop: no transition system is returned. *)
Theorem width_overflow_aborts (curr next : list nat) (ts_states : list State) :
  2 ^ length curr < length ts_states →
  SymbolicWeightedFrankaTransitionSystem._create_sym_var_map curr next ts_states
    = inl IndexError
  ∧ (∀ tk wd pim size,
       SymbolicWeightedFrankaTransitionSystem.__init__ curr next tk wd pim ts_states size
       = inl IndexError)
  ∧ (∀ Lbl mk_lbl get_lbl get_states wd pim tk boxes size fuel,
       ∃ e, FrankaWorld.build_weighted_add_abstraction Lbl mk_lbl get_lbl get_states wd pim
              (FrankaWorld.CausalGraph tk curr next ts_states boxes size) fuel
            = Some (inl e)).
Proof.
  intros Hlt.
  assert (Hmap : SymbolicWeightedFrankaTransitionSystem._create_sym_var_map curr next ts_states
                 = inl IndexError)
    by by apply create_sym_var_map_overflow.
  split; [exact Hmap |].
  assert (Hinit : ∀ tk wd pim size,
             SymbolicWeightedFrankaTransitionSystem.__init__ curr next tk wd pim ts_states size
             = inl IndexError).
  { intros. unfold SymbolicWeightedFrankaTransitionSystem.__init__. by rewrite Hmap. }
  split; [exact Hinit |].
  intros. unfold FrankaWorld.build_weighted_add_abstraction. simpl.
  destruct (FrankaWorld._create_weight_dict wd tk) as [e|nwd]; [by exists e |].
  rewrite Hinit. by exists IndexError.
Qed.

Lemma width_overflow_aborts_witness :
  SymbolicWeightedFrankaTransitionSystem._create_sym_var_map [0] [1] [[0]; [1]; [0; 1]]
    = inl IndexError.
Proof.
  apply (width_overflow_aborts [0] [1] [[0]; [1]; [0; 1]]). simpl. lia.
Defined.

(** ** C6: an action without a weight *)

Lemma dict_get_missing {V} (d : list (string * V)) (k : string) :
  k ∉ dict_keys d → dict_get d k = inl KeyError.
Proof.
  unfold dict_get, dict_keys. intros Hk.
  destruct (List.find _ d) as [kv|] eqn:E; [| done].
  apply find_some in E as [Hin Hb]. apply bool_decide_eq_true in Hb.
  exfalso. apply Hk. apply list_elem_of_fmap. exists kv. split; [done |].
  by apply list_elem_of_In.
Qed.

Lemma create_weight_dict_missing (wd : list (string * Z)) (tk : Pddl.task)
    (op : Pddl.operator) (g : string) :
  op ∈ Pddl.operators tk →
  split_first (Pddl.name op) = inr g →
  drop_first g ∉ dict_keys wd →
  raised (FrankaWorld._create_weight_dict wd tk).
Proof.
  intros Hop Hg Hk. unfold FrankaWorld._create_weight_dict.
  eapply foldM_r_raised; [exact Hop |].
  intros s'. rewrite Hg. simpl. rewrite dict_get_missing by done. by exists KeyError.
Qed.

(** C6. If the name of a grounded operator has no entry in the weight
    table, [_create_weight_dict] raises and [build_weighted_add_abstraction]
    ends with that exception before the transition system is constructed,
    whatever the length of the construction loop; in the direct mode
    [build_actions_tr_func_weighted] raises on such an operator and so
    does [create_weighted_transition_system]. *)
Theorem missing_weight_aborts (wd : list (string * Z)) (tk : Pddl.task)
    (op : Pddl.operator) (g : string) :
  op ∈ Pddl.operators tk →
  split_first (Pddl.name op) = inr g →
  drop_first g ∉ dict_keys wd →
  raised (FrankaWorld._create_weight_dict wd tk)
  ∧ (∀ Lbl mk_lbl get_lbl get_states pim curr next ts_states boxes size fuel,
       ∃ e, FrankaWorld._create_weight_dict wd tk = inl e
          ∧ FrankaWorld.build_weighted_add_abstraction Lbl mk_lbl get_lbl get_states wd pim
              (FrankaWorld.CausalGraph tk curr next ts_states boxes size) fuel
            = Some (inl e))
  ∧ (∀ negate self,
       drop_first g ∉ dict_keys (SymbolicWeightedTransitionSystem.weight_dict self) →
       raised (SymbolicWeightedTransitionSystem.build_actions_tr_func_weighted negate self op)
       ∧ (op ∈ Pddl.operators (SymbolicWeightedTransitionSystem.task self) →
          raised (SymbolicWeightedTransitionSystem.create_weighted_transition_system
                    negate self))).
Proof.
  intros Hop Hg Hk.
  pose proof (create_weight_dict_missing wd tk op g Hop Hg Hk) as [e He].
  split; [by exists e |]. split.
  - intros. exists e. split; [exact He |].
    unfold FrankaWorld.build_weighted_add_abstraction. simpl. by rewrite He.
  - intros negate self Hk'.
    assert (Hb : ∀ s, SymbolicWeightedTransitionSystem.weight_dict s
                      = SymbolicWeightedTransitionSystem.weight_dict self →
                 raised (SymbolicWeightedTransitionSystem.build_actions_tr_func_weighted
                           negate s op)).
    { intros s Hs. unfold SymbolicWeightedTransitionSystem.build_actions_tr_func_weighted.
      destruct (SymbolicWeightedTransitionSystem.conj_sym _) as [e1|p]; [by exists e1 |]. simpl.
      destruct (SymbolicWeightedTransitionSystem.conj_sym _) as [e2|a]; [by exists e2 |]. simpl.
      destruct (SymbolicWeightedTransitionSystem.del_sym_of _) as [e3|d]; [by exists e3 |]. simpl.
      rewrite Hg. simpl. rewrite Hs.
      rewrite bool_decide_eq_false_2 by done. simpl. by exists AssertionError. }
    split; [by apply Hb |].
    intros Hop'.
    unfold SymbolicWeightedTransitionSystem.create_weighted_transition_system.
    assert (Hgen : ∀ l s, SymbolicWeightedTransitionSystem.weight_dict s
                      = SymbolicWeightedTransitionSystem.weight_dict self →
                 op ∈ l →
                 raised (foldM_r (λ s a,
                    r ←r SymbolicWeightedTransitionSystem.build_actions_tr_func_weighted
                           negate s a; ret r.1) s l)).
    { induction l as [|y l IH]; intros s Hs Hin; [by apply elem_of_nil in Hin |].
      simpl. apply elem_of_cons in Hin as [<-|Hin].
      - apply bind_raised, bind_raised, Hb, Hs.
      - destruct (SymbolicWeightedTransitionSystem.build_actions_tr_func_weighted negate s y)
          as [e1|[s1 nm]] eqn:E; simpl; [by exists e1 |].
        apply IH; [| done]. rewrite <- Hs.
        unfold SymbolicWeightedTransitionSystem.build_actions_tr_func_weighted in E.
        repeat match type of E with
        | bind ?m _ = inr _ => destruct m; simpl in E; [discriminate |]
        | (if ?b then _ else _) = inr _ => destruct b; simpl in E; [discriminate |]
        | match ?m with _ => _ end = inr _ => destruct m; simpl in E; try discriminate
        end.
        by injection E as <- _. }
    by apply Hgen.
Qed.

Lemma missing_weight_aborts_witness :
  raised (FrankaWorld._create_weight_dict [("transit", 1%Z)]
            (Pddl.Task [] [] [] [Pddl.Operator "(grasp b0 l0)" [] [] []])).
Proof.
  apply (missing_weight_aborts [("transit", 1%Z)]
           (Pddl.Task [] [] [] [Pddl.Operator "(grasp b0 l0)" [] [] []])
           (Pddl.Operator "(grasp b0 l0)" [] [] []) "(grasp").
  - simpl. apply list_elem_of_here.
  - reflexivity.
  - simpl. intros H. apply list_elem_of_singleton in H. discriminate.
Defined.

(** ** C5: the mutual-exclusion check *)




Example box_and_destination_transfer :
  SymbolicWeightedFrankaTransitionSystem.box_and_destination "(transfer b0 l0 l2)"
    = inr (0, "l2").
Proof. reflexivity. Qed.

Example box_and_destination_release :
  SymbolicWeightedFrankaTransitionSystem.box_and_destination "(release b1 l2)"
    = inr (1, "l2").
Proof. reflexivity. Qed.


(** ** C4: the encoder *)

Import CubeSem.

Lemma elem_of_product_10 (n : nat) (p : list bool) : p ∈ product_10 n ↔ length p = n.
Proof.
  revert p. induction n as [|n IH]; intros p; simpl.
  - rewrite list_elem_of_singleton. destruct p; simpl; split; (done || lia).
  - rewrite elem_of_app, !list_elem_of_fmap. split.
    + intros [(t & -> & Ht)|(t & -> & Ht)]; apply IH in Ht; simpl; lia.
    + destruct p as [|[|] t]; simpl; [lia | |]; intros Hl.
      * left. exists t. split; [done |]. apply IH. lia.
      * right. exists t. split; [done |]. apply IH. lia.
Qed.

Lemma NoDup_product_10 (n : nat) : NoDup (product_10 n).
Proof.
  induction n as [|n IH]; simpl; [apply NoDup_singleton |].
  apply NoDup_app. split; [| split].
  - apply NoDup_fmap_2; [by intros ?? [= ->] | done].
  - intros p Hp Hq. apply list_elem_of_fmap in Hp as (t & -> & _).
    apply list_elem_of_fmap in Hq as (t' & [=] & _).
  - apply NoDup_fmap_2; [by intros ?? [= ->] | done].
Qed.

Lemma dd_eqb_true (size : nat) (a b : ADD) : dd_eqb size a b = true ↔ dd_eq size a b.
Proof.
  unfold dd_eqb, dd_eq, assignments. rewrite forallb_forall. split.
  - intros H ρ Hρ. apply Z.eqb_eq, H, list_elem_of_In, elem_of_product_10, Hρ.
  - intros H ρ Hρ. apply Z.eqb_eq, H, elem_of_product_10, list_elem_of_In, Hρ.
Qed.

Lemma isZero_true (size : nat) (a : ADD) :
  isZero size a = true ↔ ∀ ρ, length ρ = size → a ρ = 0%Z.
Proof.
  unfold isZero, assignments. rewrite forallb_forall. split.
  - intros H ρ Hρ. apply Z.eqb_eq, H, list_elem_of_In, elem_of_product_10, Hρ.
  - intros H ρ Hρ. apply Z.eqb_eq, H, elem_of_product_10, list_elem_of_In, Hρ.
Qed.

Lemma dict_of_enumerate_lookup `{Countable K} {V} (bs : list V) (states : list K) :
  ∀ idx acc m k v,
    dict_of_enumerate bs idx states acc = inr m →
    m !! k = Some v →
    acc !! k = Some v ∨ ∃ i, states !! i = Some k ∧ bs !! (idx + i) = Some v.
Proof.
  induction states as [|s states IH]; intros idx acc m k v Hm Hk; simpl in Hm.
  - injection Hm as <-. by left.
  - inv_bind Hm. unfold list_getitem in Hx.
    destruct (bs !! idx) as [v0|] eqn:E; [| discriminate]. injection Hx as <-.
    destruct (IH _ _ _ _ _ Hm Hk) as [Ha|(i & Hi & Hb)].
    + rewrite lookup_insert in Ha. case_decide as Hd.
      * injection Ha as <-. subst k. right. exists 0. simpl.
        split; [done |]. by rewrite Nat.add_0_r.
      * by left.
    + right. exists (S i). split; [done |]. by rewrite Nat.add_succ_r.
Qed.

Lemma dict_of_enumerate_dom `{Countable K} {V} (bs : list V) (states : list K) :
  ∀ idx acc m k,
    dict_of_enumerate bs idx states acc = inr m →
    is_Some (m !! k) ↔ is_Some (acc !! k) ∨ k ∈ states.
Proof.
  induction states as [|s states IH]; intros idx acc m k Hm; simpl in Hm.
  - injection Hm as <-. rewrite elem_of_nil. tauto.
  - inv_bind Hm. rewrite (IH _ _ _ k Hm), elem_of_cons, lookup_insert.
    case_decide as Hd.
    + subst. split; [intros _; right; by left | intros _; left; by eexists].
    + split; [intros [?|?]; [by left | right; by right]
             | intros [?|[->|?]]; [by left | done | by right]].
Qed.

Lemma map_mapM_lookup `{Countable K} {A B} (f : A → result B) (m : gmap K A)
    (m' : gmap K B) :
  map_mapM f m = inr m' →
  (∀ k b, m' !! k = Some b ↔ ∃ a, m !! k = Some a ∧ f a = inr b)
  ∧ (∀ k a, m !! k = Some a → ∃ b, f a = inr b).
Proof.
  unfold map_mapM. intros Hm. inv_bind Hm. injection Hm as <-.
  apply mapM_r_inr in Hx.
  split; [| intros k a Ha; apply elem_of_map_to_list in Ha;
            apply list_elem_of_lookup in Ha as [i Hi];
            destruct (Forall2_lookup_l _ _ _ _ _ Hx Hi) as (kb & _ & Hg);
            simpl in Hg; inv_bind Hg; eauto].
  assert (Hfst : x.*1 = (map_to_list m).*1).
  { clear -Hx. induction Hx as [|kv kb l l' Hg _ IH]; [done |].
    rewrite !fmap_cons. inv_bind Hg. injection Hg as <-. simpl. by rewrite IH. }
  assert (Hnd : NoDup (x.*1)) by (rewrite Hfst; apply NoDup_fst_map_to_list).
  intros k b. rewrite <- (elem_of_list_to_map _ _ _ Hnd). split.
  - intros Hin. apply list_elem_of_lookup in Hin as [i Hi].
    destruct (Forall2_lookup_r _ _ _ _ _ Hx Hi) as ([k' a] & Hka & Hg).
    simpl in Hg. inv_bind Hg. injection Hg as -> ->.
    exists a. split; [| done].
    apply elem_of_map_to_list. by eapply list_elem_of_lookup_2.
  - intros (a & Ha & Hf). apply elem_of_map_to_list in Ha.
    apply list_elem_of_lookup in Ha as [i Hi].
    destruct (Forall2_lookup_l _ _ _ _ _ Hx Hi) as (kb & Hkb & Hg).
    simpl in Hg. rewrite Hf in Hg. simpl in Hg. injection Hg as <-.
    by eapply list_elem_of_lookup_2.
Qed.

Lemma lits_hold_spec (vars : list nat) (pat : list bool) (ρ : assignment) :
  ∀ idx, lits_hold vars idx pat ρ = true ↔
         ∀ k b, pat !! k = Some b → ∃ v, vars !! (idx + k) = Some v ∧ nth v ρ false = b.
Proof.
  induction pat as [|b0 pat IH]; intros idx; simpl.
  - split; [intros _ k b Hk; by rewrite lookup_nil in Hk | done].
  - rewrite andb_true_iff, IH. split.
    + intros [H0 Hr] [|k] b Hk; simpl in Hk.
      * injection Hk as <-. rewrite Nat.add_0_r.
        destruct (vars !! idx) as [v|]; [| done].
        apply bool_decide_eq_true in H0. eauto.
      * rewrite Nat.add_succ_r. by apply Hr.
    + intros Hall. split.
      * destruct (Hall 0 b0 eq_refl) as (v & Hv & Hn). rewrite Nat.add_0_r in Hv.
        rewrite Hv. by apply bool_decide_eq_true.
      * intros k b Hk. specialize (Hall (S k) b Hk). by rewrite Nat.add_succ_r in Hall.
Qed.

Lemma literal_sem (b : bool) (v : nat) (ρ : assignment) :
  (if b then addVar v else dd_not (addVar v)) ρ
  = if bool_decide (nth v ρ false = b) then 1%Z else 0%Z.
Proof. destruct b; unfold dd_not, addVar; by destruct (nth v ρ false). Qed.

Lemma val_list_sem (vars : list nat) (pat : list bool) :
  ∀ idx l, Encoder.val_list vars idx pat = inr l →
    ∀ acc ρ, fold_left dd_and l acc ρ
             = (acc ρ * (if lits_hold vars idx pat ρ then 1 else 0))%Z.
Proof.
  induction pat as [|b pat IH]; intros idx l Hl acc ρ; simpl in Hl.
  - injection Hl as <-. simpl. lia.
  - inv_bind Hl. injection Hl as <-. unfold list_getitem in Hx.
    destruct (vars !! idx) as [v|] eqn:E; [| discriminate]. injection Hx as <-.
    simpl. rewrite E, (IH _ _ Hx0). unfold dd_and at 1. rewrite literal_sem.
    destruct (bool_decide _), (lits_hold vars (S idx) pat ρ); simpl; lia.
Qed.

Lemma cube_sem (vars : list nat) (pat : list bool) (d : ADD) :
  Encoder.cube vars pat = inr d →
  ∀ ρ, d ρ = if lits_hold vars 0 pat ρ then 1%Z else 0%Z.
Proof.
  unfold Encoder.cube. intros Hc ρ. inv_bind Hc.
  destruct pat as [|b pat]; simpl in Hx.
  - injection Hx as <-. discriminate.
  - inv_bind Hx. injection Hx as <-. simpl in Hc. injection Hc as <-.
    unfold list_getitem in Hx0.
    destruct (vars !! 0) as [v|] eqn:E; [| discriminate]. injection Hx0 as <-.
    rewrite (val_list_sem _ _ _ _ Hx1). simpl. rewrite E, literal_sem.
    destruct (bool_decide _), (lits_hold vars 1 pat ρ); simpl; lia.
Qed.

Lemma embed_length (vars : list nat) (pat : list bool) (size : nat) :
  length (embed vars pat size) = size.
Proof.
  unfold embed. induction (zip vars pat) as [|vb l IH]; simpl.
  - apply length_replicate.
  - by rewrite length_insert.
Qed.

Lemma embed_nth (size : nat) (vars : list nat) :
  NoDup vars →
  ∀ pat i v b, vars !! i = Some v → pat !! i = Some b → v < size →
               nth v (embed vars pat size) false = b.
Proof.
  induction vars as [|v0 vs IH]; intros Hnd pat i v b Hv Hb Hlt.
  - by rewrite lookup_nil in Hv.
  - destruct pat as [|b0 ps]; [by rewrite lookup_nil in Hb |].
    apply NoDup_cons in Hnd as [Hv0 Hnd].
    change (embed (v0 :: vs) (b0 :: ps) size) with (<[v0 := b0]> (embed vs ps size)).
    rewrite nth_lookup. destruct i as [|i]; simpl in Hv, Hb.
    + injection Hv as ->. injection Hb as ->.
      rewrite list_lookup_insert_eq; [done | by rewrite embed_length].
    + assert (v ≠ v0) by (intros ->; apply Hv0; by eapply list_elem_of_lookup_2).
      rewrite list_lookup_insert_ne by done. rewrite <- nth_lookup. by eapply IH.
Qed.

(** Two patterns whose cubes are the same diagram are the same pattern. *)
Lemma cube_inj (size : nat) (vars : list nat) (p q : list bool) (d1 d2 : ADD) :
  NoDup vars → Forall (λ v, v < size) vars →
  length p = length vars → length q = length vars →
  Encoder.cube vars p = inr d1 → Encoder.cube vars q = inr d2 →
  dd_eqb size d1 d2 = true → p = q.
Proof.
  intros Hnd Hlt Hp Hq H1 H2 Heq.
  apply dd_eqb_true in Heq.
  specialize (Heq (embed vars p size) (embed_length _ _ _)).
  rewrite (cube_sem _ _ _ H1), (cube_sem _ _ _ H2) in Heq.
  assert (Hvar : ∀ k b, p !! k = Some b →
            ∃ v, vars !! (0 + k) = Some v ∧ nth v (embed vars p size) false = b).
  { intros k b Hk. assert (k < length vars) as Hkl by (rewrite <- Hp; by eapply lookup_lt_Some).
    apply lookup_lt_is_Some in Hkl as [v Hv]. exists v. split; [done |].
    eapply embed_nth; eauto. rewrite Forall_forall in Hlt.
    by eapply Hlt, list_elem_of_lookup_2. }
  apply lits_hold_spec in Hvar as Hholds. rewrite Hholds in Heq.
  destruct (lits_hold vars 0 q (embed vars p size)) eqn:Eq; [| discriminate].
  rewrite lits_hold_spec in Eq.
  apply list_eq_same_length with (length vars); [done | done |].
  intros k b b' Hk Hb Hb'.
  destruct (Hvar _ _ Hb) as (v & Hv & Hn). destruct (Eq _ _ Hb') as (v' & Hv' & Hn').
  congruence.
Qed.

(** C4. [_create_sym_var_map] gives every candidate state a bit pattern
    of its own, the same on the current and on the next variables; the
    map to current-state cubes and its inverse undo each other:
    decode(encode(s)) = s for every candidate s and encode(decode(c)) = c
    for every cube c of the map. The current variables are distinct
    variables of the manager. *)
Theorem encoder_bijection (curr next : list nat) (ts_states : list State) (size : nat)
    (c n : gmap State ADD) :
  NoDup curr →
  Forall (λ v, v < size) curr →
  SymbolicWeightedFrankaTransitionSystem._create_sym_var_map curr next ts_states
    = inr (c, n) →
  ∃ pat : gmap State (list bool),
    (∀ s, s ∈ ts_states ↔ is_Some (pat !! s))
    ∧ (∀ s1 s2 p, pat !! s1 = Some p → pat !! s2 = Some p → s1 = s2)
    ∧ (∀ s p, pat !! s = Some p →
         length p = length curr
         ∧ ∃ dc dn, c !! s = Some dc ∧ n !! s = Some dn
                    ∧ Encoder.cube curr p = inr dc ∧ Encoder.cube next p = inr dn)
    ∧ (∀ s, s ∈ ts_states →
         ∃ d, SymbolicWeightedFrankaTransitionSystem.encode c s = inr d
              ∧ SymbolicWeightedFrankaTransitionSystem.decode size c d = inr s)
    ∧ (∀ s d, c !! s = Some d →
         ∃ s', SymbolicWeightedFrankaTransitionSystem.decode size c d = inr s'
               ∧ SymbolicWeightedFrankaTransitionSystem.encode c s' = inr d).
Proof.
  intros Hnd Hlt Hmap.
  unfold SymbolicWeightedFrankaTransitionSystem._create_sym_var_map,
    Encoder.create_sym_var_map in Hmap.
  apply bind_inr in Hmap as (pat & Hpat & Hmap).
  destruct (negb _) in Hmap; [discriminate |].
  apply bind_inr in Hmap as (c' & Hc & Hmap). apply bind_inr in Hmap as (n' & Hn & Hmap).
  injection Hmap as -> ->.
  apply map_mapM_lookup in Hc as [Hc Hctot], Hn as [Hn Hntot].
  assert (Hdom : ∀ s, s ∈ ts_states ↔ is_Some (pat !! s)).
  { intros s. rewrite (dict_of_enumerate_dom _ _ _ _ _ s Hpat), lookup_empty.
    split; [by right | intros [[? [=]]|?]; done]. }
  assert (Hinj : ∀ s1 s2 p, pat !! s1 = Some p → pat !! s2 = Some p → s1 = s2).
  { intros s1 s2 p H1 H2.
    destruct (dict_of_enumerate_lookup _ _ _ _ _ _ _ Hpat H1) as [Ha|(i & Hi & Hb)];
      [by rewrite lookup_empty in Ha |].
    destruct (dict_of_enumerate_lookup _ _ _ _ _ _ _ Hpat H2) as [Ha|(j & Hj & Hb')];
      [by rewrite lookup_empty in Ha |].
    simpl in Hb, Hb'.
    assert (i = j) by (eapply NoDup_lookup; [apply NoDup_product_10 | done | done]).
    congruence. }
  assert (Hlen : ∀ s p, pat !! s = Some p → length p = length curr).
  { intros s p H1.
    destruct (dict_of_enumerate_lookup _ _ _ _ _ _ _ Hpat H1) as [Ha|(i & Hi & Hb)];
      [by rewrite lookup_empty in Ha |].
    by apply list_elem_of_lookup_2, elem_of_product_10 in Hb. }
  assert (Hdec : ∀ s d, c !! s = Some d →
            SymbolicWeightedFrankaTransitionSystem.decode size c d = inr s).
  { intros s d Hs.
    unfold SymbolicWeightedFrankaTransitionSystem.decode, bidict_inv.
    destruct (List.find _ (map_to_list c)) as [[s' d']|] eqn:E.
    - apply find_some in E as [Hin Heq]. simpl in Heq.
      apply list_elem_of_In, elem_of_map_to_list in Hin.
      apply Hc in Hs as (p & Hp & Hcp). apply Hc in Hin as (p' & Hp' & Hcp').
      assert (p' = p) as ->
        by (eapply (cube_inj size curr); eauto).
      f_equal. by eapply Hinj.
    - exfalso. eapply find_none with (x := (s, d)) in E.
      + simpl in E. assert (dd_eqb size d d = true) by by apply dd_eqb_true.
        congruence.
      + by apply list_elem_of_In, elem_of_map_to_list. }
  exists pat. split; [done |]. split; [done |]. split; [| split].
  - intros s p Hp. split; [by eapply Hlen |].
    destruct (Hctot _ _ Hp) as [dc Hdc]. destruct (Hntot _ _ Hp) as [dn Hdn].
    exists dc, dn. split; [apply Hc; eauto |]. split; [apply Hn; eauto | done].
  - intros s Hs. apply Hdom in Hs as [p Hp].
    destruct (Hctot _ _ Hp) as [dc Hdc].
    assert (c !! s = Some dc) as Hcs by (apply Hc; eauto).
    exists dc. split; [| by apply Hdec].
    unfold SymbolicWeightedFrankaTransitionSystem.encode, getitem. by rewrite Hcs.
  - intros s d Hs. exists s. split; [by apply Hdec |].
    unfold SymbolicWeightedFrankaTransitionSystem.encode, getitem. by rewrite Hs.
Qed.

Lemma encoder_bijection_witness :
  ∃ c n d,
    SymbolicWeightedFrankaTransitionSystem._create_sym_var_map
      [0; 2] [1; 3] [[0]; [1]; [0; 1]] = inr (c, n)
    ∧ SymbolicWeightedFrankaTransitionSystem.encode c [1] = inr d
    ∧ SymbolicWeightedFrankaTransitionSystem.decode 4 c d = inr [1].
Proof.
  destruct (SymbolicWeightedFrankaTransitionSystem._create_sym_var_map
              [0; 2] [1; 3] [[0]; [1]; [0; 1]]) as [e|[c n]] eqn:E.
  - vm_compute in E. discriminate.
  - destruct (encoder_bijection [0; 2] [1; 3] [[0]; [1]; [0; 1]] 4 c n)
      as (pat & _ & _ & _ & Hrt & _).
    + apply NoDup_cons. split; [| apply NoDup_singleton].
      intros H. apply list_elem_of_singleton in H. discriminate.
    + apply Forall_cons. split; [lia |]. apply Forall_cons. split; [lia |].
      apply Forall_nil. exact I.
    + exact E.
    + destruct (Hrt [1]) as (d & He & Hd).
      * apply list_elem_of_further, list_elem_of_here.
      * exists c, n, d. split; [reflexivity |]. split; [exact He | exact Hd].
Defined.

(** ** C10: the initial and goal diagrams *)

Lemma create_sym_var_map_inv `{Countable K} (curr next : list nat) (states : list K)
    (c n : gmap K ADD) :
  Encoder.create_sym_var_map curr next states = inr (c, n) →
  ∃ pat : gmap K (list bool),
    (∀ k, k ∈ states ↔ is_Some (pat !! k))
    ∧ (∀ k b, c !! k = Some b ↔ ∃ a, pat !! k = Some a ∧ Encoder.cube curr a = inr b)
    ∧ (∀ k a, pat !! k = Some a → ∃ b, Encoder.cube curr a = inr b)
    ∧ (∀ k b, n !! k = Some b ↔ ∃ a, pat !! k = Some a ∧ Encoder.cube next a = inr b)
    ∧ (∀ k a, pat !! k = Some a → ∃ b, Encoder.cube next a = inr b).
Proof.
  unfold Encoder.create_sym_var_map. intros Hmap.
  apply bind_inr in Hmap as (pat & Hpat & Hmap).
  destruct (negb _) in Hmap; [discriminate |].
  apply bind_inr in Hmap as (c' & Hc & Hmap). apply bind_inr in Hmap as (n' & Hn & Hmap).
  injection Hmap as -> ->.
  apply map_mapM_lookup in Hc as [Hc Hctot], Hn as [Hn Hntot].
  exists pat. split; [| done].
  intros s. rewrite (dict_of_enumerate_dom _ _ _ _ _ s Hpat), lookup_empty.
  split; [by right | intros [[? [=]]|?]; done].
Qed.

Lemma create_sym_var_map_dom `{Countable K} (curr next : list nat) (states : list K)
    (c n : gmap K ADD) (k : K) :
  Encoder.create_sym_var_map curr next states = inr (c, n) →
  k ∈ states → is_Some (c !! k) ∧ is_Some (n !! k).
Proof.
  intros Hmap Hk.
  destruct (create_sym_var_map_inv _ _ _ _ _ Hmap) as (pat & Hdom & Hc & Hct & Hn & Hnt).
  destruct (proj1 (Hdom k) Hk) as [a Ha].
  destruct (Hct _ _ Ha) as [b Hb]. destruct (Hnt _ _ Ha) as [b' Hb'].
  split; [exists b; apply Hc; eauto | exists b'; apply Hn; eauto].
Qed.

Lemma reduce_opt_Some (op : ADD → ADD → ADD) (x : ADD) (xs : list ADD) :
  SymbolicWeightedTransitionSystem.reduce_opt op (Some <$> (x :: xs))
  = inr (Some (fold_left op xs x)).
Proof.
  simpl. revert x. induction xs as [|y xs IH]; intros x; simpl; [done |]. apply IH.
Qed.

Lemma lookups_all_Some (m : gmap string ADD) (l : list string) :
  Forall (λ g, is_Some (m !! g)) l →
  ∃ cubes, (λ s, m !! s) <$> l = Some <$> cubes
           ∧ Forall2 (λ g c, m !! g = Some c) l cubes.
Proof.
  induction 1 as [|g gs [d Hd] _ (cubes & IH1 & IH2)].
  - exists []. split; [done | constructor].
  - exists (d :: cubes). split; [rewrite !fmap_cons; by rewrite Hd, IH1 | by constructor].
Qed.

(** C10. When the constructor of the Franka class returns,
    [sym_add_init_states] is the diagram the current-state map holds for
    the sorted tuple of the initial predicates' ids, a cube over the
    current variables and not None, and [sym_add_goal_states] is None;
    the constructor of the base class leaves in [sym_add_goal_states] the
    disjunction of the cubes of the goal predicates. *)
Theorem franka_init_goal_states (curr next : list nat) (tk : Pddl.task)
    (wd : list (string * Z)) (pim : gmap string nat) (ts_states : list State)
    (size : nat) (self : SymbolicWeightedFrankaTransitionSystem.t) :
  SymbolicWeightedFrankaTransitionSystem.__init__ curr next tk wd pim ts_states size
    = inr self →
  (∃ ids d p,
      mapM_r (getitem pim) (Pddl.initial_state tk) = inr ids
      ∧ SymbolicWeightedFrankaTransitionSystem.sym_add_init_states self = Some d
      ∧ SymbolicWeightedFrankaTransitionSystem.encode
          (SymbolicWeightedFrankaTransitionSystem.predicate_add_sym_map_curr self)
          (sorted ids) = inr d
      ∧ Encoder.cube curr p = inr d)
  ∧ SymbolicWeightedFrankaTransitionSystem.sym_add_goal_states self = None
  ∧ (∀ wd' self',
       SymbolicWeightedTransitionSystem.__init__ curr next tk wd' size = inr self' →
       Forall (λ g, g ∈ Pddl.facts tk) (Pddl.goals tk) →
       ∃ cubes,
         Forall2 (λ g c,
                    SymbolicWeightedTransitionSystem.predicate_add_sym_map_curr self' !! g
                    = Some c) (Pddl.goals tk) cubes
         ∧ cubes ≠ []
         ∧ SymbolicWeightedTransitionSystem.sym_add_goal_states self' = Some (big_or cubes)).
Proof.
  intros Hinit.
  unfold SymbolicWeightedFrankaTransitionSystem.__init__ in Hinit.
  apply bind_inr in Hinit as ([c n] & Hmap & Hinit).
  apply bind_inr in Hinit as ([i g] & Hig & Hinit).
  injection Hinit as <-. simpl.
  unfold SymbolicWeightedFrankaTransitionSystem._initialize_sym_init_goal_states in Hig.
  apply bind_inr in Hig as (init_tuple & Hit & Hig).
  apply bind_inr in Hig as (goal_tuple & Hgt & Hig).
  simpl in Hig. destruct (c !! init_tuple) as [d|] eqn:Ed; [| discriminate].
  injection Hig as <- <-.
  unfold SymbolicWeightedFrankaTransitionSystem.get_tuple_from_state in Hit.
  apply bind_inr in Hit as (ids & Hids & Hit). injection Hit as <-.
  split; [| split; [done |]].
  - destruct (create_sym_var_map_inv _ _ _ _ _ Hmap) as (pat & _ & Hc & _).
    apply Hc in Ed as Hp. destruct Hp as (p & _ & Hp).
    exists ids, d, p. split; [done |]. split; [done |]. split; [| done].
    unfold SymbolicWeightedFrankaTransitionSystem.encode, getitem. by rewrite Ed.
  - intros wd' self' Hinit' Hgoals.
    unfold SymbolicWeightedTransitionSystem.__init__ in Hinit'.
    apply bind_inr in Hinit' as ([c' n'] & Hmap' & Hinit').
    apply bind_inr in Hinit' as ([i' g'] & Hig' & Hinit').
    injection Hinit' as <-. simpl.
    unfold SymbolicWeightedTransitionSystem._initialize_sym_init_goal_states in Hig'.
    apply bind_inr in Hig' as (i0 & _ & Hig'). apply bind_inr in Hig' as (g0 & Hg0 & Hig').
    injection Hig' as <- <-. simpl in Hg0.
    assert (Hall : ∃ cubes, (λ s, c' !! s) <$> Pddl.goals tk = Some <$> cubes
                           ∧ Forall2 (λ g c, c' !! g = Some c) (Pddl.goals tk) cubes).
    { apply lookups_all_Some. eapply Forall_impl; [exact Hgoals |].
      intros g Hg. by destruct (create_sym_var_map_dom _ _ _ _ _ g Hmap' Hg). }
    destruct Hall as (cubes & Heq & HF2). rewrite Heq in Hg0.
    destruct cubes as [|x xs]; [discriminate |].
    rewrite reduce_opt_Some in Hg0. injection Hg0 as <-.
    exists (x :: xs). split; [done |]. split; done.
Qed.

Lemma franka_init_goal_states_witness :
  ∃ self,
    SymbolicWeightedFrankaTransitionSystem.__init__ [0; 2] [1; 3]
      (Pddl.Task ["p0"] ["p1"] ["p0"; "p1"] []) []
      (list_to_map [("p0", 0); ("p1", 1)]) [[0]; [1]; [0; 1]] 4 = inr self
    ∧ SymbolicWeightedFrankaTransitionSystem.sym_add_goal_states self = None.
Proof.
  destruct (SymbolicWeightedFrankaTransitionSystem.__init__ [0; 2] [1; 3]
      (Pddl.Task ["p0"] ["p1"] ["p0"; "p1"] []) []
      (list_to_map [("p0", 0); ("p1", 1)]) [[0]; [1]; [0; 1]] 4) as [e|self] eqn:E.
  - vm_compute in E. discriminate.
  - exists self. split; [reflexivity |].
    exact (proj1 (proj2 (franka_init_goal_states _ _ _ _ _ _ _ _ E))).
Defined.

(** ** C1 and C9: the disjunct of the direct mode *)

Import DirectSpec.

Lemma reduce_opt_inv (op : ADD → ADD → ADD) (l : list (option ADD)) (d : ADD) :
  SymbolicWeightedTransitionSystem.reduce_opt op l = inr (Some d) →
  ∃ x xs, l = Some <$> (x :: xs) ∧ d = fold_left op xs x.
Proof.
  destruct l as [|o os]; simpl; [discriminate |].
  revert o. induction os as [|y r IH]; intros o H; simpl in H.
  - injection H as ->. by exists d, [].
  - apply bind_inr in H as (acc & Hop & H).
    destruct o as [a|], y as [b|]; simpl in Hop; try discriminate.
    injection Hop as <-.
    destruct (IH _ H) as (x' & xs' & Heq & ->).
    cbn in Heq. injection Heq as <- ->.
    by exists a, (b :: xs').
Qed.

Lemma fmap_lookup_Forall2 (m : gmap string ADD) (ps : list string) (cubes : list ADD) :
  (λ p, m !! p) <$> ps = Some <$> cubes → Forall2 (λ p c, m !! p = Some c) ps cubes.
Proof.
  revert cubes. induction ps as [|p ps IH]; intros [|c cubes] H;
    rewrite ?fmap_cons, ?fmap_nil in H; try discriminate; [constructor |].
  injection H as Hp H. constructor; [done | by apply IH].
Qed.

Lemma conj_sym_inv (m : gmap string ADD) (ps : list string) (d : ADD) :
  SymbolicWeightedTransitionSystem.conj_sym ((λ p, m !! p) <$> ps) = inr (Some d) →
  ∃ cubes, Forall2 (λ p c, m !! p = Some c) ps cubes ∧ d = big_and cubes.
Proof.
  unfold SymbolicWeightedTransitionSystem.conj_sym. rewrite length_fmap.
  destruct ps as [|p ps].
  - simpl. intros [= <-]. exists []. split; [constructor | done].
  - intros H.
    change (SymbolicWeightedTransitionSystem.reduce_opt dd_and
              ((λ p, m !! p) <$> (p :: ps)) = inr (Some d)) in H.
    apply reduce_opt_inv in H as (x & xs & Heq & ->).
    exists (x :: xs). split; [by apply fmap_lookup_Forall2 | done].
Qed.

Lemma del_sym_of_inv (m : gmap string ADD) (ps : list string) (d : ADD) :
  SymbolicWeightedTransitionSystem.del_sym_of ((λ p, m !! p) <$> ps) = inr (Some d) →
  ∃ cubes, Forall2 (λ p c, m !! p = Some c) ps cubes ∧ d = del_conj cubes.
Proof.
  unfold SymbolicWeightedTransitionSystem.del_sym_of. rewrite length_fmap.
  destruct ps as [|p ps].
  - simpl. intros [= <-]. exists []. split; [constructor | done].
  - intros H.
    change (SymbolicWeightedTransitionSystem.reduce_opt dd_and
              ((λ p, m !! p) <$> (p :: ps)) = inr (Some d)) in H.
    apply reduce_opt_inv in H as (x & xs & Heq & ->).
    exists (x :: xs). split; [by apply fmap_lookup_Forall2 | done].
Qed.

(** What a call of [build_actions_tr_func_weighted] that returns has done. *)
Lemma build_actions_inv (negate : ADD → ADD) (self self' : SymbolicWeightedTransitionSystem.t)
    (op : Pddl.operator) (a : string) :
  SymbolicWeightedTransitionSystem.build_actions_tr_func_weighted negate self op
    = inr (self', a) →
  ∃ pre add del idx old w,
    Forall2 (λ p c, SymbolicWeightedTransitionSystem.predicate_add_sym_map_curr self !! p
                    = Some c) (Pddl.preconditions op) pre
    ∧ Forall2 (λ p c, SymbolicWeightedTransitionSystem.predicate_add_sym_map_nxt self !! p
                      = Some c) (Pddl.add_effects op) add
    ∧ Forall2 (λ p c, SymbolicWeightedTransitionSystem.predicate_add_sym_map_nxt self !! p
                      = Some c) (Pddl.del_effects op) del
    ∧ SymbolicWeightedTransitionSystem.tr_action_idx_map self !! a = Some idx
    ∧ SymbolicWeightedTransitionSystem.sym_tr_actions self !! idx = Some old
    ∧ dict_get (SymbolicWeightedTransitionSystem.weight_dict self) a = inr w
    ∧ self' = SymbolicWeightedTransitionSystem.set_sym_tr_actions self
                (<[idx := dd_or old
                     (code_disjoined negate
                        (SymbolicWeightedTransitionSystem.manager_size self) pre add del w)]>
                   (SymbolicWeightedTransitionSystem.sym_tr_actions self)).
Proof.
  unfold SymbolicWeightedTransitionSystem.build_actions_tr_func_weighted. intros H.
  apply bind_inr in H as (pre_sym & Hpre & H).
  apply bind_inr in H as (add_sym & Hadd & H).
  apply bind_inr in H as (del_sym & Hdel & H).
  apply bind_inr in H as (nm & Hnm & H).
  destruct (negb _) in H; [discriminate |].
  apply bind_inr in H as (pre' & Hpre' & H).
  apply bind_inr in H as (add' & Hadd' & H).
  destruct (SymbolicWeightedTransitionSystem.tr_action_idx_map self !! drop_first nm)
    as [idx|] eqn:Eidx; [| discriminate].
  apply bind_inr in H as (old & Hold & H).
  apply bind_inr in H as (del' & Hdel' & H).
  apply bind_inr in H as (w & Hw & H).
  injection H as <- <-.
  destruct pre_sym as [pre_d|]; [| discriminate]. injection Hpre' as <-.
  destruct add_sym as [add_d|]; [| discriminate]. injection Hadd' as <-.
  destruct del_sym as [del_d|]; [| discriminate]. injection Hdel' as <-.
  apply conj_sym_inv in Hpre as (pre & Hpre & ->).
  apply conj_sym_inv in Hadd as (add & Hadd & ->).
  apply del_sym_of_inv in Hdel as (del & Hdel & ->).
  unfold list_getitem in Hold.
  destruct (SymbolicWeightedTransitionSystem.sym_tr_actions self !! idx) as [old'|] eqn:Eold;
    [| discriminate].
  injection Hold as ->.
  exists pre, add, del, idx, old, w. done.
Qed.

Lemma isZero_bddOne (size : nat) : isZero size bddOne = false.
Proof.
  unfold isZero, assignments.
  assert (∃ p ps, product_10 size = p :: ps) as (p & ps & ->); [| done].
  induction size as [|n (p & ps & IH)]; simpl; [by eexists _, _ |].
  rewrite IH. simpl. by eexists _, _.
Qed.




(** C9. In [build_actions_tr_func_weighted] an empty precondition set and
    an empty add-effect set each contribute the one diagram, and an empty
    delete-effect set contributes the negation of the zero diagram, the
    one diagram again; the one diagram is not zero; and with the three
    sets empty the disjoined conjunct is the weight itself. *)
Theorem empty_sets_contribute_one (negate : ADD → ADD)
    (self self' : SymbolicWeightedTransitionSystem.t) (op : Pddl.operator) (a : string) :
  SymbolicWeightedTransitionSystem.build_actions_tr_func_weighted negate self op
    = inr (self', a) →
  let size := SymbolicWeightedTransitionSystem.manager_size self in
  ∃ pre_sym add_sym not_del_sym w idx old,
    SymbolicWeightedTransitionSystem.tr_action_idx_map self !! a = Some idx
    ∧ SymbolicWeightedTransitionSystem.sym_tr_actions self !! idx = Some old
    ∧ dict_get (SymbolicWeightedTransitionSystem.weight_dict self) a = inr w
    ∧ SymbolicWeightedTransitionSystem.sym_tr_actions self'
      = <[idx := dd_or old (dd_and (dd_and (dd_and pre_sym add_sym) not_del_sym) w)]>
          (SymbolicWeightedTransitionSystem.sym_tr_actions self)
    ∧ (Pddl.preconditions op = [] → pre_sym = bddOne)
    ∧ (Pddl.add_effects op = [] → add_sym = bddOne)
    ∧ (Pddl.del_effects op = [] → not_del_sym = bddOne)
    ∧ isZero size bddOne = false
    ∧ (Pddl.preconditions op = [] → Pddl.add_effects op = [] → Pddl.del_effects op = [] →
       ∀ ρ, dd_and (dd_and (dd_and pre_sym add_sym) not_del_sym) w ρ = w ρ).
Proof.
  intros H size. apply build_actions_inv in H
    as (pre & add & del & idx & old & w & Hpre & Hadd & Hdel & Hidx & Hold & Hw & ->).
  fold size.
  exists (nz negate size (big_and pre)), (nz negate size (big_and add)),
    (dd_not (del_conj del)), w, idx, old.
  repeat (split; [done |]).
  assert (Hp : Pddl.preconditions op = [] → nz negate size (big_and pre) = bddOne).
  { intros E. rewrite E in Hpre. apply Forall2_nil_inv_l in Hpre as ->.
    unfold nz. simpl. by rewrite isZero_bddOne. }
  assert (Ha : Pddl.add_effects op = [] → nz negate size (big_and add) = bddOne).
  { intros E. rewrite E in Hadd. apply Forall2_nil_inv_l in Hadd as ->.
    unfold nz. simpl. by rewrite isZero_bddOne. }
  assert (Hd : Pddl.del_effects op = [] → dd_not (del_conj del) = bddOne).
  { intros E. rewrite E in Hdel. by apply Forall2_nil_inv_l in Hdel as ->. }
  split; [done |]. split; [done |]. split; [done |]. split; [apply isZero_bddOne |].
  intros E1 E2 E3 ρ. rewrite (Hp E1), (Ha E2), (Hd E3). unfold dd_and, bddOne. lia.
Qed.

Lemma empty_sets_contribute_one_witness :
  ∃ self self' a,
    SymbolicWeightedTransitionSystem.__init__ [0; 2] [1; 3] four_facts
      [("move", addConst 2)] 4 = inr self
    ∧ SymbolicWeightedTransitionSystem.build_actions_tr_func_weighted
        (λ d, d) self (Pddl.Operator "(move a b)" [] [] []) = inr (self', a)
    ∧ ∃ idx old D,
        SymbolicWeightedTransitionSystem.sym_tr_actions self'
        = <[idx := dd_or old D]> (SymbolicWeightedTransitionSystem.sym_tr_actions self)
        ∧ ∀ ρ, D ρ = 2%Z.
Proof.
  destruct (SymbolicWeightedTransitionSystem.__init__ [0; 2] [1; 3] four_facts
              [("move", addConst 2)] 4) as [e|self] eqn:E;
    [vm_compute in E; discriminate |].
  destruct (SymbolicWeightedTransitionSystem.build_actions_tr_func_weighted
              (λ d, d) self (Pddl.Operator "(move a b)" [] [] [])) as [e|[self' a]] eqn:B.
  - exfalso. revert B. vm_compute in E. injection E as <-. vm_compute. discriminate.
  - destruct (empty_sets_contribute_one _ _ _ _ _ B)
      as (P & A & Dn & w & idx & old & _ & _ & Hw & Hnew & _ & _ & _ & _ & Hall).
    exists self, self', a. split; [reflexivity |]. split; [exact B |].
    exists idx, old. eexists. split; [exact Hnew |].
    intros ρ. rewrite (Hall eq_refl eq_refl eq_refl ρ).
    assert (w = addConst 2) as ->; [| reflexivity].
    revert Hw. clear -E B. revert B. vm_compute in E. injection E as <-.
    vm_compute. intros [= <- <-]. vm_compute. by intros [= <-].
Defined.

(** ** C2 and C3: the incremental construction *)

Lemma rel_val_or_edge (r : gmap (State * State) Z) (s s' : State) (w : Z)
    (p : State * State) :
  SymbolicWeightedFrankaTransitionSystem.rel_val
    (SymbolicWeightedFrankaTransitionSystem.rel_or_edge r s s' w) p
  = if decide (p = (s, s'))
    then Z.max (SymbolicWeightedFrankaTransitionSystem.rel_val r (s, s')) w
    else SymbolicWeightedFrankaTransitionSystem.rel_val r p.
Proof.
  unfold SymbolicWeightedFrankaTransitionSystem.rel_or_edge.
  destruct (Z.eqb_spec (Z.max (SymbolicWeightedFrankaTransitionSystem.rel_val r (s, s')) w) 0)
    as [Hv|Hv]; case_decide as Hp; subst.
  - rewrite Hv. unfold SymbolicWeightedFrankaTransitionSystem.rel_val.
    by rewrite lookup_delete_eq.
  - unfold SymbolicWeightedFrankaTransitionSystem.rel_val. by rewrite lookup_delete_ne.
  - unfold SymbolicWeightedFrankaTransitionSystem.rel_val at 1. by rewrite lookup_insert_eq.
  - unfold SymbolicWeightedFrankaTransitionSystem.rel_val. by rewrite lookup_insert_ne.
Qed.

Section FrankaConstruction.
Import SymbolicWeightedFrankaTransitionSystem FrankaInv.

Variable Lbl : Type.
Variable mk_lbl : result unit.
Variable get_lbl : State → result Lbl.
Variable get_states : gset State → list State.
Variable self : t.
Variable boxes : list string.

Abbreviation pim := (pred_int_map self).
Abbreviation lstate := (loop_state Lbl).
Abbreviation is_move name :=
  (contains "transfer" name || contains "release" name).

Lemma add_edge_to_action_tr_inv trs action_name v nt trs' :
  add_edge_to_action_tr self trs action_name v nt = inr trs' →
  ∃ idx old w,
    tr_action_idx_map self !! action_name = Some idx
    ∧ trs !! idx = Some old
    ∧ dict_get (weight_dict self) action_name = inr w
    ∧ is_Some (predicate_add_sym_map_curr self !! v)
    ∧ is_Some (predicate_add_sym_map_nxt self !! nt)
    ∧ trs' = <[idx := rel_or_edge old v nt w]> trs.
Proof.
  unfold add_edge_to_action_tr, getitem, list_getitem. intros H.
  destruct (predicate_add_sym_map_curr self !! v) as [c|]; [| discriminate].
  destruct (predicate_add_sym_map_nxt self !! nt) as [c'|]; [| discriminate].
  simpl in H.
  destruct (tr_action_idx_map self !! action_name) as [idx|]; [| discriminate].
  destruct (trs !! idx) as [old|] eqn:Eold; [| discriminate]. simpl in H.
  destruct (dict_get (weight_dict self) action_name) as [|w]; [discriminate |].
  simpl in H. injection H as <-. exists idx, old, w.
  repeat (split; [done || by eexists |]). done.
Qed.

(** The four ways the body of the loop over the actions returns. *)
Lemma expand_action_inv flag curr st l op st' l' :
  expand_action Lbl get_lbl self boxes flag curr (st, l) op = inr (st', l') →
  ∃ pre_tuple,
    get_tuple_from_state pim (Pddl.preconditions op) = inr pre_tuple
    ∧ ((forallb (λ x, bool_decide (x ∈ curr)) pre_tuple = false ∧ st' = st ∧ l' = l)
       ∨ (forallb (λ x, bool_decide (x ∈ curr)) pre_tuple = true
          ∧ ∃ v, valid_pre self curr op = inr v
            ∧ ((v ≠ curr ∧ v ∈ closed st ∧ st' = st ∧ l' = l)
               ∨ (((v = curr ∧ l' = l)
                   ∨ (v ≠ curr ∧ (v ∉ closed st)
                      ∧ is_Some (predicate_add_sym_map_curr self !! v) ∧ l' = l ++ [v]))
                  ∧ (((flag && is_move (Pddl.name op)) = true
                      ∧ _check_exist_constraint pim boxes v (Pddl.name op) = inr false
                      ∧ st' = st)
                     ∨ (((flag && is_move (Pddl.name op)) = true →
                         _check_exist_constraint pim boxes v (Pddl.name op) = inr true)
                        ∧ ∃ nt trs lbl,
                            next_tuple_of self v op = inr nt
                            ∧ add_edge_to_action_tr self (tr_actions st) (Pddl.name op) v nt
                              = inr trs
                            ∧ st' = LoopState
                                      (<[S (layer st) := open_at st (S (layer st)) ∪ {[nt]}]>
                                         (open_list st))
                                      (closed st) (layer st) trs
                                      (sym_add_state_labels st ++ [(nt, lbl)])
                                      (expanded st))))))).
Proof.
  unfold expand_action. intros H.
  apply bind_inr in H as (pre_tuple & Hpre & H).
  apply bind_inr in H as (necc & Hnecc & H).
  exists pre_tuple. split; [done |]. simpl in H.
  destruct (forallb _ pre_tuple) eqn:Esub; simpl in H;
    [| injection H as <- <-; by left].
  right. split; [done |].
  apply bind_inr in H as (v & Hv & H). exists v. split; [done |].
  apply bind_inr in H as (explored & Hexp & H).
  assert (Hex : (explored = None ∧ v = curr)
                ∨ (∃ b, explored = Some b ∧ v ≠ curr
                        ∧ is_Some (predicate_add_sym_map_curr self !! v)
                        ∧ b = bool_decide (v ∈ closed st))).
  { case_bool_decide as Hne.
    - apply bind_inr in Hexp as (c & Hc & Hexp). injection Hexp as <-.
      unfold getitem in Hc.
      destruct (predicate_add_sym_map_curr self !! v) eqn:Ec; [| discriminate].
      right. eexists. eauto.
    - injection Hexp as <-. left. split; [done |].
      destruct (decide (v = curr)); [done | by destruct Hne]. }
  assert (Hrest : ∀ l2,
    (action_feas ←r (if flag && is_move (Pddl.name op)
                     then _check_exist_constraint pim boxes v (Pddl.name op)
                     else ret true);
     if negb action_feas then ret (st, l2)
     else
       next_tuple ←r next_tuple_of self v op;
       _ ←r getitem (predicate_add_sym_map_nxt self) next_tuple;
       trs ←r add_edge_to_action_tr self (tr_actions st) (Pddl.name op) v next_tuple;
       next_tuple_lbl ←r get_conds_from_state pim next_tuple true false;
       next_lbl_sym ←r get_lbl next_tuple_lbl;
       ret (LoopState
              (<[S (layer st) := open_at st (S (layer st)) ∪ {[next_tuple]}]> (open_list st))
              (closed st) (layer st) trs
              (sym_add_state_labels st ++ [(next_tuple, next_lbl_sym)])
              (expanded st), l2)) = inr (st', l') →
    l' = l2
    ∧ (((flag && is_move (Pddl.name op)) = true
        ∧ _check_exist_constraint pim boxes v (Pddl.name op) = inr false
        ∧ st' = st)
       ∨ (((flag && is_move (Pddl.name op)) = true →
           _check_exist_constraint pim boxes v (Pddl.name op) = inr true)
          ∧ ∃ nt trs lbl,
              next_tuple_of self v op = inr nt
              ∧ add_edge_to_action_tr self (tr_actions st) (Pddl.name op) v nt = inr trs
              ∧ st' = LoopState
                        (<[S (layer st) := open_at st (S (layer st)) ∪ {[nt]}]> (open_list st))
                        (closed st) (layer st) trs
                        (sym_add_state_labels st ++ [(nt, lbl)])
                        (expanded st)))).
  { intros l2 H2. apply bind_inr in H2 as (feas & Hfeas & H2).
    destruct feas; simpl in H2.
    - apply bind_inr in H2 as (nt & Hnt & H2).
      apply bind_inr in H2 as (c & Hc & H2).
      apply bind_inr in H2 as (trs & Htrs & H2).
      apply bind_inr in H2 as (lbl' & Hlbl' & H2).
      apply bind_inr in H2 as (lbl & Hlbl & H2).
      injection H2 as <- <-. split; [done |]. right. split.
      + intros Hf. by rewrite Hf in Hfeas.
      + exists nt, trs, lbl. done.
    - injection H2 as <- <-. split; [done |]. left.
      destruct (flag && is_move (Pddl.name op)); [done | discriminate]. }
  destruct Hex as [[-> ->]|(b & -> & Hne & Hin & ->)].
  - apply Hrest in H as [-> H]. right. split; [by left | done].
  - case_bool_decide as Hcl.
    + injection H as <- <-. by left.
    + apply Hrest in H as [-> H]. right. split; [right; done | done].
Qed.


Lemma rel_le_refl trs : rel_le trs trs.
Proof. intros i r Hr. exists r. split; [done | intros; lia]. Qed.

Lemma rel_le_trans trs1 trs2 trs3 : rel_le trs1 trs2 → rel_le trs2 trs3 → rel_le trs1 trs3.
Proof.
  intros H12 H23 i r Hr. destruct (H12 _ _ Hr) as (r2 & Hr2 & Hle2).
  destruct (H23 _ _ Hr2) as (r3 & Hr3 & Hle3). exists r3. split; [done |].
  intros p. specialize (Hle2 p). specialize (Hle3 p). lia.
Qed.

Lemma rel_le_insert trs idx old v nt w :
  trs !! idx = Some old → rel_le trs (<[idx := rel_or_edge old v nt w]> trs).
Proof.
  intros Hold i r Hr. destruct (decide (i = idx)) as [->|Hne].
  - exists (rel_or_edge old v nt w). split.
    + apply list_lookup_insert_eq. by eapply lookup_lt_Some.
    + intros p. rewrite rel_val_or_edge. rewrite Hold in Hr. injection Hr as <-.
      case_decide as Hp; [subst; lia | lia].
  - exists r. split; [by rewrite list_lookup_insert_ne | intros; lia].
Qed.

Lemma edge_present_mono trs trs' s a :
  rel_le trs trs' → edge_present self trs s a → edge_present self trs' s a.
Proof.
  intros Hle (nt & i & r & w & Hnt & Hi & Hw & Hr & Hval).
  destruct (Hle _ _ Hr) as (r' & Hr' & Hle').
  exists nt, i, r', w. repeat (split; [done |]). specialize (Hle' (s, nt)). lia.
Qed.

(** What one pass over an action does to the construction state. *)
Lemma expand_action_step flag curr st l op st' l' :
  op ∈ Pddl.operators (task self) →
  expand_action Lbl get_lbl self boxes flag curr (st, l) op = inr (st', l') →
  closed st' = closed st ∧ layer st' = layer st ∧ expanded st' = expanded st
  ∧ rel_le (tr_actions st) (tr_actions st')
  ∧ (edges_ok self (tr_actions st) → edges_ok self (tr_actions st'))
  ∧ (bounded Lbl self st → bounded Lbl self st')
  ∧ (Forall (λ v, v ∈ universe self) l → Forall (λ v, v ∈ universe self) l')
  ∧ (accepted self boxes flag curr op → edge_present self (tr_actions st') curr op).
Proof.
  intros Hop H. apply expand_action_inv in H as (pre_tuple & Hpre & H).
  assert (Hsame : st' = st → l' = l ∨ (∃ v, valid_pre self curr op = inr v ∧ v ≠ curr
                                         ∧ is_Some (predicate_add_sym_map_curr self !! v)
                                         ∧ l' = l ++ [v]) →
            (accepted self boxes flag curr op → False) →
            closed st' = closed st ∧ layer st' = layer st ∧ expanded st' = expanded st
            ∧ rel_le (tr_actions st) (tr_actions st')
            ∧ (edges_ok self (tr_actions st) → edges_ok self (tr_actions st'))
            ∧ (bounded Lbl self st → bounded Lbl self st')
            ∧ (Forall (λ v, v ∈ universe self) l → Forall (λ v, v ∈ universe self) l')
            ∧ (accepted self boxes flag curr op → edge_present self (tr_actions st') curr op)).
  { intros -> Hl Hacc. repeat (split; [done || apply rel_le_refl |]). split.
    - intros Hall. destruct Hl as [->|(v & _ & _ & Hv & ->)]; [done |].
      apply Forall_app. split; [done |]. apply Forall_singleton.
      apply elem_of_union_l, elem_of_dom, Hv.
    - intros Ha. by destruct (Hacc Ha). }
  destruct H as [(Hsub & -> & ->)|(Hsub & v & Hv & H)].
  { apply Hsame; [done | by left |].
    intros [(pt & Hpt & Hall) _]. rewrite Hpre in Hpt. injection Hpt as <-.
    apply not_true_iff_false in Hsub. apply Hsub, forallb_forall.
    intros x Hx. apply bool_decide_eq_true, Hall, list_elem_of_In, Hx. }
  destruct H as [(Hne & Hcl & -> & ->)|[Hl H]].
  { apply Hsame; [done | by left |].
    intros (_ & Hvp & _). rewrite Hv in Hvp. by injection Hvp. }
  destruct H as [(Hflag & Hchk & ->)|(Hfeas & nt & trs & lbl & Hnt & Htrs & ->)].
  { apply Hsame; [done | |].
    - destruct Hl as [[_ ->]|(Hne & _ & Hin & ->)]; [by left | right; eauto].
    - intros (_ & Hvp & Hf). rewrite Hv in Hvp. injection Hvp as ->.
      rewrite (Hf Hflag) in Hchk. discriminate. }
  simpl. apply add_edge_to_action_tr_inv in Htrs
    as (idx & old & w & Hidx & Hold & Hw & Hcv & Hcn & ->).
  repeat (split; [done |]).
  split; [by apply rel_le_insert |]. split; [| split; [| split]].
  - intros Hok i r x y Hr Hval. destruct (decide (i = idx)) as [->|Hne].
    + rewrite list_lookup_insert_eq in Hr by by eapply lookup_lt_Some.
      injection Hr as <-. rewrite rel_val_or_edge in Hval.
      case_decide as Hp; [| by eapply Hok].
      injection Hp as -> ->. exists op. done.
    + rewrite list_lookup_insert_ne in Hr by done. by eapply Hok.
  - intros [Hc Ho]. split; [done |]. simpl. intros l0 X.
    rewrite lookup_insert. case_decide as Hd.
    + intros [= <-]. apply union_subseteq. split.
      * unfold open_at. destruct (open_list st !! S (layer st)) as [Y|] eqn:EY; simpl.
        -- by eapply Ho.
        -- apply empty_subseteq.
      * apply singleton_subseteq_l, elem_of_union_r, elem_of_dom, Hcn.
    + apply Ho.
  - intros Hall. destruct Hl as [[_ ->]|(_ & _ & Hin & ->)]; [done |].
    apply Forall_app. split; [done |]. apply Forall_singleton.
    apply elem_of_union_l, elem_of_dom, Hin.
  - intros (_ & Hvp & _). rewrite Hv in Hvp. injection Hvp as ->.
    exists nt, idx, (rel_or_edge old curr nt w), w.
    repeat (split; [done |]). split.
    + apply list_lookup_insert_eq. by eapply lookup_lt_Some.
    + rewrite rel_val_or_edge. rewrite decide_True by done. lia.
Qed.


Lemma expand_actions_fold flag curr ops :
  (∀ op, op ∈ ops → op ∈ Pddl.operators (task self)) →
  ∀ st l st' l',
    foldM_r (expand_action Lbl get_lbl self boxes flag curr) (st, l) ops = inr (st', l') →
    closed st' = closed st ∧ layer st' = layer st ∧ expanded st' = expanded st
    ∧ rel_le (tr_actions st) (tr_actions st')
    ∧ (edges_ok self (tr_actions st) → edges_ok self (tr_actions st'))
    ∧ (bounded Lbl self st → bounded Lbl self st')
    ∧ (Forall (λ v, v ∈ universe self) l → Forall (λ v, v ∈ universe self) l')
    ∧ (∀ a, a ∈ ops → accepted self boxes flag curr a →
            edge_present self (tr_actions st') curr a).
Proof.
  induction ops as [|op ops IH]; intros Hops st l st' l' H; simpl in H.
  - injection H as <- <-. repeat (split; [done || apply rel_le_refl |]).
    intros a Ha. by apply elem_of_nil in Ha.
  - apply bind_inr in H as ([st1 l1] & H1 & H).
    apply expand_action_step in H1
      as (Hc1 & Hl1 & He1 & Hr1 & Hok1 & Hb1 & Hu1 & Ha1); [| apply Hops; by left].
    apply IH in H as (Hc & Hl & He & Hr & Hok & Hb & Hu & Ha);
      [| intros; apply Hops; by right].
    split; [congruence |]. split; [congruence |]. split; [congruence |].
    split; [by eapply rel_le_trans |]. split; [tauto |]. split; [tauto |].
    split; [tauto |].
    intros a Hin Hacc. apply elem_of_cons in Hin as [->|Hin].
    + eapply edge_present_mono; [exact Hr | by apply Ha1].
    + by apply Ha.
Qed.

Lemma close_valid_pre_fold l :
  ∀ st st', foldM_r (close_valid_pre Lbl get_lbl self) st l = inr st' →
    closed st' = closed st ∪ list_to_set l ∧ layer st' = layer st
    ∧ expanded st' = expanded st ∧ tr_actions st' = tr_actions st
    ∧ open_list st' = open_list st.
Proof.
  induction l as [|v l IH]; intros st st' H; simpl in H.
  - injection H as <-. simpl. split; [set_solver | done].
  - apply bind_inr in H as (st1 & H1 & H).
    unfold close_valid_pre in H1.
    apply bind_inr in H1 as (lbl' & _ & H1). apply bind_inr in H1 as (lbl & _ & H1).
    injection H1 as <-. apply IH in H as (Hc & Hl & He & Ht & Ho). simpl in *.
    split; [rewrite Hc; set_solver | done].
Qed.

Lemma expand_state_step flag st s st' :
  expand_state Lbl get_lbl self boxes flag st s = inr st' →
  closed st ⊆ closed st' ∧ layer st' = layer st ∧ expanded st' = expanded st ++ [s]
  ∧ rel_le (tr_actions st) (tr_actions st')
  ∧ (edges_ok self (tr_actions st) → edges_ok self (tr_actions st'))
  ∧ (bounded Lbl self st → bounded Lbl self st')
  ∧ (∀ a, a ∈ Pddl.operators (task self) → accepted self boxes flag s a →
          edge_present self (tr_actions st') s a).
Proof.
  unfold expand_state. intros H.
  apply bind_inr in H as (c & _ & H). apply bind_inr in H as ([st1 l1] & H1 & H).
  apply expand_actions_fold in H1
    as (Hc1 & Hl1 & He1 & Hr1 & Hok1 & Hb1 & Hu1 & Ha1); [| done].
  apply close_valid_pre_fold in H as (Hc & Hl & He & Ht & Ho). simpl in *.
  split; [rewrite Hc, Hc1; set_solver |]. split; [congruence |]. split; [congruence |].
  rewrite Ht. split; [done |]. split; [done |]. split; [| done].
  intros Hb. destruct (Hb1 Hb) as [Hcl Hop]. split.
  - rewrite Hc. apply union_subseteq. split; [done |].
    intros v Hv. apply elem_of_list_to_set in Hv.
    specialize (Hu1 (Forall_nil_2 _)). rewrite Forall_forall in Hu1. by apply Hu1.
  - by rewrite Ho.
Qed.

Lemma expand_states_fold flag ls :
  ∀ st st', foldM_r (expand_state Lbl get_lbl self boxes flag) st ls = inr st' →
    closed st ⊆ closed st' ∧ layer st' = layer st ∧ expanded st' = expanded st ++ ls
    ∧ rel_le (tr_actions st) (tr_actions st')
    ∧ (edges_ok self (tr_actions st) → edges_ok self (tr_actions st'))
    ∧ (bounded Lbl self st → bounded Lbl self st')
    ∧ (accepted_present Lbl self boxes flag st → accepted_present Lbl self boxes flag st').
Proof.
  induction ls as [|s ls IH]; intros st st' H; simpl in H.
  - injection H as <-. rewrite app_nil_r.
    repeat (split; [done || apply rel_le_refl |]). done.
  - apply bind_inr in H as (st1 & H1 & H).
    apply expand_state_step in H1 as (Hc1 & Hl1 & He1 & Hr1 & Hok1 & Hb1 & Ha1).
    apply IH in H as (Hc & Hl & He & Hr & Hok & Hb & Ha).
    split; [set_solver |]. split; [congruence |].
    split; [rewrite He, He1; by rewrite <- app_assoc |].
    split; [by eapply rel_le_trans |]. split; [tauto |]. split; [tauto |].
    intros Hp. apply Ha. intros s0 a Hs0 Hop Hacc.
    rewrite He1 in Hs0. apply elem_of_app in Hs0 as [Hs0|Hs0].
    + eapply edge_present_mono; [exact Hr1 | by apply Hp].
    + apply list_elem_of_singleton in Hs0 as ->. by apply Ha1.
Qed.


(** [get_states_from_dd] enumerates the states of the diagram, each
    once. *)
Hypothesis get_states_spec :
  ∀ X, NoDup (get_states X) ∧ ∀ s, s ∈ get_states X ↔ s ∈ X.

Abbreviation layer_step' := (layer_step Lbl get_lbl get_states self boxes).
Abbreviation while_loop' := (while_loop Lbl get_lbl get_states self boxes).

(** A pass that finds nothing left to expand changes nothing but the
    open set of the layer, which it empties. *)
Lemma layer_step_exit flag st :
  open_at st (layer st) ∖ closed st = ∅ →
  ∃ st', layer_step' flag st = inr st'
    ∧ closed st' = closed st ∧ layer st' = layer st ∧ expanded st' = expanded st
    ∧ tr_actions st' = tr_actions st
    ∧ open_at st' (layer st') = ∅.
Proof.
  intros Ho. unfold layer_step. rewrite Ho. rewrite bool_decide_eq_true_2 by done.
  eexists. split; [reflexivity |]. simpl. repeat (split; [done |]).
  unfold open_at. simpl. by rewrite lookup_insert_eq.
Qed.

(** A pass that finds states to expand closes them, expands each of
    them, and moves to the next layer. *)
Lemma layer_step_expand flag st st' :
  open_at st (layer st) ∖ closed st ≠ ∅ →
  layer_step' flag st = inr st' →
  let o := open_at st (layer st) ∖ closed st in
  closed st ∪ o ⊆ closed st' ∧ layer st' = S (layer st)
  ∧ expanded st' = expanded st ++ get_states o
  ∧ rel_le (tr_actions st) (tr_actions st')
  ∧ (edges_ok self (tr_actions st) → edges_ok self (tr_actions st'))
  ∧ (bounded Lbl self st → bounded Lbl self st')
  ∧ (accepted_present Lbl self boxes flag st → accepted_present Lbl self boxes flag st')
  ∧ (expanded_once Lbl st → expanded_once Lbl st').
Proof.
  intros Ho H o. unfold layer_step in H. rewrite bool_decide_eq_false_2 in H by done.
  apply bind_inr in H as (st1 & H1 & H). injection H as <-.
  apply expand_states_fold in H1 as (Hc & Hl & He & Hr & Hok & Hb & Ha).
  simpl in *. fold o in Hc, He.
  split; [done |]. split; [by rewrite Hl |]. split; [done |]. split; [done |].
  split; [done |]. split; [| split].
  - intros [Hcl Hop]. cut (bounded Lbl self st1); [intros [? ?]; by split |].
    apply Hb. split; simpl.
    + apply union_subseteq. split; [done |].
      intros x Hx. apply elem_of_difference in Hx as [Hx _].
      unfold open_at in Hx. destruct (open_list st !! layer st) as [Y|] eqn:EY;
        simpl in Hx; [by eapply Hop | by apply elem_of_empty in Hx].
    + intros l0 X. rewrite lookup_insert. case_decide as Hd; [| apply Hop].
      intros [= <-]. intros x Hx. apply elem_of_difference in Hx as [Hx _].
      unfold open_at in Hx. destruct (open_list st !! layer st) as [Y|] eqn:EY;
        simpl in Hx; [by eapply Hop | by apply elem_of_empty in Hx].
  - intros Hp. cut (accepted_present Lbl self boxes flag st1); [done |].
    by apply Ha.
  - intros [Hnd Hin]. destruct (get_states_spec o) as [Hndo Hgo]. split; simpl.
    + rewrite He. apply NoDup_app. split; [done |]. split; [| done].
      intros x Hx Hx'. apply Hgo in Hx'. apply elem_of_difference in Hx' as [_ Hx'].
      by apply Hx', Hin.
    + intros x Hx. rewrite He in Hx. apply Hc.
      apply elem_of_app in Hx as [Hx|Hx]; [apply elem_of_union_l, Hin, Hx |].
      apply elem_of_union_r, Hgo, Hx.
Qed.

(** What the loop keeps, from any state to the state it ends in. *)
Lemma while_loop_inv flag fuel :
  ∀ st st', while_loop' fuel flag st = Some (inr st') →
    closed st ⊆ closed st'
    ∧ rel_le (tr_actions st) (tr_actions st')
    ∧ (edges_ok self (tr_actions st) → edges_ok self (tr_actions st'))
    ∧ (accepted_present Lbl self boxes flag st → accepted_present Lbl self boxes flag st')
    ∧ (expanded_once Lbl st → expanded_once Lbl st')
    ∧ open_at st' (layer st') = ∅.
Proof.
  induction fuel as [|fuel IH]; intros st st' H; simpl in H.
  - case_bool_decide as Ho; [| discriminate]. injection H as <-.
    repeat (split; [done || apply rel_le_refl |]). done.
  - case_bool_decide as Ho.
    + injection H as <-. repeat (split; [done || apply rel_le_refl |]). done.
    + destruct (layer_step' flag st) as [e|st1] eqn:E; [discriminate |].
      apply IH in H as (Hc & Hr & Hok & Ha & Hx & Hend).
      destruct (decide (open_at st (layer st) ∖ closed st = ∅)) as [Hd|Hd].
      * destruct (layer_step_exit flag st Hd) as (st2 & E2 & Hc2 & Hl2 & He2 & Ht2 & Ho2).
        rewrite E in E2. injection E2 as <-.
        split; [by rewrite <- Hc2 |]. rewrite <- Ht2. split; [done |]. split; [done |].
        split; [| split; [| done]].
        -- intros Hp. apply Ha. intros s a Hs. rewrite He2 in Hs. rewrite Ht2.
           by apply Hp.
        -- intros [Hnd Hin]. apply Hx. split; [by rewrite He2 |].
           intros s Hs. rewrite He2 in Hs. rewrite Hc2. by apply Hin.
      * destruct (layer_step_expand flag st st1 Hd E)
          as (Hc1 & Hl1 & He1 & Hr1 & Hok1 & Hb1 & Ha1 & Hx1).
        split; [set_solver |]. split; [by eapply rel_le_trans |].
        repeat (split; [tauto |]). done.
Qed.

(** The loop ends: a pass that does not end it closes a state that was
    not closed, and the closed states are among those of the maps. *)
Lemma while_loop_terminates flag fuel :
  ∀ st, bounded Lbl self st →
    size (universe self ∖ closed st) < fuel →
    while_loop' fuel flag st ≠ None.
Proof.
  induction fuel as [|fuel IH]; intros st Hb Hsz; [lia |].
  simpl. case_bool_decide as Ho; [done |].
  destruct (layer_step' flag st) as [e|st1] eqn:E; [done |].
  destruct (decide (open_at st (layer st) ∖ closed st = ∅)) as [Hd|Hd].
  - destruct (layer_step_exit flag st Hd) as (st2 & E2 & Hc2 & Hl2 & He2 & Ht2 & Ho2).
    rewrite E in E2. injection E2 as <-.
    destruct fuel; simpl; by rewrite bool_decide_eq_true_2.
  - destruct (layer_step_expand flag st st1 Hd E)
      as (Hc1 & Hl1 & He1 & Hr1 & Hok1 & Hb1 & Ha1 & Hx1).
    apply IH; [by apply Hb1 |].
    apply set_choose_L in Hd as [x Hx].
    assert (x ∈ universe self ∖ closed st) as Hux.
    { apply elem_of_difference in Hx as [Hxo Hxc].
      apply elem_of_difference. split; [| done].
      destruct Hb as [_ Hop]. unfold open_at in Hxo.
      destruct (open_list st !! layer st) as [Y|] eqn:EY; simpl in Hxo;
        [by eapply Hop | by apply elem_of_empty in Hxo]. }
    assert (universe self ∖ closed st1 ⊂ universe self ∖ closed st) as Hlt.
    { apply strict_spec_alt. split.
      - intros y Hy. apply elem_of_difference in Hy as [Hy1 Hy2].
        apply elem_of_difference. split; [done |]. intros Hy3. apply Hy2, Hc1.
        by apply elem_of_union_l.
      - intros Heq. assert (x ∈ universe self ∖ closed st1) as Hx1' by by rewrite Heq.
        apply elem_of_difference in Hx1' as [_ Hx1']. apply Hx1', Hc1.
        by apply elem_of_union_r. }
    apply subset_size in Hlt. lia.
Qed.


Lemma bidict_inv_lookup `{Countable K} {V} (eqb : V → V → bool) (m : gmap K V) (v : V)
    (k : K) :
  bidict_inv eqb m v = inr k → is_Some (m !! k).
Proof.
  unfold bidict_inv. destruct (List.find _ _) as [[k' v']|] eqn:E; [| discriminate].
  intros [= <-]. apply find_some in E as [Hin _].
  apply list_elem_of_In, elem_of_map_to_list in Hin. by exists v'.
Qed.

Lemma initial_loop_state_inv st0 :
  initial_loop_state Lbl mk_lbl get_lbl self = inr st0 →
  closed st0 = ∅ ∧ expanded st0 = [] ∧ tr_actions st0 = sym_tr_actions self
  ∧ layer st0 = 0 ∧ bounded Lbl self st0.
Proof.
  unfold initial_loop_state. intros H.
  apply bind_inr in H as (u & _ & H). apply bind_inr in H as (c & _ & H).
  apply bind_inr in H as (init & Hinit & H). apply bind_inr in H as (lbl' & _ & H).
  apply bind_inr in H as (lbl & _ & H). injection H as <-. simpl.
  do 4 (split; [done |]). unfold bounded. cbn [closed open_list]. split.
  - intros x Hx. by apply elem_of_empty in Hx.
  - intros l X HX. apply lookup_singleton_Some in HX as [_ <-].
    intros x Hx. apply elem_of_singleton in Hx as ->.
    apply elem_of_union_l, elem_of_dom. by eapply bidict_inv_lookup.
Qed.

Lemma while_loop_exit_now flag n st :
  open_at st (layer st) = ∅ → while_loop' n flag st = Some (inr st).
Proof. intros Ho. destruct n; simpl; by rewrite bool_decide_eq_true_2. Qed.

(** C3. In the construction the closed set only grows, pass after pass;
    a pass expands states of the layer's open set that are not closed,
    each once, so that no state is expanded twice in a run; the loop
    ends at a layer exactly when its open set without the closed states
    is empty, and goes on to the next layer otherwise; and it does end,
    within as many passes as the maps have states. *)
Theorem construction_closed_expanded (flag : bool) :
  (∀ st st', layer_step' flag st = inr st' → closed st ⊆ closed st')
  ∧ (∀ st st', expanded_once Lbl st → layer_step' flag st = inr st' →
       expanded_once Lbl st'
       ∧ ∀ s, s ∈ expanded st' →
              s ∈ expanded st ∨ (s ∈ open_at st (layer st) ∧ s ∉ closed st))
  ∧ (∀ st n, open_at st (layer st) ∖ closed st = ∅ →
       ∃ st', while_loop' (S n) flag st = Some (inr st')
              ∧ closed st' = closed st ∧ expanded st' = expanded st
              ∧ tr_actions st' = tr_actions st ∧ layer st' = layer st)
  ∧ (∀ st n, open_at st (layer st) ∖ closed st ≠ ∅ →
       while_loop' (S n) flag st
       = match layer_step' flag st with
         | inl e => Some (inl e)
         | inr st' => while_loop' n flag st'
         end
       ∧ ∀ st', layer_step' flag st = inr st' →
           layer st' = S (layer st)
           ∧ expanded st'
             = expanded st ++ get_states (open_at st (layer st) ∖ closed st))
  ∧ (∀ fuel st',
       create_weighted_transition_system_franka Lbl mk_lbl get_lbl get_states self boxes
         fuel flag = Some (inr st') →
       NoDup (expanded st')
       ∧ (∀ s, s ∈ expanded st' → s ∈ closed st')
       ∧ open_at st' (layer st') ∖ closed st' = ∅)
  ∧ (∀ fuel, size (universe self) < fuel →
       create_weighted_transition_system_franka Lbl mk_lbl get_lbl get_states self boxes
         fuel flag ≠ None).
Proof.
  split; [| split; [| split; [| split; [| split]]]].
  - intros st st' H.
    destruct (decide (open_at st (layer st) ∖ closed st = ∅)) as [Hd|Hd].
    + destruct (layer_step_exit flag st Hd) as (st2 & E2 & Hc2 & _).
      rewrite H in E2. injection E2 as <-. by rewrite Hc2.
    + destruct (layer_step_expand flag st st' Hd H) as (Hc & _). set_solver.
  - intros st st' Hx H.
    destruct (decide (open_at st (layer st) ∖ closed st = ∅)) as [Hd|Hd].
    + destruct (layer_step_exit flag st Hd) as (st2 & E2 & Hc2 & Hl2 & He2 & _).
      rewrite H in E2. injection E2 as <-. destruct Hx as [Hnd Hin]. split.
      * split; [by rewrite He2 |]. intros s Hs. rewrite He2 in Hs. rewrite Hc2.
        by apply Hin.
      * intros s Hs. rewrite He2 in Hs. by left.
    + destruct (layer_step_expand flag st st' Hd H)
        as (Hc & Hl & He & _ & _ & _ & _ & Hx').
      split; [by apply Hx' |]. intros s Hs. rewrite He in Hs.
      apply elem_of_app in Hs as [Hs|Hs]; [by left | right].
      apply (get_states_spec _) in Hs. by apply elem_of_difference in Hs.
  - intros st n Hd.
    destruct (decide (open_at st (layer st) = ∅)) as [Ho|Ho].
    + exists st. split; [by apply while_loop_exit_now | done].
    + destruct (layer_step_exit flag st Hd) as (st2 & E2 & Hc2 & Hl2 & He2 & Ht2 & Ho2).
      exists st2. split; [| done]. simpl. rewrite bool_decide_eq_false_2 by done.
      rewrite E2. by apply while_loop_exit_now.
  - intros st n Hd. split.
    + simpl. rewrite bool_decide_eq_false_2; [done |].
      intros Ho. apply Hd. rewrite Ho. set_solver.
    + intros st' H. by destruct (layer_step_expand flag st st' Hd H) as (_ & Hl & He & _).
  - intros fuel st' H. unfold create_weighted_transition_system_franka in H.
    destruct (initial_loop_state Lbl mk_lbl get_lbl self) as [e|st0] eqn:E0;
      [by injection H |].
    apply initial_loop_state_inv in E0 as (Hc0 & He0 & _).
    apply while_loop_inv in H as (_ & _ & _ & _ & Hx & Hend).
    destruct Hx as [Hnd Hin].
    { split; [rewrite He0; apply NoDup_nil_2 |]. intros s Hs. rewrite He0 in Hs.
      by apply elem_of_nil in Hs. }
    split; [done |]. split; [done |]. rewrite Hend. set_solver.
  - intros fuel Hsz. unfold create_weighted_transition_system_franka.
    destruct (initial_loop_state Lbl mk_lbl get_lbl self) as [e|st0] eqn:E0; [done |].
    apply initial_loop_state_inv in E0 as (Hc0 & _ & _ & _ & Hb0).
    apply while_loop_terminates; [done |].
    rewrite Hc0. assert (universe self ∖ ∅ = universe self) as -> by set_solver. done.
Qed.



End FrankaConstruction.

Lemma elements_spec (X : gset State) :
  NoDup (elements X) ∧ ∀ s, s ∈ elements X ↔ s ∈ X.
Proof. split; [apply NoDup_elements | intros s; apply elem_of_elements]. Qed.

Lemma init_relations_empty (curr next : list nat) (tk : Pddl.task)
    (wd : list (string * Z)) (pim : gmap string nat) (ts_states : list State)
    (size : nat) (self : SymbolicWeightedFrankaTransitionSystem.t) :
  SymbolicWeightedFrankaTransitionSystem.__init__ curr next tk wd pim ts_states size
    = inr self →
  Forall (λ r, r = ∅) (SymbolicWeightedFrankaTransitionSystem.sym_tr_actions self).
Proof.
  unfold SymbolicWeightedFrankaTransitionSystem.__init__. intros H.
  apply bind_inr in H as (maps & _ & H). apply bind_inr in H as (ig & _ & H).
  injection H as <-. simpl. by apply Forall_replicate.
Qed.



Lemma construction_closed_expanded_witness :
  ∃ self st,
    Demo.demo_init = inr self
    ∧ Demo.demo_run self 5 = Some (inr st)
    ∧ NoDup (SymbolicWeightedFrankaTransitionSystem.expanded st).
Proof.
  destruct Demo.demo_init as [e|self] eqn:E; [vm_compute in E; discriminate |].
  destruct (Demo.demo_run self 5) as [[e|st]|] eqn:R.
  - exfalso. revert R. vm_compute in E. injection E as <-. vm_compute. discriminate.
  - exists self, st. split; [reflexivity |]. split; [exact R |].
    destruct (construction_closed_expanded State (inr ()) (λ t, inr t) elements self ["b0"]
                elements_spec true) as (_ & _ & _ & _ & Hrun & _).
    exact (proj1 (Hrun 5 st R)).
  - exfalso. revert R. vm_compute in E. injection E as <-. vm_compute. discriminate.
Defined.

(** * Further properties of the encoder and of the builders *)

(** ** The tuples of predicate ids *)

Lemma getitem_inr `{Countable K} {V} (m : gmap K V) (k : K) (v : V) :
  getitem m k = inr v ↔ m !! k = Some v.
Proof. unfold getitem. destruct (m !! k); split; intros [=]; by subst. Qed.

Lemma mapM_r_getitem_missing `{Countable K} {V} (m : gmap K V) (l : list K) (k : K) :
  k ∈ l → m !! k = None → mapM_r (getitem m) l = inl KeyError.
Proof.
  induction l as [|a l IH]; intros Hin Hk; [by apply elem_of_nil in Hin |].
  simpl. unfold getitem at 1. destruct (m !! a) as [v|] eqn:Ea; simpl; [| done].
  apply elem_of_cons in Hin as [->|Hin]; [congruence |]. by rewrite IH.
Qed.

Lemma mapM_r_getitem_inr `{Countable K} {V} (m : gmap K V) (l : list K) (vs : list V) :
  mapM_r (getitem m) l = inr vs ↔ Forall2 (λ k v, m !! k = Some v) l vs.
Proof.
  rewrite mapM_r_inr. split; intros Hf; eapply Forall2_impl; try exact Hf;
    intros k v; by rewrite getitem_inr.
Qed.

Lemma sorted_Sorted (l : list nat) : Sorted (≤) (sorted l).
Proof. apply (Sorted_merge_sort (≤)). Qed.

Lemma sorted_Permutation (l : list nat) : sorted l ≡ₚ l.
Proof. apply merge_sort_Permutation. Qed.

(** [get_tuple_from_state] returns the ids of the predicates in
    increasing order, and raises KeyError as soon as one of the
    predicates is not interned. *)
Theorem get_tuple_from_state_sorted (pim : gmap string nat) (preds : list string) :
  (∀ t, SymbolicWeightedFrankaTransitionSystem.get_tuple_from_state pim preds = inr t →
        Sorted (≤) t
        ∧ ∃ ids, Forall2 (λ p i, pim !! p = Some i) preds ids ∧ t ≡ₚ ids)
  ∧ (∀ p, p ∈ preds → pim !! p = None →
          SymbolicWeightedFrankaTransitionSystem.get_tuple_from_state pim preds
          = inl KeyError).
Proof.
  unfold SymbolicWeightedFrankaTransitionSystem.get_tuple_from_state. split.
  - intros t H. apply bind_inr in H as (ids & Hids & H). injection H as <-.
    split; [apply sorted_Sorted |]. exists ids.
    split; [by apply mapM_r_getitem_inr | apply sorted_Permutation].
  - intros p Hp Hnone. by rewrite (mapM_r_getitem_missing _ _ _ Hp Hnone).
Qed.

Lemma bidict_inv_value (pim : gmap string nat) (i : nat) (p : string) :
  bidict_inv Nat.eqb pim i = inr p → pim !! p = Some i.
Proof.
  unfold bidict_inv. destruct (List.find _ _) as [[p' i']|] eqn:E; [| discriminate].
  intros [= <-]. apply find_some in E as [Hin Heq]. simpl in Heq.
  apply Nat.eqb_eq in Heq as ->. by apply elem_of_map_to_list, list_elem_of_In.
Qed.

Lemma bidict_inv_missing (pim : gmap string nat) (i : nat) :
  (∀ p, pim !! p ≠ Some i) → bidict_inv Nat.eqb pim i = inl KeyError.
Proof.
  intros Hno. unfold bidict_inv.
  destruct (List.find _ _) as [[p' i']|] eqn:E; [| done].
  apply find_some in E as [Hin Heq]. simpl in Heq. apply Nat.eqb_eq in Heq as ->.
  apply list_elem_of_In, elem_of_map_to_list in Hin. by destruct (Hno p').
Qed.

(** [get_state_from_tuple] followed by the lookup of the ids gives the
    tuple back, so [get_tuple_from_state] of the predicates of a tuple is
    the tuple sorted; an id no predicate has makes it raise KeyError. *)
Theorem get_state_from_tuple_round_trip (pim : gmap string nat) (state_tuple : State) :
  (∀ preds,
     SymbolicWeightedFrankaTransitionSystem.get_state_from_tuple pim state_tuple = inr preds →
     mapM_r (getitem pim) preds = inr state_tuple
     ∧ SymbolicWeightedFrankaTransitionSystem.get_tuple_from_state pim preds
       = inr (sorted state_tuple))
  ∧ (∀ i, i ∈ state_tuple → (∀ p, pim !! p ≠ Some i) →
          raised (SymbolicWeightedFrankaTransitionSystem.get_state_from_tuple
                    pim state_tuple)).
Proof.
  unfold SymbolicWeightedFrankaTransitionSystem.get_state_from_tuple,
    SymbolicWeightedFrankaTransitionSystem.get_tuple_from_state. split.
  - intros preds H. apply mapM_r_inr in H.
    assert (mapM_r (getitem pim) preds = inr state_tuple) as Hback.
    { apply mapM_r_getitem_inr. apply Forall2_flip.
      eapply Forall2_impl; [exact H |]. intros i p. apply bidict_inv_value. }
    split; [done |]. by rewrite Hback.
  - intros i Hi Hno. induction state_tuple as [|j l IH]; [by apply elem_of_nil in Hi |].
    simpl. apply elem_of_cons in Hi as [<-|Hi].
    + apply bind_raised. rewrite bidict_inv_missing by done. by exists KeyError.
    + destruct (bidict_inv Nat.eqb pim j) as [e|p]; [by exists e |]. simpl.
      by apply bind_raised, IH.
Qed.

Lemma Forall2_zip_elem {A B} (R : A → B → Prop) (l : list A) (k : list B) (a : A) (b : B) :
  Forall2 R l k → (a, b) ∈ zip l k → R a b.
Proof.
  induction 1 as [|x y l k Hxy _ IH]; simpl; intros Hin; [by apply elem_of_nil in Hin |].
  apply elem_of_cons in Hin as [[= -> ->]|Hin]; [done | by apply IH].
Qed.

Lemma Forall2_fst_zip {A B} (R : A → B → Prop) (l : list A) (k : list B) :
  Forall2 R l k → (zip l k).*1 = l.
Proof. induction 1 as [|x y l k _ _ IH]; [done |]. cbn. by f_equal. Qed.

Lemma get_conds_from_state_filter (pim : gmap string nat) (s : State) (w r : bool)
    (preds : list string) :
  SymbolicWeightedFrankaTransitionSystem.get_state_from_tuple pim s = inr preds →
  SymbolicWeightedFrankaTransitionSystem.get_conds_from_state pim s w r
  = inr (sorted ((filter (λ ip, kept_by w r ip.2 = true) (zip s preds)).*1)).
Proof.
  intros Hpreds. unfold SymbolicWeightedFrankaTransitionSystem.get_conds_from_state.
  rewrite Hpreds. simpl.
  unfold SymbolicWeightedFrankaTransitionSystem.get_state_from_tuple in Hpreds.
  apply mapM_r_inr in Hpreds.
  match goal with |- context [foldM_r ?b [] preds] => set (body := b) end.
  assert (Hfold : ∀ acc, foldM_r body acc preds
            = inr (acc ++ (filter (λ ip, kept_by w r ip.2 = true) (zip s preds)).*1)).
  { clear -Hpreds. induction Hpreds as [|i p s preds Hip _ IH]; intros acc; simpl.
    - by rewrite app_nil_r.
    - apply bidict_inv_value in Hip.
      assert (getitem pim p = inr i) as Hget by by apply getitem_inr.
      rewrite filter_cons. unfold body at 1, kept_by at 1. simpl.
      destruct w; [| destruct r]; simpl;
        destruct (SymbolicWeightedFrankaTransitionSystem.is_world_pred p); simpl;
        rewrite ?Hget; simpl; rewrite IH; try done;
        rewrite ?decide_True by done; rewrite ?decide_False by done;
        by rewrite ?fmap_cons, <- ?app_assoc. }
  by rewrite Hfold.
Qed.

Lemma filter_bool_partition {A} (f : A → bool) (l : list A) :
  filter (λ x, f x = true) l ++ filter (λ x, negb (f x) = true) l ≡ₚ l.
Proof.
  induction l as [|a l IH]; [done |]. rewrite !filter_cons.
  destruct (f a) eqn:E; simpl.
  - by rewrite IH.
  - rewrite <- Permutation_middle. by rewrite IH.
Qed.

Lemma filter_bool_none {A} (f : A → bool) (l : list A) :
  (∀ x, f x = false) → filter (λ x, f x = true) l = [].
Proof.
  intros Hf. induction l as [|a l IH]; [done |]. rewrite filter_cons.
  rewrite decide_False by (rewrite Hf; done). exact IH.
Qed.

(** The world configuration and the robot configuration
    [get_conds_from_state] gives for a state are sorted, have no id in
    common and together are the state; with neither flag the tuple is
    empty, and with both the world configuration is returned. *)
Theorem get_conds_from_state_partition (pim : gmap string nat) (s wt rt : State) :
  SymbolicWeightedFrankaTransitionSystem.get_conds_from_state pim s true false = inr wt →
  SymbolicWeightedFrankaTransitionSystem.get_conds_from_state pim s false true = inr rt →
  wt ++ rt ≡ₚ s
  ∧ Sorted (≤) wt ∧ Sorted (≤) rt
  ∧ (∀ x, x ∈ wt → x ∉ rt)
  ∧ SymbolicWeightedFrankaTransitionSystem.get_conds_from_state pim s false false = inr []
  ∧ SymbolicWeightedFrankaTransitionSystem.get_conds_from_state pim s true true = inr wt.
Proof.
  intros Hw Hr.
  destruct (SymbolicWeightedFrankaTransitionSystem.get_state_from_tuple pim s)
    as [e|preds] eqn:Hpreds.
  { unfold SymbolicWeightedFrankaTransitionSystem.get_conds_from_state in Hw.
    by rewrite Hpreds in Hw. }
  rewrite (get_conds_from_state_filter _ _ true false _ Hpreds) in Hw.
  rewrite (get_conds_from_state_filter _ _ false true _ Hpreds) in Hr.
  injection Hw as <-. injection Hr as <-.
  rewrite (get_conds_from_state_filter _ _ false false _ Hpreds).
  rewrite (get_conds_from_state_filter _ _ true true _ Hpreds).
  unfold SymbolicWeightedFrankaTransitionSystem.get_state_from_tuple in Hpreds.
  apply mapM_r_inr in Hpreds.
  split; [| split; [| split; [| split; [| split]]]].
  - rewrite !sorted_Permutation, <- fmap_app.
    rewrite (filter_bool_partition
               (λ ip : nat * string,
                  SymbolicWeightedFrankaTransitionSystem.is_world_pred ip.2)).
    by rewrite (Forall2_fst_zip _ _ _ Hpreds).
  - apply sorted_Sorted.
  - apply sorted_Sorted.
  - intros x. rewrite !sorted_Permutation, !list_elem_of_fmap.
    intros ([i p] & -> & Hin) ([i' p'] & Heq & Hin'). simpl in Heq. subst i'.
    apply list_elem_of_filter in Hin as [HP Hin], Hin' as [HP' Hin'].
    pose proof (Forall2_zip_elem _ _ _ _ _ Hpreds Hin) as H1.
    pose proof (Forall2_zip_elem _ _ _ _ _ Hpreds Hin') as H2.
    cbv beta in H1, H2. rewrite H1 in H2. injection H2 as <-.
    simpl in HP, HP'. rewrite HP in HP'. discriminate.
  - f_equal. by rewrite (filter_bool_none (λ ip : nat * string, kept_by false false ip.2)).
  - done.
Qed.

Lemma get_conds_from_state_partition_witness :
  SymbolicWeightedFrankaTransitionSystem.get_conds_from_state Demo.demo_pim [0; 1]
    false false = inr [].
Proof.
  exact (proj1 (proj2 (proj2 (proj2 (proj2
    (get_conds_from_state_partition Demo.demo_pim [0; 1] [1] [0] eq_refl eq_refl)))))).
Defined.

(** [_valid_pre] is made of ids of the state: the whole world
    configuration of the state, and the ids of its robot configuration
    that are in the robot configuration of the preconditions. *)
Theorem valid_pre_within_state (self : SymbolicWeightedFrankaTransitionSystem.t)
    (s v : State) (a : Pddl.operator) :
  SymbolicWeightedFrankaTransitionSystem.valid_pre self s a = inr v →
  ∃ pre_tuple necc rc wc,
    SymbolicWeightedFrankaTransitionSystem.get_tuple_from_state
      (SymbolicWeightedFrankaTransitionSystem.pred_int_map self) (Pddl.preconditions a)
    = inr pre_tuple
    ∧ SymbolicWeightedFrankaTransitionSystem.get_conds_from_state
        (SymbolicWeightedFrankaTransitionSystem.pred_int_map self) pre_tuple false true
      = inr necc
    ∧ SymbolicWeightedFrankaTransitionSystem.get_conds_from_state
        (SymbolicWeightedFrankaTransitionSystem.pred_int_map self) s false true = inr rc
    ∧ SymbolicWeightedFrankaTransitionSystem.get_conds_from_state
        (SymbolicWeightedFrankaTransitionSystem.pred_int_map self) s true false = inr wc
    ∧ (∀ x, x ∈ v ↔ x ∈ wc ∨ (x ∈ rc ∧ x ∈ necc))
    ∧ (∀ x, x ∈ v → x ∈ s)
    ∧ Sorted (≤) v.
Proof.
  unfold SymbolicWeightedFrankaTransitionSystem.valid_pre. intros H.
  apply bind_inr in H as (pre_tuple & Hpre & H). apply bind_inr in H as (necc & Hnecc & H).
  apply bind_inr in H as (rc & Hrc & H). apply bind_inr in H as (wc & Hwc & H).
  injection H as <-. exists pre_tuple, necc, rc, wc. repeat (split; [done |]).
  assert (Hel : ∀ x, x ∈ sorted (filter (λ x, x ∈ necc) (set_of rc) ++ wc)
                     ↔ x ∈ wc ∨ (x ∈ rc ∧ x ∈ necc)).
  { intros x. rewrite sorted_Permutation, elem_of_app, list_elem_of_filter.
    unfold set_of. rewrite elem_of_remove_dups. tauto. }
  split; [done |]. split; [| apply sorted_Sorted].
  destruct (get_conds_from_state_partition _ _ _ _ Hwc Hrc) as (Hperm & _).
  intros x Hx. apply Hel in Hx. rewrite <- Hperm, elem_of_app. tauto.
Qed.

Lemma valid_pre_within_state_witness :
  ∃ self v,
    Demo.demo_init = inr self
    ∧ SymbolicWeightedFrankaTransitionSystem.valid_pre self [0; 1] Demo.demo_op = inr v
    ∧ ∀ x, x ∈ v → x ∈ [0; 1].
Proof.
  destruct Demo.demo_init as [e|self] eqn:E; [vm_compute in E; discriminate |].
  destruct (SymbolicWeightedFrankaTransitionSystem.valid_pre self [0; 1] Demo.demo_op)
    as [e|v] eqn:V.
  - exfalso. revert V. vm_compute in E. injection E as <-. vm_compute. discriminate.
  - exists self, v. split; [reflexivity |]. split; [exact V |].
    destruct (valid_pre_within_state self [0; 1] v Demo.demo_op V)
      as (? & ? & ? & ? & _ & _ & _ & _ & _ & Hsub & _).
    exact Hsub.
Defined.

(** ** The weight table and the index of the actions *)

Lemma dict_get_set {V} (d : list (string * V)) (k k' : string) (v : V) :
  dict_get (dict_set d k v) k' = if decide (k = k') then inr v else dict_get d k'.
Proof.
  unfold dict_get. induction d as [|[k0 v0] d IH]; simpl.
  - case_decide as Hk; [by rewrite bool_decide_eq_true_2 | by rewrite bool_decide_eq_false_2].
  - destruct (decide (k0 = k)) as [->|Hne]; simpl.
    + case_decide as Hk; [by rewrite bool_decide_eq_true_2 | by rewrite !bool_decide_eq_false_2].
    + case_bool_decide as Hk0; [subst; by rewrite decide_False |]. exact IH.
Qed.

Lemma dict_keys_set {V} (d : list (string * V)) (k : string) (v : V) :
  dict_keys (dict_set d k v)
  = if decide (k ∈ dict_keys d) then dict_keys d else dict_keys d ++ [k].
Proof.
  induction d as [|[k0 v0] d IH].
  - change (dict_keys (@nil (string * V))) with (@nil string).
    by rewrite decide_False by apply not_elem_of_nil.
  - change (dict_keys ((k0, v0) :: d)) with (k0 :: dict_keys d).
    change (dict_set ((k0, v0) :: d) k v)
      with (if decide (k0 = k) then (k, v) :: d else (k0, v0) :: dict_set d k v).
    destruct (decide (k0 = k)) as [->|Hne].
    + by rewrite decide_True by apply list_elem_of_here.
    + change (dict_keys ((k0, v0) :: dict_set d k v))
        with (k0 :: dict_keys (dict_set d k v)).
      rewrite IH. destruct (decide (k ∈ dict_keys d)) as [Hin|Hin].
      * by rewrite decide_True by by apply list_elem_of_further.
      * rewrite decide_False; [done |]. intros [?|?]%elem_of_cons; congruence.
Qed.

Lemma dict_get_elem {V} (d : list (string * V)) (k : string) (v : V) :
  NoDup (dict_keys d) → dict_get d k = inr v ↔ (k, v) ∈ d.
Proof.
  unfold dict_get, dict_keys. induction d as [|[k0 v0] d IH]; simpl; intros Hnd.
  - split; [discriminate | by intros ?%elem_of_nil].
  - apply NoDup_cons in Hnd as [Hk0 Hnd].
    rewrite elem_of_cons. case_bool_decide as Hk; simpl.
    + subst k0. split; [intros [= ->]; by left |].
      intros [[= ->]|Hin]; [done |]. exfalso. apply Hk0.
      apply list_elem_of_fmap. by exists (k, v).
    + rewrite IH by done. split; [by right | intros [[= -> ->]|?]; done].
Qed.

Lemma dict_get_is_key {V} (d : list (string * V)) (k : string) :
  k ∈ dict_keys d ↔ ∃ v, dict_get d k = inr v.
Proof.
  unfold dict_get, dict_keys. induction d as [|[k0 v0] d IH]; simpl.
  - split; [by intros ?%elem_of_nil | by intros [? [=]]].
  - rewrite elem_of_cons. case_bool_decide as Hk.
    + subst. split; [by eexists | by left].
    + rewrite IH. split; [intros [?|?]; done | by right].
Qed.

(** When [_create_weight_dict] returns, the table has one entry per
    operator name, names once each, and the entry of an operator is the
    weight the input table gives its generic action (the first word of the
    name without its bracket). *)
Theorem create_weight_dict_entries (wd nwd : list (string * Z)) (tk : Pddl.task) :
  FrankaWorld._create_weight_dict wd tk = inr nwd →
  NoDup (dict_keys nwd)
  ∧ (∀ k, k ∈ dict_keys nwd ↔ ∃ op, op ∈ Pddl.operators tk ∧ Pddl.name op = k)
  ∧ (∀ op, op ∈ Pddl.operators tk →
       ∃ g w, split_first (Pddl.name op) = inr g
              ∧ dict_get wd (drop_first g) = inr w
              ∧ dict_get nwd (Pddl.name op) = inr w).
Proof.
  unfold FrankaWorld._create_weight_dict.
  set (body := λ (new_weight_dict : list (string * Z)) (op : Pddl.operator), _).
  set (good := λ (k : string) (w : Z),
                 ∃ g, split_first k = inr g ∧ dict_get wd (drop_first g) = inr w).
  assert (Hgen : ∀ ops acc res,
            foldM_r body acc ops = inr res →
            NoDup (dict_keys acc) → (∀ k w, dict_get acc k = inr w → good k w) →
            NoDup (dict_keys res)
            ∧ (∀ k, k ∈ dict_keys res ↔ k ∈ dict_keys acc ∨ ∃ op, op ∈ ops ∧ Pddl.name op = k)
            ∧ (∀ k w, dict_get res k = inr w → good k w)).
  { induction ops as [|op ops IH]; intros acc res H Hnd Hgood; simpl in H.
    - injection H as <-. split; [done |]. split; [| done].
      intros k. split; [by left | intros [?|(op & Hop & _)]; [done |]].
      by apply elem_of_nil in Hop.
    - apply bind_inr in H as (acc1 & H1 & H). unfold body in H1.
      apply bind_inr in H1 as (g & Hg & H1). apply bind_inr in H1 as (w & Hw & H1).
      injection H1 as <-.
      apply IH in H as (Hnd' & Hkeys & Hgood').
      + split; [done |]. split; [| done]. intros k. rewrite Hkeys, dict_keys_set.
        split.
        * intros [Hk|(op' & Hop' & Hn)]; [| right; exists op'; split; [by right | done]].
          case_decide as Hin; [by left |].
          apply elem_of_app in Hk as [Hk|Hk]; [by left |].
          apply list_elem_of_singleton in Hk as ->. right. exists op. split; [by left | done].
        * intros [Hk|(op' & Hop' & Hn)].
          -- left. case_decide; [done | by apply elem_of_app; left].
          -- apply elem_of_cons in Hop' as [->|Hop']; [| right; by exists op'].
             left. subst k. case_decide as Hin; [done |].
             apply elem_of_app. right. by apply list_elem_of_singleton.
      + rewrite dict_keys_set. case_decide as Hin; [done |].
        apply NoDup_app. split; [done |]. split; [| apply NoDup_singleton].
        intros x Hx Hx'. apply list_elem_of_singleton in Hx' as ->. done.
      + intros k w'. rewrite dict_get_set. case_decide as Hk; [| by apply Hgood].
        intros [= <-]. subst k. by exists g. }
  intros H. apply Hgen in H as (Hnd & Hkeys & Hgood).
  - split; [done |]. split.
    + intros k. rewrite Hkeys. split; [intros [Hk|?]; [by apply elem_of_nil in Hk | done] |].
      by right.
    + intros op Hop.
      assert (Pddl.name op ∈ dict_keys nwd) as Hk by (apply Hkeys; right; by exists op).
      apply dict_get_is_key in Hk as [w Hw]. destruct (Hgood _ _ Hw) as (g & Hg & Hwd).
      by exists g, w.
  - apply NoDup_nil_2.
  - intros k w [=].
Qed.

Lemma create_weight_dict_entries_witness :
  ∃ nwd,
    FrankaWorld._create_weight_dict [("transit", 1%Z); ("grasp", 2%Z)] Demo.demo_task
    = inr nwd
    ∧ NoDup (dict_keys nwd).
Proof.
  eexists. split; [reflexivity |].
  exact (proj1 (create_weight_dict_entries [("transit", 1%Z); ("grasp", 2%Z)] _
                  Demo.demo_task eq_refl)).
Defined.

Lemma insert_by_weight_Permutation (x : string * Z) (l : list (string * Z)) :
  FrankaWorld.insert_by_weight x l ≡ₚ x :: l.
Proof.
  induction l as [|y l IH]; simpl; [done |].
  destruct (y.2 <=? x.2)%Z; [done |]. rewrite IH. apply Permutation_swap.
Qed.

Lemma sorted_by_weight_Permutation (l : list (string * Z)) :
  FrankaWorld.sorted_by_weight l ≡ₚ l.
Proof.
  induction l as [|x l IH]; simpl; [done |].
  by rewrite insert_by_weight_Permutation, IH.
Qed.

Lemma insert_by_weight_Sorted (x : string * Z) (l : list (string * Z)) :
  Sorted (λ a b : string * Z, (b.2 ≤ a.2)%Z) l →
  Sorted (λ a b : string * Z, (b.2 ≤ a.2)%Z) (FrankaWorld.insert_by_weight x l).
Proof.
  induction 1 as [|y l Hs IH Hhd]; simpl; [by repeat constructor |].
  destruct (Z.leb_spec y.2 x.2) as [Hle|Hlt].
  - constructor; [by constructor | by constructor].
  - constructor; [done |]. destruct l as [|z l]; simpl.
    + constructor. simpl. lia.
    + destruct (z.2 <=? x.2)%Z; constructor; [simpl; lia |].
      by apply HdRel_inv in Hhd.
Qed.

(** The table sorted for the construction has the entries of the table
    it is made from, by decreasing weight, and gives every action the
    weight it had. *)
Theorem sorted_by_weight_descending (d : list (string * Z)) :
  NoDup (dict_keys d) →
  FrankaWorld.sorted_by_weight d ≡ₚ d
  ∧ Sorted (λ a b : string * Z, (b.2 ≤ a.2)%Z) (FrankaWorld.sorted_by_weight d)
  ∧ NoDup (dict_keys (FrankaWorld.sorted_by_weight d))
  ∧ ∀ k, dict_get (FrankaWorld.sorted_by_weight d) k = dict_get d k.
Proof.
  intros Hnd.
  assert (Hperm := sorted_by_weight_Permutation d).
  assert (Hnd' : NoDup (dict_keys (FrankaWorld.sorted_by_weight d))).
  { unfold dict_keys in *. by rewrite Hperm. }
  split; [done |]. split; [| split; [done |]].
  - induction d as [|x d IH]; simpl; [constructor |].
    apply insert_by_weight_Sorted, IH.
    + unfold dict_keys in Hnd. rewrite fmap_cons in Hnd. by apply NoDup_cons in Hnd as [_ ?].
    + apply sorted_by_weight_Permutation.
    + unfold dict_keys in *. rewrite sorted_by_weight_Permutation.
      rewrite fmap_cons in Hnd. by apply NoDup_cons in Hnd as [_ ?].
  - intros k.
    destruct (dict_get d k) as [e|v] eqn:E.
    + destruct (dict_get (FrankaWorld.sorted_by_weight d) k) as [e'|v'] eqn:E'.
      * unfold dict_get in E, E'. destruct (List.find _ d); [discriminate |].
        destruct (List.find _ (FrankaWorld.sorted_by_weight d)); [discriminate |].
        congruence.
      * apply dict_get_elem in E'; [| done]. rewrite Hperm in E'.
        apply dict_get_elem in E'; [| done]. congruence.
    + apply dict_get_elem in E; [| done]. rewrite <- Hperm in E.
      by apply dict_get_elem in E.
Qed.

Lemma sorted_by_weight_descending_witness :
  FrankaWorld.sorted_by_weight [("a", 1%Z); ("b", 3%Z); ("c", 2%Z)]
  ≡ₚ [("a", 1%Z); ("b", 3%Z); ("c", 2%Z)].
Proof.
  apply (sorted_by_weight_descending [("a", 1%Z); ("b", 3%Z); ("c", 2%Z)]).
  apply NoDup_cons. split.
  { intros [[=]|[[=]|[]%elem_of_nil]%elem_of_cons]%elem_of_cons. }
  apply NoDup_cons. split.
  { intros [[=]|[]%elem_of_nil]%elem_of_cons. }
  apply NoDup_singleton.
Defined.

Lemma action_idx_map_lookup (keys : list string) :
  NoDup keys →
  ∀ idx acc k i,
    (∀ k', k' ∈ keys → acc !! k' = None) →
    Encoder.action_idx_map idx keys acc !! k = Some i
    ↔ acc !! k = Some i ∨ ∃ j, keys !! j = Some k ∧ i = idx + j.
Proof.
  induction 1 as [|a keys Ha Hnd IH]; intros idx acc k i Hfresh; simpl.
  - split; [by left | intros [?|(j & Hj & _)]; [done | by rewrite lookup_nil in Hj]].
  - rewrite IH.
    + rewrite lookup_insert. case_decide as Hk.
      * subst a. split.
        -- intros [[= <-]|(j & Hj & ->)].
           ++ right. exists 0. split; [done | lia].
           ++ by apply list_elem_of_lookup_2 in Hj.
        -- intros [Hacc|(j & Hj & ->)].
           ++ rewrite Hfresh in Hacc by by left. discriminate.
           ++ destruct j as [|j]; simpl in Hj.
              ** left. f_equal. lia.
              ** by apply list_elem_of_lookup_2 in Hj.
      * split.
        -- intros [?|(j & Hj & ->)]; [by left |]. right. exists (S j). split; [done | lia].
        -- intros [?|(j & Hj & ->)]; [by left |]. destruct j as [|j]; simpl in Hj.
           ++ congruence.
           ++ right. exists j. split; [done | lia].
    + intros k' Hk'. rewrite lookup_insert_ne by (intros ->; done).
      apply Hfresh. by right.
Qed.

(** [_initialize_adds_for_actions] numbers the actions of the weight
    table by their position: an action has the index i exactly when it is
    the i-th key, there is one empty relation per action, and so every
    action of the table has a relation of its own. *)
Theorem initialize_adds_for_actions_index (weight_dict : list (string * Z)) :
  NoDup (dict_keys weight_dict) →
  let acts := SymbolicWeightedFrankaTransitionSystem._initialize_adds_for_actions
                weight_dict in
  (∀ k i, acts.1 !! k = Some i ↔ dict_keys weight_dict !! i = Some k)
  ∧ length acts.2 = length weight_dict
  ∧ (∀ k w, dict_get weight_dict k = inr w →
       ∃ i, acts.1 !! k = Some i ∧ acts.2 !! i = Some ∅)
  ∧ (∀ k k' i, acts.1 !! k = Some i → acts.1 !! k' = Some i → k = k').
Proof.
  intros Hnd acts.
  assert (Hidx : ∀ k i, acts.1 !! k = Some i ↔ dict_keys weight_dict !! i = Some k).
  { intros k i. unfold acts. simpl. rewrite (action_idx_map_lookup _ Hnd) by done.
    rewrite lookup_empty. split.
    - intros [[=]|(j & Hj & ->)]. done.
    - intros Hi. right. by exists i. }
  split; [done |]. split; [| split].
  - unfold acts. simpl. by rewrite length_replicate.
  - intros k w Hw. assert (k ∈ dict_keys weight_dict) as Hk
      by (apply dict_get_is_key; by exists w).
    apply list_elem_of_lookup in Hk as [i Hi]. exists i. split; [by apply Hidx |].
    unfold acts. simpl. apply lookup_replicate_2.
    apply lookup_lt_Some in Hi. unfold dict_keys in Hi. by rewrite length_fmap in Hi.
  - intros k k' i Hk Hk'. apply Hidx in Hk, Hk'. congruence.
Qed.

Lemma initialize_adds_for_actions_index_witness :
  (SymbolicWeightedFrankaTransitionSystem._initialize_adds_for_actions
     [("a", 1%Z); ("b", 3%Z)]).1 !! "b" = Some 1.
Proof.
  apply (initialize_adds_for_actions_index [("a", 1%Z); ("b", 3%Z)]).
  - apply NoDup_cons. split; [| apply NoDup_singleton].
    intros [[=]|[]%elem_of_nil]%elem_of_cons.
  - reflexivity.
Defined.


(** ** More on the mutual-exclusion check and on the constructor *)

Lemma list_remove_missing (x : string) (l : list string) :
  x ∉ l → list_remove x l = inl ValueError.
Proof.
  induction l as [|y l IH]; intros Hx; simpl; [done |].
  apply not_elem_of_cons in Hx as [Hne Hx]. rewrite decide_False by done.
  by rewrite IH.
Qed.

(** [_check_exist_constraint] raises instead of answering: UnboundLocalError
    for an action that is neither a transfer nor a release, ValueError
    when the box of the action is not among the boxes, KeyError when (on b
    dloc) is not interned for one of the other boxes. *)
Theorem exist_constraint_raises (pim : gmap string nat) (boxes : list string)
    (curr_state_lbl : list nat) (action_name : string) :
  (contains "transfer" action_name = false → contains "release" action_name = false →
   SymbolicWeightedFrankaTransitionSystem._check_exist_constraint
     pim boxes curr_state_lbl action_name = inl UnboundLocalError)
  ∧ (∀ box_id dloc,
       SymbolicWeightedFrankaTransitionSystem.box_and_destination action_name
       = inr (box_id, dloc) →
       ("b" +:+ pretty box_id) ∉ boxes →
       SymbolicWeightedFrankaTransitionSystem._check_exist_constraint
         pim boxes curr_state_lbl action_name = inl ValueError)
  ∧ (∀ box_id dloc tmp bid,
       SymbolicWeightedFrankaTransitionSystem.box_and_destination action_name
       = inr (box_id, dloc) →
       list_remove ("b" +:+ pretty box_id) boxes = inr tmp →
       bid ∈ tmp →
       pim !! SymbolicWeightedFrankaTransitionSystem.on_pred bid dloc = None →
       SymbolicWeightedFrankaTransitionSystem._check_exist_constraint
         pim boxes curr_state_lbl action_name = inl KeyError).
Proof.
  unfold SymbolicWeightedFrankaTransitionSystem._check_exist_constraint.
  split; [| split].
  - intros Ht Hr. unfold SymbolicWeightedFrankaTransitionSystem.box_and_destination.
    by rewrite Ht, Hr.
  - intros box_id dloc Hbd Hnot. rewrite Hbd. simpl. by rewrite list_remove_missing.
  - intros box_id dloc tmp bid Hbd Htmp Hbid Hnone. rewrite Hbd. simpl. rewrite Htmp. simpl.
    assert (mapM_r (λ bid0, getitem pim
                      (SymbolicWeightedFrankaTransitionSystem.on_pred bid0 dloc)) tmp
            = inl KeyError) as ->; [| done].
    clear Htmp. induction tmp as [|b tmp IH]; [by apply elem_of_nil in Hbid |].
    simpl. unfold getitem at 1.
    destruct (pim !! SymbolicWeightedFrankaTransitionSystem.on_pred b dloc) eqn:Eb;
      simpl; [| done].
    apply elem_of_cons in Hbid as [->|Hbid]; [congruence |]. by rewrite IH.
Qed.

(** The constructor of the Franka class looks up the ids of the goal
    predicates although it keeps no goal diagram: a goal predicate that is
    not interned makes it raise KeyError, when the maps are built and the
    initial predicates are interned; and it raises AssertionError when the
    initial tuple is not one of the candidate states. *)
Theorem franka_init_raises (pim : gmap string nat) (curr_map : gmap State ADD)
    (tk : Pddl.task) (init_tuple : State) :
  SymbolicWeightedFrankaTransitionSystem.get_tuple_from_state pim (Pddl.initial_state tk)
  = inr init_tuple →
  (∀ g, g ∈ Pddl.goals tk → pim !! g = None →
        SymbolicWeightedFrankaTransitionSystem._initialize_sym_init_goal_states
          pim curr_map tk = inl KeyError)
  ∧ (∀ goal_tuple,
       SymbolicWeightedFrankaTransitionSystem.get_tuple_from_state pim (Pddl.goals tk)
       = inr goal_tuple →
       curr_map !! init_tuple = None →
       SymbolicWeightedFrankaTransitionSystem._initialize_sym_init_goal_states
         pim curr_map tk = inl AssertionError)
  ∧ (∀ curr next wd ts_states size maps g,
       SymbolicWeightedFrankaTransitionSystem._create_sym_var_map curr next ts_states
       = inr maps →
       g ∈ Pddl.goals tk → pim !! g = None →
       SymbolicWeightedFrankaTransitionSystem.__init__ curr next tk wd pim ts_states size
       = inl KeyError).
Proof.
  intros Hinit.
  assert (Hgoal : ∀ cm g, g ∈ Pddl.goals tk → pim !! g = None →
            SymbolicWeightedFrankaTransitionSystem._initialize_sym_init_goal_states
              pim cm tk = inl KeyError).
  { intros cm g Hg Hnone.
    unfold SymbolicWeightedFrankaTransitionSystem._initialize_sym_init_goal_states.
    rewrite Hinit. simpl.
    unfold SymbolicWeightedFrankaTransitionSystem.get_tuple_from_state.
    by rewrite (mapM_r_getitem_missing _ _ _ Hg Hnone). }
  split; [apply Hgoal |]. split.
  - intros goal_tuple Hgt Hnone.
    unfold SymbolicWeightedFrankaTransitionSystem._initialize_sym_init_goal_states.
    rewrite Hinit, Hgt. simpl. by rewrite Hnone.
  - intros curr next wd ts_states size maps g Hmaps Hg Hnone.
    unfold SymbolicWeightedFrankaTransitionSystem.__init__. rewrite Hmaps. simpl.
    by rewrite (Hgoal _ _ Hg Hnone).
Qed.

Lemma franka_init_raises_witness :
  SymbolicWeightedFrankaTransitionSystem._initialize_sym_init_goal_states
    Demo.demo_pim ∅ (Pddl.Task ["(ready l0)"] ["(on b7 l9)"] [] []) = inl KeyError.
Proof.
  apply (franka_init_raises Demo.demo_pim ∅
           (Pddl.Task ["(ready l0)"] ["(on b7 l9)"] [] []) [0] eq_refl)
    with (g := "(on b7 l9)"%string).
  - apply list_elem_of_here.
  - reflexivity.
Defined.

(** ** What every pass of the construction keeps *)

Section FrankaLoopInvariant.
Import SymbolicWeightedFrankaTransitionSystem FrankaInv FrankaRun.

Variable Lbl : Type.
Variable mk_lbl : result unit.
Variable get_lbl : State → result Lbl.
Variable get_states : gset State → list State.
Variable self : t.
Variable boxes : list string.

(** A property of the construction state that each of the updates of
    the loop keeps is kept by the loop. *)
Variable I : loop_state Lbl → Prop.

Hypothesis I_edge : ∀ st action_name v nt trs t lbl,
  I st →
  add_edge_to_action_tr self (tr_actions st) action_name v nt = inr trs →
  get_conds_from_state (pred_int_map self) nt true false = inr t →
  get_lbl t = inr lbl →
  I (LoopState (<[S (layer st) := open_at st (S (layer st)) ∪ {[nt]}]> (open_list st))
       (closed st) (layer st) trs (sym_add_state_labels st ++ [(nt, lbl)]) (expanded st)).

Hypothesis I_close : ∀ st v t lbl,
  I st →
  is_Some (predicate_add_sym_map_curr self !! v) →
  get_conds_from_state (pred_int_map self) v true false = inr t →
  get_lbl t = inr lbl →
  I (LoopState (open_list st) (closed st ∪ {[v]}) (layer st) (tr_actions st)
       (sym_add_state_labels st ++ [(v, lbl)]) (expanded st)).

Hypothesis I_take : ∀ st s,
  I st → is_Some (predicate_add_sym_map_curr self !! s) →
  I (LoopState (open_list st) (closed st) (layer st) (tr_actions st)
       (sym_add_state_labels st) (expanded st ++ [s])).

Hypothesis I_open : ∀ st,
  I st →
  I (LoopState (<[layer st := open_at st (layer st) ∖ closed st]> (open_list st))
       (closed st ∪ (open_at st (layer st) ∖ closed st)) (layer st) (tr_actions st)
       (sym_add_state_labels st) (expanded st)).

Hypothesis I_exit : ∀ st,
  I st → open_at st (layer st) ∖ closed st = ∅ →
  I (LoopState (<[layer st := ∅]> (open_list st)) (closed st) (layer st) (tr_actions st)
       (sym_add_state_labels st) (expanded st)).

Hypothesis I_next : ∀ st,
  I st →
  I (LoopState (open_list st) (closed st) (S (layer st)) (tr_actions st)
       (sym_add_state_labels st) (expanded st)).

Lemma expand_action_keeps flag curr st l op st' l' :
  expand_action Lbl get_lbl self boxes flag curr (st, l) op = inr (st', l') →
  I st →
  I st'
  ∧ (Forall (λ v, is_Some (predicate_add_sym_map_curr self !! v)) l →
     Forall (λ v, is_Some (predicate_add_sym_map_curr self !! v)) l').
Proof.
  unfold expand_action. intros H HI.
  apply bind_inr in H as (pre_tuple & Hpre & H).
  apply bind_inr in H as (necc & Hnecc & H). simpl in H.
  destruct (forallb _ pre_tuple); simpl in H; [| by injection H as <- <-].
  apply bind_inr in H as (v & Hv & H).
  apply bind_inr in H as (explored & Hexp & H).
  assert (Hrest : ∀ l2,
    (action_feas ←r (if flag && (contains "transfer" (Pddl.name op)
                                 || contains "release" (Pddl.name op))
                     then _check_exist_constraint (pred_int_map self) boxes v (Pddl.name op)
                     else ret true);
     if negb action_feas then ret (st, l2)
     else
       next_tuple ←r next_tuple_of self v op;
       _ ←r getitem (predicate_add_sym_map_nxt self) next_tuple;
       trs ←r add_edge_to_action_tr self (tr_actions st) (Pddl.name op) v next_tuple;
       next_tuple_lbl ←r get_conds_from_state (pred_int_map self) next_tuple true false;
       next_lbl_sym ←r get_lbl next_tuple_lbl;
       ret (LoopState
              (<[S (layer st) := open_at st (S (layer st)) ∪ {[next_tuple]}]> (open_list st))
              (closed st) (layer st) trs
              (sym_add_state_labels st ++ [(next_tuple, next_lbl_sym)])
              (expanded st), l2)) = inr (st', l') → I st' ∧ l' = l2).
  { intros l2 H2. apply bind_inr in H2 as (feas & Hfeas & H2).
    destruct feas; simpl in H2; [| by injection H2 as <- <-].
    apply bind_inr in H2 as (nt & Hnt & H2).
    apply bind_inr in H2 as (c & Hc & H2).
    apply bind_inr in H2 as (trs & Htrs & H2).
    apply bind_inr in H2 as (t & Ht & H2).
    apply bind_inr in H2 as (lbl & Hlbl & H2).
    injection H2 as <- <-. split; [by eapply I_edge | done]. }
  destruct explored as [[|]|].
  - by injection H as <- <-.
  - apply Hrest in H as [HI' ->]. split; [done |]. intros Hl.
    apply Forall_app. split; [done |]. apply Forall_singleton.
    case_bool_decide; [| discriminate].
    apply bind_inr in Hexp as (c & Hc & _). unfold getitem in Hc.
    destruct (predicate_add_sym_map_curr self !! v); [by eexists | discriminate].
  - apply Hrest in H as [HI' ->]. done.
Qed.

Lemma expand_state_keeps flag st s st' :
  expand_state Lbl get_lbl self boxes flag st s = inr st' → I st → I st'.
Proof.
  unfold expand_state. intros H HI.
  apply bind_inr in H as (c & Hc & H). apply bind_inr in H as (acc & Hacc & H).
  assert (I acc.1 ∧ Forall (λ v, is_Some (predicate_add_sym_map_curr self !! v)) acc.2)
    as [Hacc1 Hacc2].
  { eapply (foldM_r_inv
              (λ a, I a.1 ∧ Forall (λ v, is_Some (predicate_add_sym_map_curr self !! v)) a.2));
      [| | exact Hacc].
    - intros [s1 l1] op [s2 l2] _ [H1 Hl1] H2. simpl in *.
      destruct (expand_action_keeps _ _ _ _ _ _ _ H2 H1) as [? Hl]. split; [done | by apply Hl].
    - simpl. split; [| constructor]. apply I_take; [done |]. unfold getitem in Hc.
      destruct (predicate_add_sym_map_curr self !! s); [by eexists | discriminate]. }
  revert Hacc1 H. generalize (acc.1). induction Hacc2 as [|v l Hv _ IH]; intros s0 Hs0 H;
    simpl in H; [by injection H as <- |].
  apply bind_inr in H as (s1 & H1 & H). apply (IH s1); [| done].
  unfold close_valid_pre in H1.
  apply bind_inr in H1 as (t & Ht & H1). apply bind_inr in H1 as (lbl & Hlbl & H1).
  injection H1 as <-. by eapply I_close.
Qed.

Lemma layer_step_keeps flag st st' :
  layer_step Lbl get_lbl get_states self boxes flag st = inr st' → I st → I st'.
Proof.
  unfold layer_step. intros H HI. case_bool_decide as Ho.
  - injection H as <-. rewrite Ho. by apply I_exit.
  - apply bind_inr in H as (st1 & H1 & H). injection H as <-.
    apply I_next. eapply (foldM_r_inv I); [| | exact H1].
    + intros s1 x s2 _ Hs1 Hx. by eapply expand_state_keeps.
    + by apply (I_open st).
Qed.

Lemma while_loop_keeps flag fuel :
  ∀ st st', while_loop Lbl get_lbl get_states self boxes fuel flag st = Some (inr st') →
            I st → I st'.
Proof.
  induction fuel as [|fuel IH]; intros st st' H HI; simpl in H.
  - case_bool_decide; [| discriminate]. by injection H as <-.
  - case_bool_decide; [by injection H as <- |].
    destruct (layer_step Lbl get_lbl get_states self boxes flag st) as [e|st1] eqn:E;
      [discriminate |].
    eapply IH; [exact H |]. by eapply layer_step_keeps.
Qed.

End FrankaLoopInvariant.

Lemma open_at_elem {Lbl} (st : SymbolicWeightedFrankaTransitionSystem.loop_state Lbl)
    (l : nat) (s : State) :
  s ∈ SymbolicWeightedFrankaTransitionSystem.open_at st l →
  ∃ X, SymbolicWeightedFrankaTransitionSystem.open_list st !! l = Some X ∧ s ∈ X.
Proof.
  unfold SymbolicWeightedFrankaTransitionSystem.open_at.
  destruct (SymbolicWeightedFrankaTransitionSystem.open_list st !! l) as [X|];
    simpl; [by exists X | intros []%elem_of_empty].
Qed.

Lemma initial_loop_state_shape Lbl (mk_lbl : result unit) (get_lbl : State → result Lbl)
    (self : SymbolicWeightedFrankaTransitionSystem.t)
    (st0 : SymbolicWeightedFrankaTransitionSystem.loop_state Lbl) :
  SymbolicWeightedFrankaTransitionSystem.initial_loop_state Lbl mk_lbl get_lbl self = inr st0 →
  ∃ c init t lbl,
    SymbolicWeightedFrankaTransitionSystem.sym_add_init_states self = Some c
    ∧ SymbolicWeightedFrankaTransitionSystem.decode
        (SymbolicWeightedFrankaTransitionSystem.manager_size self)
        (SymbolicWeightedFrankaTransitionSystem.predicate_add_sym_map_curr self) c = inr init
    ∧ SymbolicWeightedFrankaTransitionSystem.get_conds_from_state
        (SymbolicWeightedFrankaTransitionSystem.pred_int_map self) init true false = inr t
    ∧ get_lbl t = inr lbl
    ∧ st0 = SymbolicWeightedFrankaTransitionSystem.LoopState {[0 := {[init]}]} ∅ 0
              (SymbolicWeightedFrankaTransitionSystem.sym_tr_actions self) [(init, lbl)] [].
Proof.
  unfold SymbolicWeightedFrankaTransitionSystem.initial_loop_state. intros H.
  apply bind_inr in H as (u & _ & H). apply bind_inr in H as (c & Hc & H).
  apply bind_inr in H as (init & Hinit & H). apply bind_inr in H as (t & Ht & H).
  apply bind_inr in H as (lbl & Hlbl & H). injection H as <-.
  exists c, init, t, lbl.
  destruct (SymbolicWeightedFrankaTransitionSystem.sym_add_init_states self) as [c'|];
    [| discriminate].
  injection Hc as ->. done.
Qed.

(** A run of the construction that returns has disjoined a label for
    every state it closed or put in an open set, so for every state it
    expanded, and every label it disjoined is the label of the world
    configuration of its state. *)
Theorem construction_labels Lbl (mk_lbl : result unit) (get_lbl : State → result Lbl)
    (get_states : gset State → list State)
    (self : SymbolicWeightedFrankaTransitionSystem.t) (boxes : list string)
    (flag : bool) (fuel : nat)
    (stF : SymbolicWeightedFrankaTransitionSystem.loop_state Lbl) :
  SymbolicWeightedFrankaTransitionSystem.create_weighted_transition_system_franka
    Lbl mk_lbl get_lbl get_states self boxes fuel flag = Some (inr stF) →
  FrankaRun.labelled Lbl stF ∧ FrankaRun.labels_ok Lbl get_lbl self stF.
Proof.
  unfold SymbolicWeightedFrankaTransitionSystem.create_weighted_transition_system_franka.
  intros H.
  destruct (SymbolicWeightedFrankaTransitionSystem.initial_loop_state Lbl mk_lbl get_lbl self)
    as [e|st0] eqn:E0; [by injection H |].
  apply initial_loop_state_shape in E0 as (c & init & t & lbl & _ & _ & Ht & Hlbl & ->).
  eapply (while_loop_keeps Lbl get_lbl get_states self boxes
            (λ st, FrankaRun.labelled Lbl st ∧ FrankaRun.labels_ok Lbl get_lbl self st));
    [.. | exact H |].
  - intros st name v nt trs t' lbl' [[Hc Ho] Hok] _ Ht' Hlbl'. split; [split |]; simpl.
    + intros s Hs. rewrite fmap_app. apply elem_of_app. left. by apply Hc.
    + intros l X s HX Hs. rewrite fmap_app. apply elem_of_app.
      rewrite lookup_insert in HX. case_decide as Hl.
      * injection HX as <-. apply elem_of_union in Hs as [Hs|Hs].
        -- apply open_at_elem in Hs as (X' & HX' & Hs). left. by eapply Ho.
        -- apply elem_of_singleton in Hs as ->. right. simpl. apply list_elem_of_here.
      * left. by eapply Ho.
    + intros s lb Hs. apply elem_of_app in Hs as [Hs|Hs]; [by apply Hok |].
      apply list_elem_of_singleton in Hs as [= -> ->]. by exists t'.
  - intros st v t' lbl' [[Hc Ho] Hok] _ Ht' Hlbl'. split; [split |]; simpl.
    + intros s Hs. rewrite fmap_app. apply elem_of_app.
      apply elem_of_union in Hs as [Hs|Hs]; [left; by apply Hc |].
      apply elem_of_singleton in Hs as ->. right. simpl. apply list_elem_of_here.
    + intros l X s HX Hs. rewrite fmap_app. apply elem_of_app. left. by eapply Ho.
    + intros s lb Hs. apply elem_of_app in Hs as [Hs|Hs]; [by apply Hok |].
      apply list_elem_of_singleton in Hs as [= -> ->]. by exists t'.
  - intros st s [[Hc Ho] Hok] _. done.
  - intros st [[Hc Ho] Hok]. split; [split |]; simpl; [| | done].
    + intros s Hs. apply elem_of_union in Hs as [Hs|Hs]; [by apply Hc |].
      apply elem_of_difference in Hs as [Hs _].
      apply open_at_elem in Hs as (X' & HX' & Hs). by eapply Ho.
    + intros l X s HX Hs. rewrite lookup_insert in HX. case_decide as Hl.
      * injection HX as <-. apply elem_of_difference in Hs as [Hs _].
        apply open_at_elem in Hs as (X' & HX' & Hs). by eapply Ho.
      * by eapply Ho.
  - intros st [[Hc Ho] Hok] _. split; [split |]; simpl; [done | | done].
    intros l X s HX Hs. rewrite lookup_insert in HX. case_decide as Hl.
    + injection HX as <-. by apply elem_of_empty in Hs.
    + by eapply Ho.
  - intros st [[Hc Ho] Hok]. done.
  - split; [split |]; simpl.
    + intros s Hs. by apply elem_of_empty in Hs.
    + intros l X s HX Hs. apply lookup_singleton_Some in HX as [_ <-].
      apply elem_of_singleton in Hs as ->. apply list_elem_of_here.
    + intros s lb Hs. apply list_elem_of_singleton in Hs as [= -> ->]. by exists t.
Qed.

Lemma construction_labels_witness :
  ∃ self st,
    Demo.demo_init = inr self
    ∧ Demo.demo_run self 5 = Some (inr st)
    ∧ FrankaRun.labelled State st.
Proof.
  destruct Demo.demo_init as [e|self] eqn:E; [vm_compute in E; discriminate |].
  destruct (Demo.demo_run self 5) as [[e|st]|] eqn:R.
  - exfalso. revert R. vm_compute in E. injection E as <-. vm_compute. discriminate.
  - exists self, st. split; [reflexivity |]. split; [exact R |].
    exact (proj1 (construction_labels State (inr ()) (λ t, inr t) elements self ["b0"]
                    true 5 st R)).
  - exfalso. revert R. vm_compute in E. injection E as <-. vm_compute. discriminate.
Defined.

(** A run of the construction keeps one relation per action, and from
    empty relations every non-zero value of a relation is the weight
    the table gives an action of that relation. *)
Theorem construction_weights Lbl (mk_lbl : result unit) (get_lbl : State → result Lbl)
    (get_states : gset State → list State)
    (self : SymbolicWeightedFrankaTransitionSystem.t) (boxes : list string)
    (flag : bool) (fuel : nat)
    (stF : SymbolicWeightedFrankaTransitionSystem.loop_state Lbl) :
  Forall (λ r, r = ∅) (SymbolicWeightedFrankaTransitionSystem.sym_tr_actions self) →
  SymbolicWeightedFrankaTransitionSystem.create_weighted_transition_system_franka
    Lbl mk_lbl get_lbl get_states self boxes fuel flag = Some (inr stF) →
  length (SymbolicWeightedFrankaTransitionSystem.tr_actions stF)
  = length (SymbolicWeightedFrankaTransitionSystem.sym_tr_actions self)
  ∧ FrankaRun.weights_ok self (SymbolicWeightedFrankaTransitionSystem.tr_actions stF).
Proof.
  unfold SymbolicWeightedFrankaTransitionSystem.create_weighted_transition_system_franka.
  intros Hempty H.
  destruct (SymbolicWeightedFrankaTransitionSystem.initial_loop_state Lbl mk_lbl get_lbl self)
    as [e|st0] eqn:E0; [by injection H |].
  apply initial_loop_state_shape in E0 as (c & init & t & lbl & _ & _ & _ & _ & ->).
  eapply (while_loop_keeps Lbl get_lbl get_states self boxes
            (λ st, length (SymbolicWeightedFrankaTransitionSystem.tr_actions st)
                   = length (SymbolicWeightedFrankaTransitionSystem.sym_tr_actions self)
                   ∧ FrankaRun.weights_ok self
                       (SymbolicWeightedFrankaTransitionSystem.tr_actions st)));
    [.. | exact H |]; try (intros; simpl; tauto).
  - intros st name v nt trs t' lbl' [Hlen Hw] Hedge _ _. simpl.
    apply add_edge_to_action_tr_inv in Hedge as (idx & old & w & Hidx & Hold & Hwd & _ & _ & ->).
    split; [by rewrite length_insert |].
    intros i r p Hr Hval. destruct (decide (i = idx)) as [->|Hne].
    + rewrite list_lookup_insert_eq in Hr by by eapply lookup_lt_Some.
      injection Hr as <-. rewrite rel_val_or_edge in Hval |- *.
      case_decide as Hp; [| by eapply Hw].
      destruct (Z.max_spec (SymbolicWeightedFrankaTransitionSystem.rel_val old (v, nt)) w)
        as [[_ Hmax]|[_ Hmax]]; rewrite Hmax in Hval |- *.
      * by exists name.
      * subst p. by eapply Hw.
    + rewrite list_lookup_insert_ne in Hr by done. by eapply Hw.
  - simpl. split; [done |]. intros i r p Hr Hval. exfalso. apply Hval.
    rewrite Forall_forall in Hempty. rewrite (Hempty r) by by eapply list_elem_of_lookup_2.
    unfold SymbolicWeightedFrankaTransitionSystem.rel_val. by rewrite lookup_empty.
Qed.

Lemma construction_weights_witness :
  ∃ self st,
    Demo.demo_init = inr self
    ∧ Demo.demo_run self 5 = Some (inr st)
    ∧ FrankaRun.weights_ok self (SymbolicWeightedFrankaTransitionSystem.tr_actions st).
Proof.
  destruct Demo.demo_init as [e|self] eqn:E; [vm_compute in E; discriminate |].
  destruct (Demo.demo_run self 5) as [[e|st]|] eqn:R.
  - exfalso. revert R. vm_compute in E. injection E as <-. vm_compute. discriminate.
  - exists self, st. split; [reflexivity |]. split; [exact R |].
    exact (proj2 (construction_weights State (inr ()) (λ t, inr t) elements self ["b0"]
                    true 5 st (init_relations_empty _ _ _ _ _ _ _ _ E) R)).
  - exfalso. revert R. vm_compute in E. injection E as <-. vm_compute. discriminate.
Defined.

(** A run of the construction that returns has closed and opened only
    states the maps have cubes for, has taken only states with a current
    cube, and has closed and expanded the initial state. *)
Theorem construction_within_states Lbl (mk_lbl : result unit)
    (get_lbl : State → result Lbl) (get_states : gset State → list State)
    (self : SymbolicWeightedFrankaTransitionSystem.t) (boxes : list string)
    (flag : bool) (fuel : nat)
    (stF : SymbolicWeightedFrankaTransitionSystem.loop_state Lbl) :
  (∀ X, NoDup (get_states X) ∧ ∀ s, s ∈ get_states X ↔ s ∈ X) →
  SymbolicWeightedFrankaTransitionSystem.create_weighted_transition_system_franka
    Lbl mk_lbl get_lbl get_states self boxes fuel flag = Some (inr stF) →
  FrankaInv.bounded Lbl self stF
  ∧ FrankaRun.expanded_encoded Lbl self stF
  ∧ ∃ c init,
      SymbolicWeightedFrankaTransitionSystem.sym_add_init_states self = Some c
      ∧ SymbolicWeightedFrankaTransitionSystem.decode
          (SymbolicWeightedFrankaTransitionSystem.manager_size self)
          (SymbolicWeightedFrankaTransitionSystem.predicate_add_sym_map_curr self) c
        = inr init
      ∧ init ∈ SymbolicWeightedFrankaTransitionSystem.closed stF
      ∧ init ∈ SymbolicWeightedFrankaTransitionSystem.expanded stF.
Proof.
  unfold SymbolicWeightedFrankaTransitionSystem.create_weighted_transition_system_franka.
  intros Hspec H.
  destruct (SymbolicWeightedFrankaTransitionSystem.initial_loop_state Lbl mk_lbl get_lbl self)
    as [e|st0] eqn:E0; [by injection H |].
  pose proof (initial_loop_state_inv _ _ _ _ _ E0) as (_ & _ & _ & _ & Hb0).
  apply initial_loop_state_shape in E0 as (c & init & t & lbl & Hc & Hinit & _ & _ & ->).
  set (flag' := if length boxes =? 1 then false else flag) in H.
  assert (Hkeep : FrankaInv.bounded Lbl self stF ∧ FrankaRun.expanded_encoded Lbl self stF).
  { eapply (while_loop_keeps Lbl get_lbl get_states self boxes
              (λ st, FrankaInv.bounded Lbl self st ∧ FrankaRun.expanded_encoded Lbl self st));
      [.. | exact H |].
    - intros st name v nt trs t' lbl' [[Hcl Ho] He] Hedge _ _. split; [split |]; simpl;
        [done | | done].
      apply add_edge_to_action_tr_inv in Hedge as (_ & _ & _ & _ & _ & _ & _ & Hnt & _).
      intros l X HX. rewrite lookup_insert in HX. case_decide as Hl; [| by eapply Ho].
      injection HX as <-. intros s Hs. apply elem_of_union in Hs as [Hs|Hs].
      + apply open_at_elem in Hs as (X' & HX' & Hs). by eapply Ho.
      + apply elem_of_singleton in Hs as ->. apply elem_of_union. right.
        by apply elem_of_dom.
    - intros st v t' lbl' [[Hcl Ho] He] Hv _ _. split; [split |]; simpl; [| done | done].
      intros s Hs. apply elem_of_union in Hs as [Hs|Hs]; [by apply Hcl |].
      apply elem_of_singleton in Hs as ->. apply elem_of_union. left. by apply elem_of_dom.
    - intros st s [[Hcl Ho] He] Hs. split; [done |]. intros s' Hs'. simpl in Hs'.
      apply elem_of_app in Hs' as [Hs'|Hs']; [by apply He |].
      by apply list_elem_of_singleton in Hs' as ->.
    - intros st [[Hcl Ho] He]. split; [split |]; simpl; [| | done].
      + intros s Hs. apply elem_of_union in Hs as [Hs|Hs]; [by apply Hcl |].
        apply elem_of_difference in Hs as [Hs _].
        apply open_at_elem in Hs as (X' & HX' & Hs). by eapply Ho.
      + intros l X HX. rewrite lookup_insert in HX. case_decide as Hl; [| by eapply Ho].
        injection HX as <-. intros s Hs. apply elem_of_difference in Hs as [Hs _].
        apply open_at_elem in Hs as (X' & HX' & Hs). by eapply Ho.
    - intros st [[Hcl Ho] He] _. split; [split |]; simpl; [done | | done].
      intros l X HX. rewrite lookup_insert in HX. case_decide as Hl; [| by eapply Ho].
      injection HX as <-. intros s Hs. by apply elem_of_empty in Hs.
    - intros st [[Hcl Ho] He]. done.
    - split; [done |]. intros s Hs. by apply elem_of_nil in Hs. }
  destruct Hkeep as [HbF HeF]. split; [done |]. split; [done |].
  exists c, init. split; [done |]. split; [done |].
  destruct fuel as [|fuel]; simpl in H.
  { rewrite bool_decide_eq_false_2 in H; [discriminate |].
    unfold SymbolicWeightedFrankaTransitionSystem.open_at. simpl.
    rewrite lookup_singleton_eq. simpl. set_solver. }
  rewrite bool_decide_eq_false_2 in H.
  2: { unfold SymbolicWeightedFrankaTransitionSystem.open_at. simpl.
       rewrite lookup_singleton_eq. simpl. set_solver. }
  match type of H with
  | match ?ls with _ => _ end = _ => destruct ls as [e|st1] eqn:E1; [discriminate |]
  end.
  assert (Hopen : SymbolicWeightedFrankaTransitionSystem.open_at
                    (SymbolicWeightedFrankaTransitionSystem.LoopState {[0 := {[init]}]} ∅ 0
                       (SymbolicWeightedFrankaTransitionSystem.sym_tr_actions self)
                       [(init, lbl)] ([] : list State)) 0 ∖ ∅ = ({[init]} : gset State)).
  { unfold SymbolicWeightedFrankaTransitionSystem.open_at. simpl.
    rewrite lookup_singleton_eq. simpl. set_solver. }
  eapply layer_step_expand in E1 as (Hc1 & _ & He1 & _); [| exact Hspec |].
  2: { simpl. rewrite Hopen. set_solver. }
  simpl in Hc1, He1. rewrite Hopen in Hc1, He1.
  assert (init ∈ SymbolicWeightedFrankaTransitionSystem.closed st1
          ∧ init ∈ SymbolicWeightedFrankaTransitionSystem.expanded st1) as Hst1.
  { split; [set_solver |]. rewrite He1. apply Hspec. set_solver. }
  eapply (while_loop_keeps Lbl get_lbl get_states self boxes
            (λ st, init ∈ SymbolicWeightedFrankaTransitionSystem.closed st
                   ∧ init ∈ SymbolicWeightedFrankaTransitionSystem.expanded st));
    [.. | exact H | exact Hst1]; simpl; try (intros; simpl; tauto).
  - intros st v t' lbl' [? ?] _ _ _. split; [set_solver | done].
  - intros st s [? ?] _. split; [done |]. apply elem_of_app. by left.
  - intros st [? ?]. split; [set_solver | done].
Qed.

Lemma construction_within_states_witness :
  ∃ self st,
    Demo.demo_init = inr self
    ∧ Demo.demo_run self 5 = Some (inr st)
    ∧ FrankaInv.bounded State self st.
Proof.
  destruct Demo.demo_init as [e|self] eqn:E; [vm_compute in E; discriminate |].
  destruct (Demo.demo_run self 5) as [[e|st]|] eqn:R.
  - exfalso. revert R. vm_compute in E. injection E as <-. vm_compute. discriminate.
  - exists self, st. split; [reflexivity |]. split; [exact R |].
    exact (proj1 (construction_within_states State (inr ()) (λ t, inr t) elements self ["b0"]
                    true 5 st elements_spec R)).
  - exfalso. revert R. vm_compute in E. injection E as <-. vm_compute. discriminate.
Defined.

(** ** When the encoder returns, and how it fails *)

Lemma dict_of_enumerate_total `{Countable K} {V} (bs : list V) (states : list K) :
  ∀ idx acc, idx + length states ≤ length bs →
    ∃ m, dict_of_enumerate bs idx states acc = inr m.
Proof.
  induction states as [|s states IH]; intros idx acc Hle; simpl in *; [by eexists |].
  unfold list_getitem. destruct (lookup_lt_is_Some_2 bs idx) as [v ->]; [lia |]. simpl.
  apply IH. lia.
Qed.

Lemma dict_of_enumerate_error `{Countable K} {V} (bs : list V) (states : list K) :
  ∀ idx acc e, dict_of_enumerate bs idx states acc = inl e → e = IndexError.
Proof.
  induction states as [|s states IH]; intros idx acc e He; simpl in He; [discriminate |].
  unfold list_getitem in He. destruct (bs !! idx) as [v|]; simpl in He.
  - by eapply IH.
  - by injection He as <-.
Qed.

Lemma dict_of_enumerate_size `{Countable K} {V} (bs : list V) (states : list K) :
  ∀ idx acc m, dict_of_enumerate bs idx states acc = inr m →
    size m ≤ size acc + length states
    ∧ (states ≠ [] → idx + length states ≤ length bs).
Proof.
  induction states as [|s states IH]; intros idx acc m Hm; simpl in Hm.
  - injection Hm as <-. simpl. split; [lia | done].
  - apply bind_inr in Hm as (v & Hv & Hm). unfold list_getitem in Hv.
    destruct (bs !! idx) as [v'|] eqn:E; [| discriminate].
    apply lookup_lt_Some in E. apply IH in Hm as [Hsz Hlen]. split.
    + etrans; [exact Hsz |].
      destruct (acc !! s) as [x|] eqn:Es.
      * rewrite map_size_insert_Some by by eexists. simpl. lia.
      * rewrite map_size_insert_None by done. simpl. lia.
    + intros _. simpl. destruct states as [|s' states]; [simpl; lia |].
      specialize (Hlen ltac:(done)). lia.
Qed.

Lemma val_list_total (vars : list nat) (pat : list bool) :
  ∀ idx, idx + length pat ≤ length vars →
    ∃ l, Encoder.val_list vars idx pat = inr l ∧ length l = length pat.
Proof.
  induction pat as [|b pat IH]; intros idx Hle; simpl in *; [by eexists |].
  unfold list_getitem. destruct (lookup_lt_is_Some_2 vars idx) as [v ->]; [lia |]. simpl.
  destruct (IH (S idx)) as (l & -> & Hl); [lia |]. simpl.
  eexists. split; [done |]. simpl. by rewrite Hl.
Qed.

Lemma val_list_short (vars : list nat) (pat : list bool) :
  ∀ idx, idx ≤ length vars → length vars < idx + length pat →
    Encoder.val_list vars idx pat = inl IndexError.
Proof.
  induction pat as [|b pat IH]; intros idx Hle Hlt; simpl in *; [lia |].
  unfold list_getitem. destruct (vars !! idx) as [v|] eqn:E; simpl; [| done].
  apply lookup_lt_Some in E. rewrite IH; [done | lia | lia].
Qed.

Lemma val_list_error (vars : list nat) (pat : list bool) :
  ∀ idx e, Encoder.val_list vars idx pat = inl e → e = IndexError.
Proof.
  induction pat as [|b pat IH]; intros idx e He; simpl in He; [discriminate |].
  unfold list_getitem in He. destruct (vars !! idx) as [v|]; simpl in He;
    [| by injection He as <-].
  destruct (Encoder.val_list vars (S idx) pat) as [e'|l] eqn:E; simpl in He; [| discriminate].
  injection He as <-. by eapply IH.
Qed.

Lemma cube_total (vars : list nat) (pat : list bool) :
  pat ≠ [] → length pat ≤ length vars → ∃ d, Encoder.cube vars pat = inr d.
Proof.
  intros Hne Hle. unfold Encoder.cube.
  destruct (val_list_total vars pat 0) as (l & -> & Hl); [lia |]. simpl.
  destruct l as [|x l]; [by destruct pat | by eexists].
Qed.

Lemma cube_error (vars : list nat) (pat : list bool) (e : exn) :
  Encoder.cube vars pat = inl e → e = IndexError ∨ e = TypeError.
Proof.
  unfold Encoder.cube. intros He.
  destruct (Encoder.val_list vars 0 pat) as [e'|l] eqn:E; simpl in He.
  - injection He as <-. left. by eapply val_list_error.
  - destruct l; simpl in He; [injection He as <-; by right | discriminate].
Qed.

Lemma mapM_r_error {A B} (f : A → result B) (l : list A) (e : exn) :
  mapM_r f l = inl e → ∃ a, a ∈ l ∧ f a = inl e.
Proof.
  induction l as [|a l IH]; simpl; [discriminate |]. intros He.
  destruct (f a) as [e'|b] eqn:Ea; simpl in He.
  - injection He as <-. exists a. split; [by left | done].
  - destruct (mapM_r f l) as [e'|bs]; simpl in He; [| discriminate].
    injection He as <-. destruct IH as (a' & Ha' & Hf); [done |].
    exists a'. split; [by right | done].
Qed.

Lemma map_mapM_total `{Countable K} {A B} (f : A → result B) (m : gmap K A) :
  (∀ k a, m !! k = Some a → ∃ b, f a = inr b) → ∃ m', map_mapM f m = inr m'.
Proof.
  intros Hf. unfold map_mapM.
  destruct (mapM_r_total (λ kv : K * A, b ←r f kv.2; ret (kv.1, b)) (map_to_list m))
    as [l ->]; [| by eexists].
  apply Forall_forall. intros [k a] Hka. apply elem_of_map_to_list in Hka.
  destruct (Hf _ _ Hka) as [b Hb]. simpl. rewrite Hb. by eexists.
Qed.

Lemma map_mapM_error `{Countable K} {A B} (f : A → result B) (m : gmap K A) (e : exn) :
  map_mapM f m = inl e → ∃ k a, m !! k = Some a ∧ f a = inl e.
Proof.
  unfold map_mapM. intros He.
  destruct (mapM_r _ (map_to_list m)) as [e'|l] eqn:E; simpl in He; [| discriminate].
  injection He as <-. apply mapM_r_error in E as ([k a] & Hka & Hf).
  apply elem_of_map_to_list in Hka. exists k, a. split; [done |].
  simpl in Hf. destruct (f a); simpl in Hf; [by injection Hf as -> | discriminate].
Qed.

Lemma map_mapM_all_fail `{Countable K} {A B} (f : A → result B) (m : gmap K A) :
  m ≠ ∅ → (∀ k a, m !! k = Some a → raised (f a)) → raised (map_mapM f m).
Proof.
  intros Hne Hf. destruct (map_mapM f m) as [e|m'] eqn:E; [by exists e |].
  exfalso. apply map_mapM_lookup in E as [_ Hall].
  apply map_choose in Hne as (k & a & Hka).
  destruct (Hall _ _ Hka) as [b Hb]. destruct (Hf _ _ Hka) as [e He]. congruence.
Qed.

(** With at least one current variable, no fewer next variables and
    no more states than bit patterns, [_create_sym_var_map] returns, and
    the two maps have a cube for exactly the states given. The variables
    are distinct, as the manager makes them. *)
Theorem create_sym_var_map_returns (curr next : list nat) (ts_states : list State) :
  NoDup curr → NoDup next →
  0 < length curr → length curr ≤ length next →
  length ts_states ≤ 2 ^ length curr →
  ∃ c n,
    SymbolicWeightedFrankaTransitionSystem._create_sym_var_map curr next ts_states
    = inr (c, n)
    ∧ (∀ s, s ∈ ts_states ↔ is_Some (c !! s))
    ∧ (∀ s, s ∈ ts_states ↔ is_Some (n !! s)).
Proof.
  intros _ _ Hpos Hnext Hcap.
  unfold SymbolicWeightedFrankaTransitionSystem._create_sym_var_map.
  assert (∃ cn, Encoder.create_sym_var_map curr next ts_states = inr cn) as [[c n] Hcn].
  { unfold Encoder.create_sym_var_map.
    destruct (dict_of_enumerate_total (product_10 (length curr)) ts_states 0 ∅) as [m Hm];
      [rewrite length_product_10; simpl; lia |].
    rewrite Hm. simpl.
    pose proof (dict_of_enumerate_size _ _ _ _ _ Hm) as [Hsz _].
    rewrite map_size_empty, length_product_10 in *.
    destruct (Nat.leb_spec (size m) (2 ^ length curr)) as [_|Hbad]; [| simpl in *; lia].
    simpl.
    assert (Hpat : ∀ k a, m !! k = Some a → length a = length curr).
    { intros k a Hka.
      destruct (dict_of_enumerate_lookup _ _ _ _ _ _ _ Hm Hka) as [Hemp|(i & _ & Hi)];
        [by rewrite lookup_empty in Hemp |].
      apply elem_of_product_10. by eapply list_elem_of_lookup_2. }
    destruct (map_mapM_total (Encoder.cube curr) m) as [c ->].
    { intros k a Hka. apply cube_total; [| by rewrite (Hpat _ _ Hka)].
      intros ->. specialize (Hpat _ _ Hka). simpl in Hpat. lia. }
    destruct (map_mapM_total (Encoder.cube next) m) as [n ->].
    { intros k a Hka. apply cube_total; [| rewrite (Hpat _ _ Hka); lia].
      intros ->. specialize (Hpat _ _ Hka). simpl in Hpat. lia. }
    simpl. by eexists. }
  exists c, n. split; [done |].
  destruct (create_sym_var_map_inv _ _ _ _ _ Hcn) as (pat & Hdom & Hc & Hct & Hn & Hnt).
  split; intros s; rewrite Hdom; split.
  - intros [a Ha]. destruct (Hct _ _ Ha) as [b Hb]. exists b. apply Hc. eauto.
  - intros [b Hb]. apply Hc in Hb as (a & Ha & _). by exists a.
  - intros [a Ha]. destruct (Hnt _ _ Ha) as [b Hb]. exists b. apply Hn. eauto.
  - intros [b Hb]. apply Hn in Hb as (a & Ha & _). by exists a.
Qed.

Lemma create_sym_var_map_returns_witness :
  ∃ c n,
    SymbolicWeightedFrankaTransitionSystem._create_sym_var_map [0; 2] [1; 3]
      [[0; 1]; [1]; [2]] = inr (c, n)
    ∧ is_Some (c !! [1]).
Proof.
  destruct (create_sym_var_map_returns [0; 2] [1; 3] [[0; 1]; [1]; [2]])
    as (c & n & Hcn & Hc & _).
  - apply NoDup_cons. split; [| apply NoDup_singleton].
    intros [[=]|[]%elem_of_nil]%elem_of_cons.
  - apply NoDup_cons. split; [| apply NoDup_singleton].
    intros [[=]|[]%elem_of_nil]%elem_of_cons.
  - simpl. lia.
  - simpl. lia.
  - simpl. lia.
  - exists c, n. split; [exact Hcn |]. apply Hc. apply list_elem_of_further, list_elem_of_here.
Defined.

(** [_create_sym_var_map] never fails its assertion: more states than
    bit patterns raise IndexError before it is reached, and the only
    other failure is the TypeError of an empty conjunction. It fails
    for states without variables, and for fewer next than current
    variables. *)
Theorem create_sym_var_map_failures (curr next : list nat) (ts_states : list State) :
  NoDup curr → NoDup next →
  (∀ e, SymbolicWeightedFrankaTransitionSystem._create_sym_var_map curr next ts_states
        = inl e → e = IndexError ∨ e = TypeError)
  ∧ (curr = [] → ts_states ≠ [] →
     raised (SymbolicWeightedFrankaTransitionSystem._create_sym_var_map curr next ts_states))
  ∧ (length next < length curr → ts_states ≠ [] →
     raised (SymbolicWeightedFrankaTransitionSystem._create_sym_var_map curr next ts_states)).
Proof.
  intros _ _. unfold SymbolicWeightedFrankaTransitionSystem._create_sym_var_map,
    Encoder.create_sym_var_map.
  destruct (dict_of_enumerate (product_10 (length curr)) 0 ts_states ∅) as [e0|m] eqn:Hm;
    simpl.
  { apply dict_of_enumerate_error in Hm as ->.
    split; [intros e [= <-]; by left |]. split; intros; by eexists. }
  pose proof (dict_of_enumerate_size _ _ _ _ _ Hm) as [Hsz Hlen].
  rewrite map_size_empty, length_product_10 in *.
  assert (Hle : size m ≤ 2 ^ length curr).
  { destruct ts_states as [|s l]; [simpl in Hsz; lia |].
    specialize (Hlen ltac:(done)). simpl in *. lia. }
  destruct (Nat.leb_spec (size m) (2 ^ length curr)) as [_|Hbad]; [| lia]. simpl.
  assert (Hpat : ∀ k a, m !! k = Some a → length a = length curr).
  { intros k a Hka.
    destruct (dict_of_enumerate_lookup _ _ _ _ _ _ _ Hm Hka) as [Hemp|(i & _ & Hi)];
      [by rewrite lookup_empty in Hemp |].
    apply elem_of_product_10. by eapply list_elem_of_lookup_2. }
  assert (Hne : ts_states ≠ [] → m ≠ ∅).
  { intros Hs ->. destruct ts_states as [|s l]; [done |].
    destruct (proj2 (dict_of_enumerate_dom _ _ _ _ _ s Hm)) as [a Ha];
      [right; by left | by rewrite lookup_empty in Ha]. }
  split; [| split].
  - intros e He.
    destruct (map_mapM (Encoder.cube curr) m) as [e1|c] eqn:Ec; simpl in He.
    { injection He as <-. apply map_mapM_error in Ec as (k & a & _ & Hf).
      by eapply cube_error. }
    destruct (map_mapM (Encoder.cube next) m) as [e2|n] eqn:En; simpl in He; [| discriminate].
    injection He as <-. apply map_mapM_error in En as (k & a & _ & Hf).
    by eapply cube_error.
  - intros -> Hs. apply bind_raised. apply map_mapM_all_fail; [by apply Hne |].
    intros k a Hka. specialize (Hpat _ _ Hka). destruct a; [| discriminate].
    by exists TypeError.
  - intros Hlt Hs.
    destruct (map_mapM (Encoder.cube curr) m) as [e1|c] eqn:Ec; simpl; [by eexists |].
    apply bind_raised. apply map_mapM_all_fail; [by apply Hne |].
    intros k a Hka. specialize (Hpat _ _ Hka). exists IndexError.
    unfold Encoder.cube. rewrite val_list_short; [done | lia | simpl; lia].
Qed.

Lemma create_sym_var_map_failures_witness :
  raised (SymbolicWeightedFrankaTransitionSystem._create_sym_var_map [0] [] [[0; 1]]).
Proof.
  apply (create_sym_var_map_failures [0] [] [[0; 1]]).
  - apply NoDup_singleton.
  - apply NoDup_nil_2.
  - simpl. lia.
  - discriminate.
Defined.

(** ** The initial and goal diagrams of the direct mode *)

Lemma reduce_opt_None (op : ADD → ADD → ADD) (l : list (option ADD)) :
  2 ≤ length l → None ∈ l →
  SymbolicWeightedTransitionSystem.reduce_opt op l = inl TypeError.
Proof.
  destruct l as [|o os]; simpl; [lia |]. intros Hlen Hin.
  assert (Hgen : ∀ os o, os ≠ [] → (o = None ∨ None ∈ os) →
            foldM_r (SymbolicWeightedTransitionSystem.opt_op op) o os = inl TypeError).
  { clear. induction os as [|y r IH]; intros o Hne Hin; [done |]. simpl.
    destruct o as [x|]; [| done]. destruct y as [y|]; [| done]. simpl.
    destruct Hin as [|Hin]; [done |].
    apply elem_of_cons in Hin as [|Hin]; [done |].
    apply IH; [| by right]. intros ->. by apply elem_of_nil in Hin. }
  apply Hgen.
  - destruct os; [simpl in Hlen; lia | done].
  - apply elem_of_cons in Hin as [<-|Hin]; [by left | by right].
Qed.

Lemma reduce_opt_error (op : ADD → ADD → ADD) (l : list (option ADD)) (e : exn) :
  SymbolicWeightedTransitionSystem.reduce_opt op l = inl e → e = TypeError.
Proof.
  destruct l as [|o os]; simpl; [by intros [= <-] |].
  revert o. induction os as [|y r IH]; intros o H; simpl in H; [discriminate |].
  destruct o as [x|]; [| by injection H as <-].
  destruct y as [y|]; [| by injection H as <-]. simpl in H. by eapply IH.
Qed.

(** [_initialize_sym_init_goal_states] of the direct mode raises TypeError
    for a task without initial facts or without goals, and for two or
    more facts of which one has no cube. A lone fact without a cube does
    not raise: the diagram is then None. With a cube for every fact the
    two diagrams are the disjunctions of the cubes. *)
Theorem direct_init_goal_states (curr_map : gmap string ADD) (tk : Pddl.task) :
  (Pddl.initial_state tk = [] →
   SymbolicWeightedTransitionSystem._initialize_sym_init_goal_states curr_map tk
   = inl TypeError)
  ∧ (Pddl.goals tk = [] →
     SymbolicWeightedTransitionSystem._initialize_sym_init_goal_states curr_map tk
     = inl TypeError)
  ∧ (∀ s g, Pddl.initial_state tk = [s] → Pddl.goals tk = [g] →
       SymbolicWeightedTransitionSystem._initialize_sym_init_goal_states curr_map tk
       = inr (curr_map !! s, curr_map !! g))
  ∧ (∀ s, 2 ≤ length (Pddl.initial_state tk) → s ∈ Pddl.initial_state tk →
       curr_map !! s = None →
       SymbolicWeightedTransitionSystem._initialize_sym_init_goal_states curr_map tk
       = inl TypeError)
  ∧ (∀ i is_ g gs ci cis cg cgs,
       Pddl.initial_state tk = i :: is_ → Pddl.goals tk = g :: gs →
       Forall2 (λ s c, curr_map !! s = Some c) (i :: is_) (ci :: cis) →
       Forall2 (λ s c, curr_map !! s = Some c) (g :: gs) (cg :: cgs) →
       SymbolicWeightedTransitionSystem._initialize_sym_init_goal_states curr_map tk
       = inr (Some (fold_left dd_or cis ci), Some (fold_left dd_or cgs cg))).
Proof.
  unfold SymbolicWeightedTransitionSystem._initialize_sym_init_goal_states.
  split; [| split; [| split; [| split]]].
  - by intros ->.
  - intros ->. simpl.
    destruct (SymbolicWeightedTransitionSystem.reduce_opt dd_or _) as [e|o] eqn:E; [| done].
    by apply reduce_opt_error in E as ->.
  - by intros s g -> ->.
  - intros s Hlen Hs Hnone. rewrite reduce_opt_None; [done | by rewrite length_fmap |].
    apply list_elem_of_fmap. by exists s.
  - intros i is_ g gs ci cis cg cgs -> -> Hi Hg.
    assert (Hmap : ∀ l cs, Forall2 (λ s c, curr_map !! s = Some c) l cs →
              (λ s, curr_map !! s) <$> l = Some <$> cs).
    { intros l cs Hf. induction Hf as [|s c l cs Hs _ IH]; [done |].
      by rewrite !fmap_cons, Hs, IH. }
    rewrite (Hmap _ _ Hi), (Hmap _ _ Hg), !reduce_opt_Some. done.
Qed.

(** ** The variables of a label pool *)

(** [_create_symbolic_lbl_vars] raises ValueError for an empty pool.
    The variables it returns have the indices that follow those of the
    manager, in order: they are distinct, none is a variable the manager
    had, and they are enough to tell the labels of the pool apart. *)
Theorem lbl_vars_fresh {A} (manager_size : nat) (state_lbls : list A) :
  (state_lbls = [] →
   FrankaWorld._create_symbolic_lbl_vars manager_size state_lbls = inl ValueError)
  ∧ (∀ vars,
       FrankaWorld._create_symbolic_lbl_vars manager_size state_lbls = inr vars →
       (∀ i v, vars !! i = Some v → v = manager_size + i)
       ∧ NoDup vars
       ∧ Forall (λ v, manager_size ≤ v) vars
       ∧ length state_lbls ≤ 2 ^ length vars).
Proof.
  unfold FrankaWorld._create_symbolic_lbl_vars, FrankaWorld.ceil_log2. split.
  - by intros ->.
  - intros vars H. destruct (Nat.eqb_spec (length state_lbls) 0) as [|Hne];
      [discriminate |]. simpl in H. injection H as <-.
    set (num := if Nat.log2_up (length state_lbls) =? 0
                then Nat.log2_up (length state_lbls) + 1
                else Nat.log2_up (length state_lbls)).
    assert (Hidx : ∀ i v, ((λ num_var, num_var + manager_size) <$> seq 0 num) !! i = Some v →
                          v = manager_size + i).
    { intros i v Hi. rewrite list_lookup_fmap in Hi.
      destruct (seq 0 num !! i) as [j|] eqn:Ej; [| discriminate].
      apply lookup_seq in Ej as [-> _]. injection Hi as <-. lia. }
    split; [done |]. split; [| split].
    + apply NoDup_fmap_2; [intros x y; lia | apply NoDup_seq].
    + apply Forall_forall. intros v Hv. apply list_elem_of_lookup in Hv as [i Hi].
      apply Hidx in Hi. lia.
    + rewrite length_fmap, length_seq.
      assert (length state_lbls ≤ 2 ^ Nat.log2_up (length state_lbls)) as Hle.
      { destruct (decide (length state_lbls = 1)) as [->|Hne1]; [simpl; lia |].
        apply Nat.log2_up_spec. lia. }
      unfold num. destruct (Nat.eqb_spec (Nat.log2_up (length state_lbls)) 0) as [E|_];
        [| done].
      rewrite E in Hle |- *. simpl in *. lia.
Qed.

(** ** The loop of the direct mode *)




Lemma conj_sym_present (m : gmap string ADD) (ps : list string) :
  Forall (λ p, is_Some (m !! p)) ps →
  ∃ d, SymbolicWeightedTransitionSystem.conj_sym ((λ p, m !! p) <$> ps) = inr (Some d).
Proof.
  intros Hps. unfold SymbolicWeightedTransitionSystem.conj_sym. rewrite length_fmap.
  destruct ps as [|p ps]; [simpl; by eexists |].
  destruct (lookups_all_Some m (p :: ps) Hps) as (cubes & Heq & Hf).
  destruct cubes as [|c cubes]; [by apply Forall2_nil_inv_r in Hf |].
  rewrite Heq. cbn [length Nat.eqb negb]. rewrite reduce_opt_Some. by eexists.
Qed.

Lemma del_sym_of_present (m : gmap string ADD) (ps : list string) :
  Forall (λ p, is_Some (m !! p)) ps →
  ∃ d, SymbolicWeightedTransitionSystem.del_sym_of ((λ p, m !! p) <$> ps) = inr (Some d).
Proof.
  intros Hps. unfold SymbolicWeightedTransitionSystem.del_sym_of. rewrite length_fmap.
  destruct ps as [|p ps]; [simpl; by eexists |].
  destruct (lookups_all_Some m (p :: ps) Hps) as (cubes & Heq & Hf).
  destruct cubes as [|c cubes]; [by apply Forall2_nil_inv_r in Hf |].
  rewrite Heq. cbn [length Nat.eqb negb]. rewrite reduce_opt_Some. by eexists.
Qed.

(** A precondition without a cube makes [build_actions_tr_func_weighted]
    raise: TypeError from the conjunction when there are two preconditions
    or more; when it is the only one the lookup gives None without
    raising, the name of the action is checked, and the call ends with
    AttributeError where the diagram is tested for zero. *)
Theorem missing_precondition_raises (negate : ADD → ADD)
    (self : SymbolicWeightedTransitionSystem.t) (op : Pddl.operator) (p : string) :
  p ∈ Pddl.preconditions op →
  SymbolicWeightedTransitionSystem.predicate_add_sym_map_curr self !! p = None →
  (2 ≤ length (Pddl.preconditions op) →
   SymbolicWeightedTransitionSystem.build_actions_tr_func_weighted negate self op
   = inl TypeError)
  ∧ (∀ g, length (Pddl.preconditions op) = 1 →
       Forall (λ q, is_Some (SymbolicWeightedTransitionSystem.predicate_add_sym_map_nxt self
                               !! q)) (Pddl.add_effects op) →
       Forall (λ q, is_Some (SymbolicWeightedTransitionSystem.predicate_add_sym_map_nxt self
                               !! q)) (Pddl.del_effects op) →
       split_first (Pddl.name op) = inr g →
       drop_first g ∈ dict_keys (SymbolicWeightedTransitionSystem.weight_dict self) →
       SymbolicWeightedTransitionSystem.build_actions_tr_func_weighted negate self op
       = inl AttributeError).
Proof.
  intros Hp Hnone. unfold SymbolicWeightedTransitionSystem.build_actions_tr_func_weighted.
  split.
  - intros Hlen. unfold SymbolicWeightedTransitionSystem.conj_sym at 1.
    rewrite length_fmap. destruct (Nat.eqb_spec (length (Pddl.preconditions op)) 0) as [E|_];
      [lia |]. simpl.
    rewrite reduce_opt_None; [done | by rewrite length_fmap |].
    apply list_elem_of_fmap. by exists p.
  - intros g Hlen Hadd Hdel Hg Hkey.
    destruct (Pddl.preconditions op) as [|p' [|? ?]] eqn:Epre; simpl in Hlen; try lia.
    apply list_elem_of_singleton in Hp as <-.
    destruct (conj_sym_present _ _ Hadd) as [a ->].
    destruct (del_sym_of_present _ _ Hdel) as [d ->].
    simpl. rewrite Hnone, Hg. simpl. by rewrite bool_decide_eq_true_2.
Qed.

Lemma missing_precondition_raises_witness :
  SymbolicWeightedTransitionSystem.build_actions_tr_func_weighted (λ d, d)
    (SymbolicWeightedTransitionSystem.Self [0] [1] 2 DirectSpec.four_facts
       [("move", addConst 2)] {["move" := 0]} None None [addZero] ∅ ∅)
    (Pddl.Operator "(move a b)" ["f0"] [] [])
  = inl AttributeError.
Proof.
  apply (missing_precondition_raises (λ d, d)
           (SymbolicWeightedTransitionSystem.Self [0] [1] 2 DirectSpec.four_facts
              [("move", addConst 2)] {["move" := 0]} None None [addZero] ∅ ∅)
           (Pddl.Operator "(move a b)" ["f0"] [] []) "f0") with (g := "(move"%string).
  - apply list_elem_of_here.
  - reflexivity.
  - reflexivity.
  - constructor.
  - constructor.
  - reflexivity.
  - simpl. apply list_elem_of_here.
Defined.

(** ** The parsers of box and location *)

Lemma take_digits_all_digits (s : string) :
  RegexSem.all_digits (FiniteTransitionSystem.take_digits s) = true.
Proof.
  induction s as [|c r IH]; simpl; [done |].
  destruct (FiniteTransitionSystem.is_digit c) eqn:E; simpl; [by rewrite E | done].
Qed.

Lemma take_digits_of_digits (s : string) :
  RegexSem.all_digits s = true → FiniteTransitionSystem.take_digits s = s.
Proof.
  induction s as [|c r IH]; simpl; [done |]. intros [Hc Hr]%andb_true_iff.
  by rewrite Hc, IH.
Qed.

Lemma re_search_head (cls : ascii → bool) (s : string) :
  FiniteTransitionSystem.re_search cls s = head (FiniteTransitionSystem.re_findall cls s).
Proof.
  induction s as [|c r IH]; simpl; [done |].
  destruct (FiniteTransitionSystem.take_digits r); [done |]. by destruct (cls c).
Qed.

Lemma re_findall_tokens (cls : ascii → bool) (s : string) :
  Forall (RegexSem.is_token cls) (FiniteTransitionSystem.re_findall cls s).
Proof.
  induction s as [|c r IH]; simpl; [constructor |].
  destruct (FiniteTransitionSystem.take_digits r) as [|d ds] eqn:E; [done |].
  destruct (cls c) eqn:Ec; [| done]. constructor; [| done].
  exists c, (String d ds). split; [done |]. split; [done |]. split; [done |].
  rewrite <- E. apply take_digits_all_digits.
Qed.

Lemma re_search_token (cls : ascii → bool) (s m : string) :
  FiniteTransitionSystem.re_search cls s = Some m → RegexSem.is_token cls m.
Proof.
  rewrite re_search_head. intros Hm.
  pose proof (re_findall_tokens cls s) as Hall.
  destruct (FiniteTransitionSystem.re_findall cls s) as [|x l]; [discriminate |].
  injection Hm as <-. by apply Forall_cons in Hall as [? _].
Qed.

Lemma box_class_not_digit (c : ascii) :
  FiniteTransitionSystem.box_class c = true → FiniteTransitionSystem.is_digit c = false.
Proof.
  unfold FiniteTransitionSystem.box_class.
  intros [[H|H]%orb_true_iff|H]%orb_true_iff; apply bool_decide_eq_true in H; by subst.
Qed.

Lemma re_search_digits_token (m : string) :
  RegexSem.is_token FiniteTransitionSystem.box_class m →
  ∃ c ds, m = String c ds ∧ ds ≠ EmptyString ∧ RegexSem.all_digits ds = true
          ∧ FiniteTransitionSystem.re_search_digits m = Some ds.
Proof.
  intros (c & ds & -> & Hc & Hne & Hds). exists c, ds. do 3 (split; [done |]).
  simpl. rewrite (box_class_not_digit _ Hc).
  destruct ds as [|d ds]; [done |]. simpl in *.
  apply andb_true_iff in Hds as [Hd Hds]. by rewrite Hd, take_digits_of_digits.
Qed.

(** The two parsers of an action or predicate string agree. Without a
    box token (b, B or a bar, then digits) [_get_box_location] raises
    AttributeError and [_get_multiple_box_location] UnboundLocalError;
    with one, both return, with the number its digits spell as the box
    id, and neither raises for its digits. The locations returned are
    location tokens, and the location of [_get_box_location] is the first
    of those of [_get_multiple_box_location], the empty string when
    there is none. *)
Theorem box_location_parsers_agree (s : string) :
  (FiniteTransitionSystem.re_search FiniteTransitionSystem.box_class s = None →
   FiniteTransitionSystem._get_box_location s = inl AttributeError
   ∧ FiniteTransitionSystem._get_multiple_box_location s = inl UnboundLocalError)
  ∧ (∀ m, FiniteTransitionSystem.re_search FiniteTransitionSystem.box_class s = Some m →
       ∃ c ds,
         m = String c ds ∧ FiniteTransitionSystem.box_class c = true
         ∧ ds ≠ EmptyString ∧ RegexSem.all_digits ds = true
         ∧ FiniteTransitionSystem._get_box_location s
           = inr (FiniteTransitionSystem.int_of_digits ds,
                  default EmptyString
                    (head (FiniteTransitionSystem.re_findall
                             FiniteTransitionSystem.loc_class s)))
         ∧ FiniteTransitionSystem._get_multiple_box_location s
           = inr (FiniteTransitionSystem.int_of_digits ds,
                  FiniteTransitionSystem.re_findall FiniteTransitionSystem.loc_class s))
  ∧ Forall (RegexSem.is_token FiniteTransitionSystem.loc_class)
      (FiniteTransitionSystem.re_findall FiniteTransitionSystem.loc_class s)
  ∧ (∀ e, FiniteTransitionSystem._get_multiple_box_location s = inl e →
          e = UnboundLocalError).
Proof.
  unfold FiniteTransitionSystem._get_box_location,
    FiniteTransitionSystem._get_multiple_box_location.
  split; [| split; [| split]].
  - intros ->. done.
  - intros m Hm. rewrite Hm. simpl.
    pose proof (re_search_token _ _ _ Hm) as Htok.
    destruct (re_search_digits_token m Htok) as (c & ds & -> & Hne & Hds & Hsd).
    destruct Htok as (c' & ds' & [= <- <-] & Hc & _ & _).
    exists c, ds. do 4 (split; [done |]).
    rewrite Hsd, <- re_search_head. done.
  - apply re_findall_tokens.
  - intros e He.
    destruct (FiniteTransitionSystem.re_search FiniteTransitionSystem.box_class s)
      as [m|] eqn:Hm; [| by injection He as <-].
    pose proof (re_search_token _ _ _ Hm) as Htok.
    destruct (re_search_digits_token m Htok) as (c & ds & -> & _ & _ & Hsd).
    rewrite Hsd in He. discriminate.
Qed.

(** ** The candidate states of the Franka abstraction *)

Lemma mapM_r_app {A B} (f : A → result B) (l1 l2 : list A) :
  mapM_r f (l1 ++ l2)
  = (a ←r mapM_r f l1; b ←r mapM_r f l2; ret (a ++ b)).
Proof.
  induction l1 as [|x l1 IH]; simpl.
  - by destruct (mapM_r f l2).
  - destruct (f x) as [e|y]; simpl; [done |]. rewrite IH.
    destruct (mapM_r f l1) as [e|a]; simpl; [done |].
    by destruct (mapM_r f l2).
Qed.

Lemma mapM_r_ext {A B} (f g : A → result B) (l : list A) :
  (∀ x, f x = g x) → mapM_r f l = mapM_r g l.
Proof. intros Hfg. induction l as [|x l IH]; simpl; [done |]. by rewrite Hfg, IH. Qed.

Lemma mapM_r_fails {A B} (f : A → result B) (l : list A) (x : A) (e : exn) :
  x ∈ l → f x = inl e → (∀ y e', f y = inl e' → e' = e) → mapM_r f l = inl e.
Proof.
  intros Hx Hfx Honly. destruct (mapM_r f l) as [e'|l'] eqn:E.
  - apply mapM_r_error in E as (a & _ & Ha). by rewrite (Honly _ _ Ha).
  - apply mapM_r_inr in E. apply list_elem_of_lookup in Hx as [i Hi].
    destruct (Forall2_lookup_l _ _ _ _ _ E Hi) as (b & _ & Hb). congruence.
Qed.

Lemma mapM_r_getitem_error `{Countable K} {V} (m : gmap K V) (l : list K) (e : exn) :
  mapM_r (getitem m) l = inl e → e = KeyError.
Proof.
  intros He. apply mapM_r_error in He as (k & _ & Hk). unfold getitem in Hk.
  destruct (m !! k); [discriminate | by injection Hk as <-].
Qed.

Lemma state_tuple_body (pim : gmap string nat) (c : FrankaWorld.combo * FrankaWorld.combo) :
  (tmp1 ←r mapM_r (getitem pim) (FrankaWorld.combo_preds c.1);
   tmp2 ←r mapM_r (getitem pim) (FrankaWorld.combo_preds c.2);
   ret (sorted (tmp1 ++ tmp2)))
  = SymbolicWeightedFrankaTransitionSystem.get_tuple_from_state pim
      (FrankaWorld.combo_preds c.1 ++ FrankaWorld.combo_preds c.2).
Proof.
  unfold SymbolicWeightedFrankaTransitionSystem.get_tuple_from_state.
  rewrite mapM_r_app.
  destruct (mapM_r (getitem pim) (FrankaWorld.combo_preds c.1)) as [e|a]; simpl; [done |].
  by destruct (mapM_r (getitem pim) (FrankaWorld.combo_preds c.2)).
Qed.

(** [compute_valid_franka_state_tuples] returns one tuple per pair of a
    free-gripper robot configuration with a fully grounded world
    configuration and per pair of an occupied-gripper one with a partly
    grounded one, in that order; each is the tuple [get_tuple_from_state]
    gives the predicates of the pair, so it is sorted. It returns when
    every predicate of the lists is interned, and raises KeyError when a
    predicate of a pair is not. *)
Theorem state_tuples_canonical (pim : gmap string nat)
    (gfree gocc nb b : list FrankaWorld.combo) :
  (∀ ts, FrankaWorld.compute_valid_franka_state_tuples pim gfree gocc nb b = inr ts →
     length ts = length gfree * length nb + length gocc * length b
     ∧ Forall2 (λ c t, SymbolicWeightedFrankaTransitionSystem.get_tuple_from_state pim
                         (FrankaWorld.combo_preds c.1 ++ FrankaWorld.combo_preds c.2)
                       = inr t)
         (list_prod gfree nb ++ list_prod gocc b) ts
     ∧ Forall (Sorted (≤)) ts)
  ∧ ((∀ c p, c ∈ gfree ++ gocc ++ nb ++ b → p ∈ FrankaWorld.combo_preds c →
             is_Some (pim !! p)) →
     ∃ ts, FrankaWorld.compute_valid_franka_state_tuples pim gfree gocc nb b = inr ts)
  ∧ (∀ r w p, (r ∈ gfree ∧ w ∈ nb) ∨ (r ∈ gocc ∧ w ∈ b) →
       p ∈ FrankaWorld.combo_preds r ++ FrankaWorld.combo_preds w →
       pim !! p = None →
       FrankaWorld.compute_valid_franka_state_tuples pim gfree gocc nb b = inl KeyError).
Proof.
  unfold FrankaWorld.compute_valid_franka_state_tuples.
  rewrite (mapM_r_ext _ _ _ (state_tuple_body pim)).
  split; [| split].
  - intros ts H. apply mapM_r_inr in H. split; [| split].
    + rewrite <- (Forall2_length _ _ _ H), length_app, !length_prod. done.
    + done.
    + apply Forall_forall. intros t Ht. apply list_elem_of_lookup in Ht as [i Hi].
      destruct (Forall2_lookup_r _ _ _ _ _ H Hi) as (c & _ & Hc).
      unfold SymbolicWeightedFrankaTransitionSystem.get_tuple_from_state in Hc.
      apply bind_inr in Hc as (ids & _ & Hc). injection Hc as <-. apply sorted_Sorted.
  - intros Hall. apply mapM_r_total. apply Forall_forall. intros [r w] Hrw.
    assert (r ∈ gfree ++ gocc ++ nb ++ b ∧ w ∈ gfree ++ gocc ++ nb ++ b) as [Hr Hw].
    { apply elem_of_app in Hrw as [Hrw|Hrw]; apply list_elem_of_In, in_prod_iff in Hrw
        as [?%list_elem_of_In ?%list_elem_of_In]; rewrite !elem_of_app; tauto. }
    unfold SymbolicWeightedFrankaTransitionSystem.get_tuple_from_state. simpl.
    destruct (mapM_r_total (getitem pim)
                (FrankaWorld.combo_preds r ++ FrankaWorld.combo_preds w)) as [ids ->];
      [| by eexists].
    apply Forall_forall. intros p Hp.
    assert (is_Some (pim !! p)) as [i Hi].
    { apply elem_of_app in Hp as [Hp|Hp]; eauto. }
    exists i. by apply getitem_inr.
  - intros r w p Hrw Hp Hnone. apply (mapM_r_fails _ _ (r, w)).
    + apply elem_of_app.
      destruct Hrw as [[Hr Hw]|[Hr Hw]]; [left | right];
        apply list_elem_of_In, in_prod_iff; split; by apply list_elem_of_In.
    + unfold SymbolicWeightedFrankaTransitionSystem.get_tuple_from_state. simpl.
      by rewrite (mapM_r_getitem_missing _ _ _ Hp Hnone).
    + intros c e He.
      unfold SymbolicWeightedFrankaTransitionSystem.get_tuple_from_state in He.
      destruct (mapM_r (getitem pim) _) as [e0|ids] eqn:E; simpl in He; [| discriminate].
      injection He as <-. by eapply mapM_r_getitem_error.
Qed.

Lemma length_nproduct {A} (ls : list (list A)) :
  length (FrankaWorld.nproduct ls) = foldr (λ l n, length l * n) 1 ls.
Proof.
  induction ls as [|l r IH]; [done |].
  change (length (l ≫= λ x, cons x <$> FrankaWorld.nproduct r)
          = length l * foldr (λ l n, length l * n) 1 r).
  rewrite <- IH. generalize (FrankaWorld.nproduct r). intros rest. clear.
  induction l as [|x l IHl]; [done |].
  rewrite bind_cons, length_app, length_fmap, IHl. simpl. lia.
Qed.

Lemma elem_of_nproduct {A} (ls : list (list A)) (x : list A) :
  x ∈ FrankaWorld.nproduct ls ↔ Forall2 (λ a l, a ∈ l) x ls.
Proof.
  revert x. induction ls as [|l r IH]; intros x; simpl.
  - rewrite list_elem_of_singleton. split; [intros ->; constructor |].
    by intros ->%Forall2_nil_inv_r.
  - rewrite list_elem_of_bind. split.
    + intros (a & Hx & Ha). apply list_elem_of_fmap in Hx as (t & -> & Ht).
      constructor; [done | by apply IH].
    + intros H. apply Forall2_cons_inv_r in H as (a & t & Ha & Ht & ->).
      exists a. split; [| done]. apply list_elem_of_fmap. exists t. split; [done |].
      by apply IH.
Qed.

Lemma combinations_spec {A} (l : list A) :
  ∀ r c, c ∈ FrankaWorld.combinations l r → length c = r ∧ c `sublist_of` l.
Proof.
  induction l as [|x t IH]; intros [|r] c Hc; simpl in Hc.
  - apply list_elem_of_singleton in Hc as ->. split; [done | constructor].
  - by apply elem_of_nil in Hc.
  - apply list_elem_of_singleton in Hc as ->. split; [done | apply sublist_nil_l].
  - apply elem_of_app in Hc as [Hc|Hc].
    + apply list_elem_of_fmap in Hc as (c' & -> & Hc'). apply IH in Hc' as [Hlen Hsub].
      split; [simpl; lia | by constructor].
    + apply IH in Hc as [Hlen Hsub]. split; [done | by constructor].
Qed.

Lemma foldM_r_total {S A} (P : S → Prop) (body : S → A → result S) (l : list A) :
  (∀ s x, x ∈ l → P s → ∃ s', body s x = inr s' ∧ P s') →
  ∀ s, P s → ∃ s', foldM_r body s l = inr s' ∧ P s'.
Proof.
  induction l as [|x l IH]; intros Hb s Hs; simpl; [by exists s |].
  destruct (Hb s x) as (s1 & -> & Hs1); [by left | done |]. simpl.
  apply IH; [| done]. intros s2 y Hy. apply Hb. by right.
Qed.

(** [_get_all_box_combos]: the fully grounded configurations are the
    choices of one predicate per box and one gripper predicate, as many
    as the product of the numbers of choices. With two boxes the list of
    partly grounded configurations is left empty; with one box it holds
    the empty configuration alone; otherwise each of its configurations
    grounds all boxes but one. Without boxes the call raises ValueError. *)
Theorem box_combos_grounding (boxes_dict : list (string * list string))
    (gripper : list string) :
  NoDup (dict_keys boxes_dict) →
  (boxes_dict = [] →
   FrankaWorld._get_all_box_combos boxes_dict gripper = inl ValueError)
  ∧ (length boxes_dict = 2 →
     FrankaWorld._get_all_box_combos boxes_dict gripper
     = inr (FrankaWorld.nproduct (boxes_dict.*2 ++ [gripper]), []))
  ∧ (length boxes_dict = 1 →
     FrankaWorld._get_all_box_combos boxes_dict gripper
     = inr (FrankaWorld.nproduct (boxes_dict.*2 ++ [gripper]), [[]]))
  ∧ (boxes_dict ≠ [] →
     ∃ nb b,
       FrankaWorld._get_all_box_combos boxes_dict gripper = inr (nb, b)
       ∧ (∀ x, x ∈ nb ↔ Forall2 (λ p ps, p ∈ ps) x (boxes_dict.*2 ++ [gripper]))
       ∧ length nb = foldr (λ l n, length l * n) 1 (boxes_dict.*2 ++ [gripper])
       ∧ Forall (λ x, length x = length boxes_dict - 1) b).
Proof.
  intros _. unfold FrankaWorld._get_all_box_combos. split; [| split; [| split]].
  - by intros ->.
  - by intros ->.
  - intros Hlen. destruct boxes_dict as [|[k v] [|? ?]]; simpl in Hlen; try lia.
    simpl. unfold dict_get. simpl. done.
  - intros Hne.
    assert (Hnb : ∀ x, x ∈ FrankaWorld.nproduct (boxes_dict.*2 ++ [gripper])
                       ↔ Forall2 (λ p ps, p ∈ ps) x (boxes_dict.*2 ++ [gripper]))
      by (intros x; apply elem_of_nproduct).
    destruct (Z.eqb_spec (Z.of_nat (length boxes_dict) - 1) 1) as [E2|E2].
    { eexists _, _. split; [done |]. split; [done |]. split; [apply length_nproduct |].
      constructor. }
    destruct (Nat.eqb_spec (length boxes_dict) 0) as [E0|E0];
      [by destruct boxes_dict |].
    destruct (foldM_r_total
                (λ acc : list (list string),
                   Forall (λ x, length x = length boxes_dict - 1) acc)
                (λ acc combo,
                   box_loc_list ←r mapM_r (dict_get boxes_dict) combo;
                   ret (acc ++ FrankaWorld.nproduct box_loc_list))
                (FrankaWorld.combinations (dict_keys boxes_dict) (length boxes_dict - 1)))
      with (s := ([] : list (list string))) as (bl & Hbl & Hall).
    + intros acc combo Hcombo Hacc. apply combinations_spec in Hcombo as [Hlen Hsub].
      destruct (mapM_r_total (dict_get boxes_dict) combo) as [ll Hll].
      { apply Forall_forall. intros k Hk. apply dict_get_is_key.
        eapply elem_of_sublist; [exact Hk | exact Hsub]. }
      rewrite Hll. simpl. eexists. split; [done |].
      apply Forall_app. split; [done |]. apply Forall_forall. intros x Hx.
      apply elem_of_nproduct, Forall2_length in Hx.
      apply mapM_r_inr, Forall2_length in Hll. lia.
    + constructor.
    + rewrite Hbl. simpl. eexists _, _. split; [done |]. split; [done |].
      split; [apply length_nproduct | done].
Qed.

Lemma box_combos_grounding_witness :
  FrankaWorld._get_all_box_combos
    [("b0", ["(on b0 l0)"; "(on b0 l1)"]); ("b1", ["(on b1 l0)"; "(on b1 l1)"])]
    ["(gripper free)"]
  = inr (FrankaWorld.nproduct
           ([("b0", ["(on b0 l0)"; "(on b0 l1)"]);
             ("b1", ["(on b1 l0)"; "(on b1 l1)"])].*2 ++ [["(gripper free)"]]), []).
Proof.
  apply (box_combos_grounding
           [("b0", ["(on b0 l0)"; "(on b0 l1)"]); ("b1", ["(on b1 l0)"; "(on b1 l1)"])]
           ["(gripper free)"]).
  - apply NoDup_cons. split; [| apply NoDup_singleton].
    intros [[=]|[]%elem_of_nil]%elem_of_cons.
  - reflexivity.
Defined.

(** ** Labels of the explicit transition system *)

Lemma list_last_inr {A} (l : list A) (x : A) :
  FiniteTransitionSystem.list_last l = inr x ↔ l !! (length l - 1) = Some x ∧ 0 < length l.
Proof.
  unfold FiniteTransitionSystem.list_last. rewrite last_lookup.
  replace (pred (length l)) with (length l - 1) by lia.
  destruct (l !! (length l - 1)) as [y|] eqn:E.
  - apply lookup_lt_Some in E as Hlt. split.
    + intros [= <-]. split; [done | lia].
    + by intros [[= <-] _].
  - split; [discriminate | by intros [? _]].
Qed.

Lemma loc_token_not_free (l : string) :
  l = EmptyString ∨ RegexSem.is_token FiniteTransitionSystem.loc_class l →
  l ≠ "free"%string.
Proof.
  intros [->|(c & ds & -> & Hc & _)]; [done |]. intros [= -> _]. discriminate.
Qed.

Lemma loc_token_not_box (dest : string) (i : nat) :
  RegexSem.is_token FiniteTransitionSystem.loc_class dest → dest ≠ "b" +:+ pretty i.
Proof. intros (c & ds & -> & Hc & _). intros [= -> _]. discriminate. Qed.

Lemma get_box_location_loc (a : string) (i : nat) (l : string) :
  FiniteTransitionSystem._get_box_location a = inr (i, l) →
  l = EmptyString ∨ RegexSem.is_token FiniteTransitionSystem.loc_class l.
Proof.
  unfold FiniteTransitionSystem._get_box_location.
  destruct (FiniteTransitionSystem.re_search_digits _); [| discriminate]. intros [= _ <-].
  destruct (FiniteTransitionSystem.re_search FiniteTransitionSystem.loc_class a) as [m|] eqn:E;
    [right; by eapply re_search_token | by left].
Qed.

(** A grasp that is valid takes the box from a slot that is not the
    gripper slot; the label after it has "gripper" in the slot of the
    box and the name of the box in the gripper slot, and is otherwise
    the label before. A release of the same box at the same location
    gives the label before the grasp back, and is valid exactly when no
    other box is at that location. *)
Theorem grasp_then_release (L : list string) (a : string) (i : nat) (l : string) :
  FiniteTransitionSystem._get_box_location a = inr (i, l) →
  FiniteTransitionSystem._check_grasp_action_validity L a = inr true →
  i < length L - 1
  ∧ L !! i = Some l
  ∧ ∃ L',
      FiniteTransitionSystem.grasp_label L a = inr L'
      ∧ L' = <[length L - 1 := "b" +:+ pretty i]> (<[i := "gripper"%string]> L)
      ∧ ∀ r, FiniteTransitionSystem._get_box_location r = inr (i, l) →
          FiniteTransitionSystem.release_label L' r = inr L
          ∧ ∃ ok, FiniteTransitionSystem._check_release_action_validity L' r = inr ok
                  ∧ (ok = true ↔ ∀ j, j ≠ i → j < length L - 1 → L !! j ≠ Some l).
Proof.
  intros Hbl Hok. pose proof (get_box_location_loc _ _ _ Hbl) as Hloc.
  unfold FiniteTransitionSystem._check_grasp_action_validity in Hok. rewrite Hbl in Hok.
  simpl in Hok. unfold list_getitem in Hok.
  destruct (L !! i) as [cur|] eqn:Ei; [| discriminate]. simpl in Hok.
  case_bool_decide as Hcur; [| discriminate]. subst cur.
  destruct (FiniteTransitionSystem.list_last L) as [e|g] eqn:Eg; [discriminate |].
  simpl in Hok. injection Hok as Hg. apply bool_decide_eq_true in Hg as ->.
  apply list_last_inr in Eg as [Elast Hpos].
  apply lookup_lt_Some in Ei as Hi.
  assert (Hne : i ≠ length L - 1).
  { intros ->. rewrite Elast in Ei. injection Ei as <-. by eapply loc_token_not_free. }
  split; [lia |]. split; [done |].
  eexists. split; [| split; [reflexivity |]].
  - unfold FiniteTransitionSystem.grasp_label. rewrite Hbl. simpl.
    unfold FiniteTransitionSystem.list_setitem. rewrite bool_decide_eq_true_2 by done.
    simpl. unfold FiniteTransitionSystem.list_set_last. rewrite length_insert.
    by rewrite bool_decide_eq_true_2 by done.
  - intros r Hr. split.
    + unfold FiniteTransitionSystem.release_label. rewrite Hr. simpl.
      unfold FiniteTransitionSystem.list_setitem. rewrite !length_insert.
      rewrite bool_decide_eq_true_2 by done. simpl.
      unfold FiniteTransitionSystem.list_set_last. rewrite !length_insert.
      rewrite bool_decide_eq_true_2 by done. f_equal.
      apply list_eq. intros j.
      destruct (decide (j = length L - 1)) as [->|Hj1].
      { rewrite list_lookup_insert_eq by (rewrite !length_insert; lia). done. }
      rewrite list_lookup_insert_ne by done.
      destruct (decide (j = i)) as [->|Hj2].
      { rewrite list_lookup_insert_eq by (rewrite !length_insert; lia). done. }
      by rewrite !list_lookup_insert_ne by done.
    + unfold FiniteTransitionSystem._check_release_action_validity. rewrite Hr. simpl.
      unfold list_getitem. rewrite list_lookup_insert_ne by done.
      rewrite list_lookup_insert_eq by done. simpl. eexists. split; [reflexivity |].
      rewrite negb_true_iff.
      rewrite bool_decide_eq_false, !length_insert. split.
      * intros Hnot j Hji Hj Hl. apply Hnot. apply list_elem_of_lookup. exists j.
        rewrite lookup_take_lt by done.
        rewrite list_lookup_insert_ne by lia. by rewrite list_lookup_insert_ne.
      * intros Hno Hin. apply list_elem_of_lookup in Hin as [j Hj].
        apply lookup_take_Some in Hj as [Hj Hlt].
        rewrite list_lookup_insert_ne in Hj by lia.
        destruct (decide (j = i)) as [->|Hji].
        -- rewrite list_lookup_insert_eq in Hj by done. injection Hj as <-.
           destruct Hloc as [[=]|(c & ds & [= <- _] & Hc & _)]. discriminate.
        -- rewrite list_lookup_insert_ne in Hj by done. by eapply Hno.
Qed.

Lemma grasp_then_release_witness :
  FiniteTransitionSystem.release_label ["gripper"; "l4"; "b0"] "(release b0 l3)"
  = inr ["l3"; "l4"; "free"].
Proof.
  destruct (grasp_then_release ["l3"; "l4"; "free"] "(grasp b0 l3)" 0 "l3" eq_refl eq_refl)
    as (_ & _ & L' & HL' & -> & Hrel).
  exact (proj1 (Hrel "(release b0 l3)" eq_refl)).
Defined.

(** A transfer that is valid writes its destination in the gripper
    slot and changes nothing else; on the label it gives no transfer is
    valid, whatever the action. *)
Theorem transfer_blocks_transfer (L : list string) (a : string) :
  FiniteTransitionSystem._check_transfer_action_validity L a = inr true →
  ∃ L' i locs dest,
    FiniteTransitionSystem._get_multiple_box_location a = inr (i, locs)
    ∧ last locs = Some dest
    ∧ RegexSem.is_token FiniteTransitionSystem.loc_class dest
    ∧ L !! i = Some "gripper"%string
    ∧ dest ∉ L
    ∧ FiniteTransitionSystem.transfer_label L a = inr L'
    ∧ L' = <[length L - 1 := dest]> L
    ∧ ∀ a', FiniteTransitionSystem._check_transfer_action_validity L' a' ≠ inr true.
Proof.
  unfold FiniteTransitionSystem._check_transfer_action_validity. intros Hok.
  destruct (FiniteTransitionSystem._get_multiple_box_location a) as [e|[i locs]] eqn:Hbl;
    [discriminate |].
  simpl in Hok. unfold list_getitem in Hok.
  destruct (L !! i) as [cur|] eqn:Ei; [| discriminate]. simpl in Hok.
  case_bool_decide as Hcur; [| discriminate]. subst cur.
  destruct (FiniteTransitionSystem.list_last L) as [e|g] eqn:Eg; [discriminate |].
  simpl in Hok. case_bool_decide as Hg; [| discriminate].
  destruct (FiniteTransitionSystem.list_last locs) as [e|dest] eqn:Ed; [discriminate |].
  simpl in Hok. injection Hok as Hnot. apply negb_true_iff, bool_decide_eq_false in Hnot.
  apply list_last_inr in Eg as [Elast Hpos].
  assert (Hlast : last locs = Some dest).
  { unfold FiniteTransitionSystem.list_last in Ed. destruct (last locs); [| discriminate].
    by injection Ed as ->. }
  assert (Htok : RegexSem.is_token FiniteTransitionSystem.loc_class dest).
  { pose proof (re_findall_tokens FiniteTransitionSystem.loc_class a) as Hall.
    unfold FiniteTransitionSystem._get_multiple_box_location in Hbl.
    destruct (FiniteTransitionSystem.re_search FiniteTransitionSystem.box_class a);
      [| discriminate].
    destruct (FiniteTransitionSystem.re_search_digits _); [| discriminate].
    injection Hbl as _ <-. rewrite Forall_forall in Hall. apply Hall.
    rewrite last_lookup in Hlast. by eapply list_elem_of_lookup_2. }
  exists (<[length L - 1 := dest]> L), i, locs, dest. do 5 (split; [done |]).
  split; [| split; [done |]].
  - unfold FiniteTransitionSystem.transfer_label. rewrite Hbl. simpl. rewrite Ed. simpl.
    unfold FiniteTransitionSystem.list_set_last. by rewrite bool_decide_eq_true_2.
  - intros a'.
    destruct (FiniteTransitionSystem._get_multiple_box_location a') as [e|[j locs']];
      [discriminate |].
    simpl. destruct (list_getitem _ j) as [e|cur]; [discriminate |]. simpl.
    case_bool_decide; [| discriminate].
    assert (FiniteTransitionSystem.list_last (<[length L - 1 := dest]> L) = inr dest) as ->.
    { apply list_last_inr. rewrite length_insert. split; [| done].
      by apply list_lookup_insert_eq; lia. }
    simpl. rewrite bool_decide_eq_false_2; [discriminate |]. by apply loc_token_not_box.
Qed.

Lemma transfer_blocks_transfer_witness :
  FiniteTransitionSystem.transfer_label ["gripper"; "l4"; "b0"] "(transfer b0 l0 l2)"
  = inr ["gripper"; "l4"; "l2"].
Proof.
  destruct (transfer_blocks_transfer ["gripper"; "l4"; "b0"] "(transfer b0 l0 l2)" eq_refl)
    as (L' & i & locs & dest & Hbl & Hlast & _ & _ & _ & HL' & -> & _).
  rewrite HL'. vm_compute in Hbl. injection Hbl as <- <-.
  vm_compute in Hlast. injection Hlast as <-. reflexivity.
Defined.

(** A release that is valid puts the box at its location and frees
    the gripper, and a grasp of that box at that location is valid on
    the label it gives. The check of a release does not read the
    gripper slot: it answers the same whatever that slot holds. *)
Theorem release_then_grasp (L : list string) (r : string) (i : nat) (l : string) :
  FiniteTransitionSystem._get_box_location r = inr (i, l) →
  FiniteTransitionSystem._check_release_action_validity L r = inr true →
  i < length L - 1 →
  L !! i = Some "gripper"%string
  ∧ l ∉ take (length L - 1) L
  ∧ (∀ g, FiniteTransitionSystem._check_release_action_validity
            (<[length L - 1 := g]> L) r = inr true)
  ∧ ∃ L',
      FiniteTransitionSystem.release_label L r = inr L'
      ∧ L' = <[length L - 1 := "free"%string]> (<[i := l]> L)
      ∧ ∀ a, FiniteTransitionSystem._get_box_location a = inr (i, l) →
             FiniteTransitionSystem._check_grasp_action_validity L' a = inr true.
Proof.
  intros Hr Hok Hi.
  unfold FiniteTransitionSystem._check_release_action_validity in Hok. rewrite Hr in Hok.
  simpl in Hok. unfold list_getitem in Hok.
  destruct (L !! i) as [cur|] eqn:Ei; [| discriminate]. simpl in Hok.
  injection Hok as Hok. apply andb_true_iff in Hok as [Hcur Hnot].
  apply bool_decide_eq_true in Hcur as ->.
  apply negb_true_iff, bool_decide_eq_false in Hnot.
  split; [done |]. split; [done |]. split.
  - intros g. unfold FiniteTransitionSystem._check_release_action_validity.
    rewrite Hr. simpl. unfold list_getitem.
    rewrite list_lookup_insert_ne by lia. rewrite Ei. simpl.
    rewrite length_insert, take_insert_ge by lia.
    by rewrite bool_decide_eq_false_2.
  - eexists. split; [| split; [reflexivity |]].
    + unfold FiniteTransitionSystem.release_label. rewrite Hr. simpl.
      unfold FiniteTransitionSystem.list_setitem.
      rewrite bool_decide_eq_true_2 by lia. simpl.
      unfold FiniteTransitionSystem.list_set_last. rewrite length_insert.
      by rewrite bool_decide_eq_true_2 by lia.
    + intros a Ha. unfold FiniteTransitionSystem._check_grasp_action_validity.
      rewrite Ha. simpl. unfold list_getitem.
      rewrite list_lookup_insert_ne by lia.
      rewrite list_lookup_insert_eq by lia. simpl.
      rewrite bool_decide_eq_true_2 by done.
      assert (FiniteTransitionSystem.list_last
                (<[length L - 1 := "free"%string]> (<[i := l]> L)) = inr "free"%string) as ->.
      { apply list_last_inr. rewrite !length_insert. split; [| lia].
        apply list_lookup_insert_eq. rewrite length_insert. lia. }
      done.
Qed.

Lemma release_then_grasp_witness :
  FiniteTransitionSystem._check_grasp_action_validity ["l3"; "l4"; "free"] "(grasp b0 l3)"
  = inr true.
Proof.
  destruct (release_then_grasp ["gripper"; "l4"; "b0"] "(release b0 l3)" 0 "l3"
              eq_refl eq_refl ltac:(simpl; lia))
    as (_ & _ & _ & L' & _ & -> & Hgrasp).
  exact (Hgrasp "(grasp b0 l3)" eq_refl).
Defined.
